(** * tree.lupinum.com: the indentation parser and the tree renderers

    A shallow embedding of [app/lib/parse-input.ts], [app/lib/generate-tree.ts]
    and [app/lib/tree-formatters.ts], and of the computed value [tree] of
    the index page, which calls them.

    - JavaScript strings are sequences of UTF-16 code units: [list N].
    - [FileStructure] objects live in a store ([heap]); an object's identity
      is its address, so [===] on objects is equality of addresses and the
      [parent] back-reference is an address.
    - A function that can throw returns an [outcome].
    - The loops that follow [parent] and [children] links take fuel, the
      number of cells of the store, which is enough on every tree
      ([tree_size_le]); they do not end on a store with a cycle.
    - A stack (the [path] of [parseInput], the [stack] of [generateTree]) is
      a list with its top at the head. *)

From Stdlib Require Import Strings.String Strings.Ascii NArith ZArith Lia.
From stdpp Require Import base option list sorting.

Set Warnings "-register-all".

Local Open Scope N_scope.

(** ** JavaScript strings *)

Abbreviation jsstring := (list N).

(** Reads a source literal (UTF-8 bytes) as UTF-16 code units. *)
Fixpoint utf16 (s : string) : jsstring :=
  match s with
  | EmptyString => []
  | String b1 r1 =>
    let n1 := N_of_ascii b1 in
    if n1 <? 128 then n1 :: utf16 r1
    else if n1 <? 224 then
      match r1 with
      | String b2 r2 => ((n1 mod 32) * 64 + N_of_ascii b2 mod 64) :: utf16 r2
      | _ => [65533]
      end
    else if n1 <? 240 then
      match r1 with
      | String b2 (String b3 r3) =>
        ((n1 mod 16) * 4096 + (N_of_ascii b2 mod 64) * 64 + N_of_ascii b3 mod 64)
          :: utf16 r3
      | _ => [65533]
      end
    else
      match r1 with
      | String b2 (String b3 (String b4 r4)) =>
        let cp := (n1 mod 8) * 262144 + (N_of_ascii b2 mod 64) * 4096
                  + (N_of_ascii b3 mod 64) * 64 + N_of_ascii b4 mod 64 in
        (55296 + (cp - 65536) / 1024) :: (56320 + (cp - 65536) mod 1024) :: utf16 r4
      | _ => [65533]
      end
  end.

Definition js (s : string) : jsstring := utf16 s.
Arguments js s%_string : simpl never.

Fixpoint str_eqb (s t : jsstring) : bool :=
  match s, t with
  | [], [] => true
  | c :: s', d :: t' => (c =? d) && str_eqb s' t'
  | _, _ => false
  end.

(** [s.startsWith(p)] *)
Fixpoint starts_with (p s : jsstring) : bool :=
  match p, s with
  | [], _ => true
  | c :: p', d :: s' => (c =? d) && starts_with p' s'
  | _ :: _, [] => false
  end.

(** [s.includes(p)] *)
Fixpoint includes (s p : jsstring) : bool :=
  starts_with p s || match s with [] => false | _ :: s' => includes s' p end.

(** [s.replace(pat, rep)] for a string pattern and a replacement without
    [$]: the first occurrence of [pat] is replaced. *)
Fixpoint replace (s pat rep : jsstring) : jsstring :=
  if starts_with pat s then rep ++ drop (length pat) s
  else match s with [] => [] | c :: s' => c :: replace s' pat rep end.

(** [l.join(sep)] *)
Fixpoint join (sep : jsstring) (l : list jsstring) : jsstring :=
  match l with
  | [] => []
  | [x] => x
  | x :: l' => x ++ sep ++ join sep l'
  end.

(** [s.substring(k)] *)
Definition substring (k : nat) (s : jsstring) : jsstring := drop k s.

(** The class [\s] of a JavaScript regular expression: WhiteSpace and
    LineTerminator code points. *)
Definition is_ws (c : N) : bool :=
  (9 <=? c) && (c <=? 13) || (c =? 32) || (c =? 160) || (c =? 5760)
  || (8192 <=? c) && (c <=? 8202) || (c =? 8232) || (c =? 8233)
  || (c =? 8239) || (c =? 8287) || (c =? 12288) || (c =? 65279).

(** [[\r\n]] *)
Definition is_newline (c : N) : bool := (c =? 10) || (c =? 13).

Local Close Scope N_scope.

(** ** The outcome of a call *)

Inductive exn :=
| Error (msg : jsstring)
| TypeError.

(** [Timeout]: a loop of the model used up its fuel.  [Dangling]: an address
    outside the store was read; JavaScript references cannot dangle. *)
Inductive outcome (A : Type) :=
| Ok (a : A)
| Throw (e : exn)
| Timeout
| Dangling.
Arguments Ok {A} a.
Arguments Throw {A} e.
Arguments Timeout {A}.
Arguments Dangling {A}.

Global Instance outcome_ret : MRet outcome := @Ok.
Global Instance outcome_bind : MBind outcome := λ A B f m,
  match m with
  | Ok a => f a
  | Throw e => Throw e
  | Timeout => Timeout
  | Dangling => Dangling
  end.

(** ** The tree node model (FileStructure.ts) *)

Abbreviation addr := nat.

(** Modelled from the spec: the interface [FileStructure] of
    [FileStructure.ts], which is not among the sources; its four fields are
    those of the spec's data model (section 3) and of the object literals of
    [parse-input.ts].  [children] and [parent] hold addresses. *)
Record FileStructure := mkFS {
  name : jsstring;
  children : list addr;
  indentCount : Z;
  parent : option addr;
}.

Abbreviation heap := (list FileStructure).

Definition deref (h : heap) (a : addr) : outcome FileStructure :=
  match h !! a with
  | Some nd => Ok nd
  | None => Dangling
  end.

Definition push_child (c : addr) (nd : FileStructure) : FileStructure :=
  mkFS (name nd) (children nd ++ [c]) (indentCount nd) (parent nd).

Definition set_parent (p : addr) (nd : FileStructure) : FileStructure :=
  mkFS (name nd) (children nd) (indentCount nd) (Some p).

(** ** parse-input.ts *)

(** [input.match(/[^\r\n]+/g) || []]: the maximal non-empty runs of code
    units other than CR and LF.  [cur] is the current run, reversed. *)
Fixpoint newlineSplitter (input cur : jsstring) : list jsstring :=
  match input with
  | [] => match cur with [] => [] | _ => [rev cur] end
  | c :: rest =>
    if is_newline c
    then match cur with
         | [] => newlineSplitter rest []
         | _ => rev cur :: newlineSplitter rest []
         end
    else newlineSplitter rest (c :: cur)
  end.

(** [/^\s*$/.test(l)] *)
Definition onlyWhitespace (l : jsstring) : bool := forallb is_ws l.

Fixpoint leading_ws (l : jsstring) : jsstring :=
  match l with
  | c :: l' => if is_ws c then c :: leading_ws l' else []
  | [] => []
  end.

(** [leadingWhitespaceAndBulletRegex.exec(line)]: capture groups 1 and 2.
    The pattern is a greedy run of [\s] (group 2) and then, optionally, a
    dash and one [\s]; group 1 is the whole match.  The greedy run takes the
    whole leading whitespace, and the pattern matches every line. *)
Definition leadingWhitespaceAndBullet (line : jsstring)
  : option (jsstring * jsstring) :=
  let ws := leading_ws line in
  match drop (length ws) line with
  | 45%N :: c :: _ =>
    if is_ws c then Some (ws ++ [45%N; c], ws) else Some (ws, ws)
  | _ => Some (ws, ws)
  end.

Fixpoint nat_digits (fuel n : nat) (acc : jsstring) : jsstring :=
  match fuel with
  | O => acc
  | S f =>
    let acc' := (48 + N.of_nat (n mod 10))%N :: acc in
    if n <? 10 then acc' else nat_digits f (n / 10) acc'
  end.

(** [String(n)] for a non-negative integer *)
Definition nat_to_js (n : nat) : jsstring := nat_digits (S n) n [].

Definition split_line (index : nat) (line : jsstring) : outcome FileStructure :=
  match leadingWhitespaceAndBullet line with
  | None =>
    Throw (Error (js "Cannot parse line " ++ nat_to_js (index + 1) ++ js ": "
                  ++ [34%N] ++ line ++ [34%N] ++ js ". Expected valid indentation."))
  | Some (g1, g2) =>
    Ok (mkFS (replace line g1 []) [] (Z.of_nat (length g2)) None)
  end.

Fixpoint map_lines (index : nat) (lines : list jsstring)
  : outcome (list FileStructure) :=
  match lines with
  | [] => Ok []
  | l :: ls =>
    s ← split_line index l;
    ss ← map_lines (S index) ls;
    Ok (s :: ss)
  end.

Definition splitInput (input : jsstring) : outcome (list FileStructure) :=
  let lines := filter (λ l, onlyWhitespace l = false) (newlineSplitter input []) in
  match lines with
  | [] => Ok []
  | _ => map_lines 0 lines
  end.

Definition root_node : FileStructure := mkFS (js ".") [] (-1) None.

Definition badIndentation (item : jsstring) : exn :=
  Error (js "Bad indentation found at item: " ++ item).

(** The ancestor stack [path] is kept with its top (the last array element)
    at the head of the list. *)

(** [while (path.length > 0 && path[path.length - 1].indentCount >= s.indentCount) path.pop()] *)
Fixpoint pop_path (h : heap) (path : list addr) (indent : Z)
  : outcome (list addr) :=
  match path with
  | [] => Ok []
  | top :: rest =>
    nd ← deref h top;
    if (indent <=? indentCount nd)%Z then pop_path h rest indent else Ok path
  end.

(** The oversized-jump test at the head of the loop body. *)
Definition jump_too_big (sIndent lastIndent : Z) : bool :=
  (lastIndent + 2 <? sIndent)%Z && negb (lastIndent =? -1)%Z.

(** One iteration of [for (const s of structures)]. *)
Definition attach (st : heap * list addr) (s : addr)
  : outcome (heap * list addr) :=
  let '(h, path) := st in
  top ← match path with
        | [] => Throw TypeError
        | t :: _ => deref h t
        end;
  item ← deref h s;
  let lastIndent := indentCount top in
  if jump_too_big (indentCount item) lastIndent
  then Throw (badIndentation (name item))
  else
    path' ← pop_path h path (indentCount item);
    match path' with
    | [] => Throw (badIndentation (name item))
    | p :: _ =>
      let h1 := alter (push_child s) p h in
      let h2 := alter (set_parent p) s h1 in
      Ok (h2, s :: path')
    end.

Fixpoint build (ss : list addr) (st : heap * list addr)
  : outcome (heap * list addr) :=
  match ss with
  | [] => Ok st
  | s :: ss' => st' ← attach st s; build ss' st'
  end.

(** The store of a parse: the root at address 0 and the objects returned by
    [splitInput] after it, in document order. *)
Definition initial_heap (structures : list FileStructure) : heap :=
  root_node :: structures.

Definition parseInput (input : jsstring) : outcome (heap * addr) :=
  match input with
  | [] => Throw (Error (js "Input must be a non-empty string"))
  | _ =>
    structures ← splitInput input;
    '(h, _) ← build (seq 1 (length structures)) (initial_heap structures, [0]);
    Ok (h, 0)
  end.


(** ** generate-tree.ts *)

Definition structure_required : exn := Error (js "Structure is required").

Record LineStringSet := mkLines {
  CHILD : jsstring;
  LAST_CHILD : jsstring;
  DIRECTORY : jsstring;
  EMPTY : jsstring;
}.

(** Modelled from the spec: the table [LINE_STRINGS] of [line-strings.ts],
    which is not among the sources; the four strings of each character set
    are those of the spec's table (section 4.2).  A key other than the two
    character sets has no entry of its own.  The read [LINE_STRINGS[charset]]
    of [getAsciiLine] also finds what the table inherits: the keys of
    [Object_prototype_keys], when the table is an object literal.  They are
    not entries of the table, and what the renderer does with them is not
    modelled. *)
Definition LINE_STRINGS (charset : jsstring) : option LineStringSet :=
  if str_eqb charset (js "ascii")
  then Some (mkLines (js "|-- ") (js "`-- ") (js "|   ") (js "    "))
  else if str_eqb charset (js "utf-8")
  then Some (mkLines (js "├── ") (js "└── ") (js "│   ") (js "    "))
  else None.


(** Every option may be left out: [None] is a key that is absent.  A key
    that is present holds a value of its type; a key set to [undefined] is
    not modelled. *)
Record GenerateTreeOptions := mkOptions {
  charset : option jsstring;
  trailingDirSlash : option bool;
  fullPath : option bool;
  rootDot : option bool;
}.

Definition defaultOptions : GenerateTreeOptions :=
  mkOptions (Some (js "utf-8")) (Some false) (Some false) (Some true).

Definition no_options : GenerateTreeOptions := mkOptions None None None None.

Definition or_else {A} (over base : option A) : option A :=
  match over with
  | Some v => Some v
  | None => base
  end.

(** [{ ...base, ...over }] *)
Definition spread (base over : GenerateTreeOptions) : GenerateTreeOptions :=
  mkOptions (or_else (charset over) (charset base))
            (or_else (trailingDirSlash over) (trailingDirSlash base))
            (or_else (fullPath over) (fullPath base))
            (or_else (rootDot over) (rootDot base)).

(** An optional boolean used as a condition. *)
Definition truthy (b : option bool) : bool :=
  match b with
  | Some true => true
  | _ => false
  end.

Definition isLastChild (h : heap) (structure : addr) : outcome bool :=
  nd ← deref h structure;
  match parent nd with
  | None => Ok false
  | Some p =>
    pnd ← deref h p;
    match last (children pnd) with
    | None => Ok false
    | Some c => Ok (c =? structure)
    end
  end.

Fixpoint skip_ws (s : jsstring) : jsstring :=
  match s with
  | c :: s' => if is_ws c then skip_ws s' else s
  | [] => []
  end.

(** The test of [getName] for a trailing slash: a slash followed by
    whitespace only, up to the end of the name. *)
Definition has_trailing_slash (s : jsstring) : bool :=
  match skip_ws (rev s) with
  | 47%N :: _ => true
  | _ => false
  end.

(** [while (current && current.name !== '.') { pathParts.unshift(current.name); current = current.parent }],
    the loop of [getName] and of [getFullPath]. *)
Fixpoint collect_path (fuel : nat) (h : heap) (current : option addr)
    (pathParts : list jsstring) : outcome (list jsstring) :=
  match current with
  | None => Ok pathParts
  | Some cur =>
    nd ← deref h cur;
    if str_eqb (name nd) (js ".") then Ok pathParts
    else match fuel with
         | O => Timeout
         | S f => collect_path f h (parent nd) (name nd :: pathParts)
         end
  end.

Definition getName (h : heap) (structure : addr) (options : GenerateTreeOptions)
  : outcome jsstring :=
  nd ← deref h structure;
  let nameChunks := [name nd] in
  let nameChunks :=
    if truthy (trailingDirSlash options) && (0 <? length (children nd))
       && negb (has_trailing_slash (name nd))
    then nameChunks ++ [js "/"] else nameChunks in
  nameChunks ←
    (if truthy (fullPath options) && bool_decide (is_Some (parent nd))
     then
       pathParts ← collect_path (length h) h (parent nd) [];
       match pathParts with
       | [] => Ok nameChunks
       | _ => Ok ((join (js "/") pathParts ++ js "/") :: nameChunks)
       end
     else Ok nameChunks);
  Ok (join [] nameChunks).

(** [while (current && current.parent) { chunks.unshift(...); current = current.parent }] *)
Fixpoint ancestor_chunks (fuel : nat) (h : heap) (lines : LineStringSet)
    (current : option addr) (chunks : list jsstring) : outcome (list jsstring) :=
  match current with
  | None => Ok chunks
  | Some cur =>
    nd ← deref h cur;
    match parent nd with
    | None => Ok chunks
    | Some p =>
      match fuel with
      | O => Timeout
      | S f =>
        lastc ← isLastChild h cur;
        ancestor_chunks f h lines (Some p)
          ((if (lastc : bool) then EMPTY lines else DIRECTORY lines) :: chunks)
      end
    end
  end.

(** [options.charset || 'utf-8'] *)
Definition charset_or_default (options : GenerateTreeOptions) : jsstring :=
  match charset options with
  | Some (c :: cs) => c :: cs
  | _ => js "utf-8"
  end.

Definition getAsciiLine (h : heap) (structure : addr)
    (options : GenerateTreeOptions) : outcome (option jsstring) :=
  let charset := charset_or_default options in
  match LINE_STRINGS charset with
  | None => Throw (Error (js "Unknown charset: " ++ charset))
  | Some lines =>
    nd ← deref h structure;
    match parent nd with
    | None => Ok (if truthy (rootDot options) then Some (name nd) else None)
    | Some p =>
      lastc ← isLastChild h structure;
      nm ← getName h structure options;
      let chunks := [if (lastc : bool) then LAST_CHILD lines else CHILD lines; nm] in
      chunks ← ancestor_chunks (length h) h lines (Some p) chunks;
      Ok (Some (substring
                  (if truthy (rootDot options) then 0 else length (CHILD lines))
                  (join [] chunks)))
    end
  end.

(** [for (let i = item.children.length - 1; i >= 0; i--) stack.push(item.children[i])];
    the stack is kept with its top at the head. *)
Definition push_reversed (children : list addr) (stack : list addr) : list addr :=
  fold_left (λ st c, c :: st) (rev children) stack.

Fixpoint generateTree_loop (fuel : nat) (h : heap) (options : GenerateTreeOptions)
    (stack : list addr) (lines : list jsstring) : outcome (list jsstring) :=
  match stack with
  | [] => Ok lines
  | item :: stack' =>
    match fuel with
    | O => Timeout
    | S f =>
      line ← getAsciiLine h item options;
      let lines := match line with
                   | Some l => lines ++ [l]
                   | None => lines
                   end in
      nd ← deref h item;
      generateTree_loop f h options (push_reversed (children nd) stack') lines
    end
  end.

(** The array [lines] when the loop of [generateTree] ends. *)
Definition generateTree_lines (h : heap) (structure : option addr)
    (options : option GenerateTreeOptions) : outcome (list jsstring) :=
  match structure with
  | None => Throw structure_required
  | Some root =>
    let mergedOptions := spread defaultOptions (default no_options options) in
    generateTree_loop (length h) h mergedOptions [root] []
  end.

Definition generateTree (h : heap) (structure : option addr)
    (options : option GenerateTreeOptions) : outcome jsstring :=
  lines ← generateTree_lines h structure options;
  Ok (join (js "
") lines).


(** ** tree-formatters.ts *)

(** [for (const x of l) ...] and [l.forEach(...)] over a state [s]. *)
Fixpoint for_each {A S : Type} (f : A → S → outcome S) (l : list A) (s : S)
  : outcome S :=
  match l with
  | [] => Ok s
  | x :: l' => s' ← f x s; for_each f l' s'
  end.

Definition getFullPath (h : heap) (item : addr) : outcome jsstring :=
  pathParts ← collect_path (length h) h (Some item) [];
  Ok (join (js "/") pathParts).

(** *** JSON values and [JSON.stringify(value, null, 2)] *)

(** The values the serializers build.  An object is the list of its own
    properties in the order in which [JSON.stringify] and [Object.entries]
    list them: array-index keys in ascending order, then the other keys in
    order of creation.  [inherits] tells whether [Object.prototype] is on the
    prototype chain of the object, as it is for every object made by a
    literal; [JSON.stringify] does not look at it. *)
Inductive json :=
| JNull
| JString (s : jsstring)
| JArray (items : list json)
| JObject (inherits : bool) (props : list (jsstring * json)).

Fixpoint digits_value (s : jsstring) (acc : N) : option N :=
  match s with
  | [] => Some acc
  | c :: s' =>
    if (48 <=? c)%N && (c <=? 57)%N then digits_value s' (10 * acc + (c - 48))%N
    else None
  end.

(** An array index is the canonical decimal form of an integer below
    [2^32 - 1]. *)
Definition array_index (k : jsstring) : option N :=
  match k with
  | [] => None
  | [48%N] => Some 0%N
  | 48%N :: _ => None
  | _ =>
    if length k <=? 10
    then match digits_value k 0 with
         | Some n => if (n <? 4294967295)%N then Some n else None
         | None => None
         end
    else None
  end.

(** A new own property [k] takes its place in the order of the keys. *)
Fixpoint add_property (props : list (jsstring * json)) (k : jsstring) (v : json)
  : list (jsstring * json) :=
  match props with
  | [] => [(k, v)]
  | (k', v') :: ps =>
    match array_index k, array_index k' with
    | Some n, Some n' =>
      if (n <? n')%N then (k, v) :: props else (k', v') :: add_property ps k v
    | Some _, None => (k, v) :: props
    | None, _ => (k', v') :: add_property ps k v
    end
  end.

Fixpoint has_property (props : list (jsstring * json)) (k : jsstring) : bool :=
  match props with
  | [] => false
  | (k', _) :: ps => str_eqb k' k || has_property ps k
  end.

Fixpoint update_property (props : list (jsstring * json)) (k : jsstring) (v : json)
  : list (jsstring * json) :=
  match props with
  | [] => []
  | (k', v') :: ps =>
    if str_eqb k' k then (k', v) :: ps else (k', v') :: update_property ps k v
  end.

(** [obj[k] = v] on an ordinary object, given as its [inherits] flag and its
    own properties.  An object that has [Object.prototype] on its prototype
    chain inherits the accessor property [__proto__] (ECMAScript, B.2.2.1):
    an assignment to that key, when the object has no own property of that
    name, runs the setter, which makes [v] the prototype of [obj] when [v] is
    null or an object and creates no own property.  Every other assignment
    writes an own data property, in place when it exists already. *)
Definition set_property (obj : bool * list (jsstring * json)) (k : jsstring)
    (v : json) : bool * list (jsstring * json) :=
  let '(inherits, props) := obj in
  if str_eqb k (js "__proto__") && inherits && negb (has_property props k)
  then
    (match v with
     | JNull => false
     | JObject i _ => i
     | JArray _ => true
     | JString _ => inherits
     end, props)
  else
    (inherits,
     if has_property props k then update_property props k v
     else add_property props k v).

(** The object that [obj] is after a sequence of assignments. *)
Definition to_object (obj : bool * list (jsstring * json)) : json :=
  JObject obj.1 obj.2.

(** [{}] *)
Definition empty_object : bool * list (jsstring * json) := (true, []).

Fixpoint hex_digits (n : nat) (v : N) (acc : jsstring) : jsstring :=
  match n with
  | O => acc
  | S n' =>
    let d := (v mod 16)%N in
    hex_digits n' (v / 16)%N ((if (d <? 10)%N then 48 + d else 87 + d)%N :: acc)
  end.

Definition unicode_escape (c : N) : jsstring := js "\u" ++ hex_digits 4 c [].

(** QuoteJSONString, without the quotes around it. *)
Fixpoint quote_body (s : jsstring) : jsstring :=
  match s with
  | [] => []
  | c :: s' =>
    if (c =? 8)%N then js "\b" ++ quote_body s'
    else if (c =? 9)%N then js "\t" ++ quote_body s'
    else if (c =? 10)%N then js "\n" ++ quote_body s'
    else if (c =? 12)%N then js "\f" ++ quote_body s'
    else if (c =? 13)%N then js "\r" ++ quote_body s'
    else if (c =? 34)%N then [92%N; 34%N] ++ quote_body s'
    else if (c =? 92)%N then [92%N; 92%N] ++ quote_body s'
    else if (c <? 32)%N then unicode_escape c ++ quote_body s'
    else if (55296 <=? c)%N && (c <? 56320)%N then
      match s' with
      | d :: s'' =>
        if (56320 <=? d)%N && (d <? 57344)%N then c :: d :: quote_body s''
        else unicode_escape c ++ quote_body s'
      | [] => unicode_escape c
      end
    else if (56320 <=? c)%N && (c <? 57344)%N then unicode_escape c ++ quote_body s'
    else c :: quote_body s'
  end.

Definition quote (s : jsstring) : jsstring := [34%N] ++ quote_body s ++ [34%N].

Definition bracket (open close indent : jsstring) (parts : list jsstring)
  : jsstring :=
  match parts with
  | [] => open ++ close
  | _ =>
    let stepback := [10%N] ++ indent in
    let separator := js "," ++ stepback ++ js "  " in
    open ++ stepback ++ js "  " ++ join separator parts ++ stepback ++ close
  end.

Fixpoint stringify (indent : jsstring) (v : json) : jsstring :=
  match v with
  | JNull => js "null"
  | JString s => quote s
  | JArray items =>
    bracket (js "[") (js "]") indent
            (map (λ x, stringify (indent ++ js "  ") x) items)
  | JObject _ props =>
    bracket (js "{") (js "}") indent
            (map (λ kv, quote (fst kv) ++ js ": "
                        ++ stringify (indent ++ js "  ") (snd kv)) props)
  end.

(** [JSON.stringify(value, null, 2)] *)
Definition JSON_stringify (v : json) : jsstring := stringify [] v.

(** *** Nested JSON *)

Fixpoint createNestedObject (fuel : nat) (h : heap) (item : addr) : outcome json :=
  match fuel with
  | O => Timeout
  | S f =>
    nd ← deref h item;
    match children nd with
    | [] =>
      if includes (name nd) (js "dir") then Ok (to_object empty_object)
      else Ok JNull
    | _ =>
      result ← for_each (λ child result,
                  cnd ← deref h child;
                  v ← createNestedObject f h child;
                  Ok (set_property result (name cnd) v))
                (children nd) empty_object;
      Ok (to_object result)
    end
  end.

(** The object [rootObj] that [formatNestedJson] prints. *)
Definition nestedJsonObject (h : heap) (structure : option addr) : outcome json :=
  match structure with
  | None => Throw structure_required
  | Some root =>
    nd ← deref h root;
    v ← createNestedObject (length h) h root;
    Ok (to_object (set_property empty_object (name nd) v))
  end.

Definition formatNestedJson (h : heap) (structure : option addr)
  : outcome jsstring :=
  rootObj ← nestedJsonObject h structure;
  Ok (JSON_stringify rootObj).

(** *** Array JSON *)

Fixpoint createObjectWithChildren (fuel : nat) (h : heap) (item : addr)
  : outcome json :=
  match fuel with
  | O => Timeout
  | S f =>
    nd ← deref h item;
    let result :=
      [(js "name", JString (if str_eqb (name nd) (js ".") then js "root" else name nd));
       (js "type", JString (if 0 <? length (children nd)
                            then js "directory" else js "file"))] in
    if 0 <? length (children nd)
    then
      cs ← for_each (λ child acc,
               v ← createObjectWithChildren f h child; Ok (acc ++ [v]))
             (children nd) [];
      Ok (JObject true (result ++ [(js "children", JArray cs)]))
    else Ok (JObject true result)
  end.

Definition formatArrayJson (h : heap) (structure : option addr)
  : outcome jsstring :=
  match structure with
  | None => Throw structure_required
  | Some root =>
    v ← createObjectWithChildren (length h) h root;
    Ok (JSON_stringify v)
  end.

(** *** Flat JSON *)

(** The arrays [files] and [directories] hold the paths of their entries. *)
Fixpoint processItem_flat (fuel : nat) (h : heap) (item : addr)
    (acc : list jsstring * list jsstring)
  : outcome (list jsstring * list jsstring) :=
  match fuel with
  | O => Timeout
  | S f =>
    nd ← deref h item;
    acc ← (if str_eqb (name nd) (js ".") then Ok acc
           else
             path ← getFullPath h item;
             if 0 <? length (children nd)
             then Ok (fst acc, snd acc ++ [path])
             else Ok (fst acc ++ [path], snd acc));
    for_each (processItem_flat f h) (children nd) acc
  end.

(** The arrays [files] and [directories] after [processItem(structure)]. *)
Definition flatJson_collect (h : heap) (root : addr)
  : outcome (list jsstring * list jsstring) :=
  processItem_flat (length h) h root ([], []).

Definition formatFlatJson (h : heap) (structure : option addr)
  : outcome jsstring :=
  match structure with
  | None => Throw structure_required
  | Some root =>
    '(files, directories) ← flatJson_collect h root;
    Ok (JSON_stringify
          (JObject true
             [(js "files",
               JArray (map (λ p, JObject true [(js "path", JString p);
                                               (js "type", JString (js "file"))])
                           files));
              (js "directories",
               JArray (map (λ p, JObject true [(js "path", JString p)])
                           directories))]))
  end.

(** *** YAML *)

Definition spaces (indent : nat) : jsstring := repeat 32%N indent.

Fixpoint jsonToYaml (v : json) (indent : nat) : jsstring :=
  let entry := λ (k : jsstring) (value : json),
    match value with
    | JNull => spaces indent ++ k ++ js ": null" ++ [10%N]
    | JString _ => []
    | _ => spaces indent ++ k ++ js ":" ++ [10%N] ++ jsonToYaml value (indent + 2)
    end in
  match v with
  | JObject _ props => concat (map (λ kv, entry (fst kv) (snd kv)) props)
  | JArray items =>
    (fix go (i : nat) (l : list json) : jsstring :=
       match l with
       | [] => []
       | x :: l' => entry (nat_to_js i) x ++ go (S i) l'
       end) 0 items
  | _ => []
  end.

(** [JSON.parse(JSON.stringify(rootObj))] is a copy of [rootObj], which is
    made of objects and null; the value under its first key moves under the
    key [root].  Without a first key, [rootObj['root']] is undefined and
    [jsonToYaml] skips it. *)
Definition formatYaml (h : heap) (structure : option addr) : outcome jsstring :=
  match structure with
  | None => Throw structure_required
  | Some _ =>
    obj ← nestedJsonObject h structure;
    match obj with
    | JObject _ ((_, v) :: _) => Ok (jsonToYaml (JObject true [(js "root", v)]) 0)
    | _ => Ok []
    end
  end.

(** *** XML *)

Fixpoint escape_xml_char (c : N) (by_ : jsstring) (s : jsstring) : jsstring :=
  match s with
  | [] => []
  | d :: s' => (if (d =? c)%N then by_ else [d]) ++ escape_xml_char c by_ s'
  end.

Definition escape_xml (s : jsstring) : jsstring :=
  escape_xml_char 39 (js "&apos;")
    (escape_xml_char 34 (js "&quot;")
       (escape_xml_char 62 (js "&gt;")
          (escape_xml_char 60 (js "&lt;")
             (escape_xml_char 38 (js "&amp;") s)))).

Fixpoint createXmlElement (fuel : nat) (h : heap) (item : addr) (indent : nat)
  : outcome jsstring :=
  match fuel with
  | O => Timeout
  | S f =>
    nd ← deref h item;
    let nm := if str_eqb (name nd) (js ".") then js "root" else name nd in
    let escapedName := escape_xml nm in
    match children nd with
    | [] => Ok (spaces indent ++ js "<file name=" ++ [34%N] ++ escapedName
                ++ [34%N] ++ js " />" ++ [10%N])
    | _ =>
      let result := spaces indent ++ js "<directory name=" ++ [34%N] ++ escapedName
                    ++ [34%N] ++ js ">" ++ [10%N] in
      result ← for_each (λ child result,
                  x ← createXmlElement f h child (indent + 2);
                  Ok (result ++ x))
                (children nd) result;
      Ok (result ++ spaces indent ++ js "</directory>" ++ [10%N])
    end
  end.

Definition formatXml (h : heap) (structure : option addr) : outcome jsstring :=
  match structure with
  | None => Throw structure_required
  | Some root =>
    x ← createXmlElement (length h) h root 0;
    Ok (js "<?xml version=" ++ [34%N] ++ js "1.0" ++ [34%N] ++ js " encoding="
        ++ [34%N] ++ js "UTF-8" ++ [34%N] ++ js "?>" ++ [10%N] ++ x)
  end.

(** *** Dot-path list *)

Fixpoint str_leb (s t : jsstring) : bool :=
  match s, t with
  | [], _ => true
  | _ :: _, [] => false
  | c :: s', d :: t' => (c <? d)%N || (c =? d)%N && str_leb s' t'
  end.

Fixpoint insert_sorted (x : jsstring) (l : list jsstring) : list jsstring :=
  match l with
  | [] => [x]
  | y :: l' => if str_leb x y then x :: l else y :: insert_sorted x l'
  end.

(** [paths.sort()]: the default comparison orders strings by their code
    units.  That order is total and antisymmetric, so the sorted array is
    fixed by its elements, whatever the algorithm. *)
Definition Array_sort (l : list jsstring) : list jsstring :=
  foldr insert_sorted [] l.

Fixpoint processItem_dot (fuel : nat) (h : heap) (item : addr)
    (paths : list jsstring) : outcome (list jsstring) :=
  match fuel with
  | O => Timeout
  | S f =>
    nd ← deref h item;
    paths ← (if str_eqb (name nd) (js ".") then Ok paths
             else path ← getFullPath h item; Ok (paths ++ [path]));
    for_each (processItem_dot f h) (children nd) paths
  end.

(** The array [paths] after [processItem(structure)], before it is sorted. *)
Definition dot_collect (h : heap) (root : addr) : outcome (list jsstring) :=
  processItem_dot (length h) h root [].

(** The sorted array that [formatDot] joins. *)
Definition formatDot_paths (h : heap) (structure : option addr)
  : outcome (list jsstring) :=
  match structure with
  | None => Throw structure_required
  | Some root => paths ← dot_collect h root; Ok (Array_sort paths)
  end.

Definition formatDot (h : heap) (structure : option addr) : outcome jsstring :=
  paths ← formatDot_paths h structure;
  Ok (join [10%N] paths).

(** *** Markdown list *)

Fixpoint createMarkdownList (fuel : nat) (h : heap) (item : addr) (indent : nat)
  : outcome jsstring :=
  match fuel with
  | O => Timeout
  | S f =>
    nd ← deref h item;
    if str_eqb (name nd) (js ".")
    then
      parts ← for_each (λ child acc,
                 x ← createMarkdownList f h child indent; Ok (acc ++ [x]))
               (children nd) [];
      Ok (join [] parts)
    else
      let suffix := if 0 <? length (children nd) then js "/" else [] in
      let result := spaces indent ++ js "* " ++ name nd ++ suffix ++ [10%N] in
      for_each (λ child result,
          x ← createMarkdownList f h child (indent + 2); Ok (result ++ x))
        (children nd) result
  end.

Definition formatMarkdown (h : heap) (structure : option addr)
  : outcome jsstring :=
  match structure with
  | None => Throw structure_required
  | Some root => createMarkdownList (length h) h root 0
  end.

(** *** The dispatcher *)

Definition with_charset (options : GenerateTreeOptions) (c : jsstring)
  : GenerateTreeOptions :=
  mkOptions (Some c) (trailingDirSlash options) (fullPath options)
            (rootDot options).

(** The nine values of [FormatType]. *)
Definition format_ids : list jsstring :=
  [js "ascii"; js "utf-8"; js "json-nested"; js "json-array"; js "json-flat";
   js "yaml"; js "xml"; js "dot"; js "markdown"].

(** [options] is [{}] when the caller leaves it out. *)
Definition formatTree (h : heap) (structure : option addr) (format : jsstring)
    (options : option GenerateTreeOptions) : outcome jsstring :=
  match structure with
  | None => Throw structure_required
  | Some _ =>
    let options := default no_options options in
    if str_eqb format (js "ascii")
    then generateTree h structure (Some (with_charset options (js "ascii")))
    else if str_eqb format (js "utf-8")
    then generateTree h structure (Some (with_charset options (js "utf-8")))
    else if str_eqb format (js "json-nested") then formatNestedJson h structure
    else if str_eqb format (js "json-array") then formatArrayJson h structure
    else if str_eqb format (js "json-flat") then formatFlatJson h structure
    else if str_eqb format (js "yaml") then formatYaml h structure
    else if str_eqb format (js "xml") then formatXml h structure
    else if str_eqb format (js "dot") then formatDot h structure
    else if str_eqb format (js "markdown") then formatMarkdown h structure
    else generateTree h structure (Some options)
  end.

(** ** The index page *)

(** [s.trim()]: the string without its leading and trailing whitespace and
    line terminators, the characters of the class [\s]. *)
Definition trim (s : jsstring) : jsstring := rev (skip_ws (rev (skip_ws s))).

(** [try { body } catch (error) { handler }] *)
Definition try_catch {A : Type} (body : outcome A) (handler : exn → outcome A)
  : outcome A :=
  match body with
  | Throw e => handler e
  | _ => body
  end.

(** The script of the index page ([unnamed/part_001] among the sources). *)
Module Index.

(** [TreeOptions] of [useTreeGenerator.ts] *)
Record TreeOptions := mkTreeOptions {
  format : jsstring;
  fullPath : bool;
  trailingSlash : bool;
  rootDot : bool;
}.

(** [TreeTab] of [useTreeTabs.ts] *)
Record TreeTab := mkTreeTab {
  id : jsstring;
  name : jsstring;
  source : jsstring;
  options : TreeOptions;
}.

(** The computed value [tree] for the value of [activeTab]; the call of
    [console.error] in the handler is left out. *)
Definition tree (activeTab : option TreeTab) : outcome jsstring :=
  match activeTab with
  | None => Ok []
  | Some tab =>
    match trim (source tab) with
    | [] => Ok []
    | _ =>
      try_catch
        ('(h, structure) ← parseInput (source tab);
         formatTree h (Some structure) (format (options tab))
           (Some (mkOptions None (Some (trailingSlash (options tab)))
                            (Some (fullPath (options tab)))
                            (Some (rootDot (options tab))))))
        (λ _, Ok (js "Error parsing input"))
    end
  end.

End Index.

(** * Trees in the store *)

(** The shape of a tree: the address of a node and the shapes of its
    children, in the order of its [children] array. *)
Inductive shape :=
| Sh (a : addr) (kids : list shape).

Definition addr_of (t : shape) : addr :=
  match t with
  | Sh a _ => a
  end.

(** The nodes of a tree, parents before children, siblings in order. *)
Fixpoint preorder (t : shape) : list addr :=
  match t with
  | Sh a kids => a :: concat (map preorder kids)
  end.

(** The number of nodes, the root included. *)
Definition node_count (t : shape) : nat := length (preorder t).

(** [models h p t]: the store [h] holds the tree [t] below the parent [p]:
    each node's [children] array lists the roots of its subtrees and each
    node's [parent] is the node above it ([None] above the root). *)
Fixpoint models (h : heap) (p : option addr) (t : shape) : bool :=
  match t with
  | Sh a kids =>
    match h !! a with
    | Some nd =>
      bool_decide (parent nd = p)
      && bool_decide (children nd = map addr_of kids)
      && forallb (models h (Some a)) kids
    | None => false
    end
  end.

(** [tree h root t]: [t] is a tree of [h] rooted at [root], and no node
    occurs in it twice. *)
Definition tree (h : heap) (root : addr) (t : shape) : Prop :=
  models h None t = true ∧ addr_of t = root ∧ NoDup (preorder t).

(** The rightmost branch, from the root to its leaf. *)
Fixpoint spine (t : shape) : list addr :=
  match t with
  | Sh a kids =>
    a :: (fix go (ks : list shape) : list addr :=
            match ks with
            | [] => []
            | [k] => spine k
            | _ :: ks' => go ks'
            end) kids
  end.

Fixpoint map_last {A : Type} (f : A → A) (l : list A) : list A :=
  match l with
  | [] => []
  | [x] => [f x]
  | x :: l' => x :: map_last f l'
  end.

(** A new leaf [c] as the last child of the node at depth [depth] on the
    rightmost branch. *)
Fixpoint graft (depth : nat) (c : addr) (t : shape) {struct depth} : shape :=
  match t with
  | Sh a kids =>
    match depth with
    | O => Sh a (kids ++ [Sh c []])
    | S d => Sh a (map_last (graft d c) kids)
    end
  end.

Definition node_name (h : heap) (a : addr) : jsstring :=
  match h !! a with
  | Some nd => name nd
  | None => []
  end.

Definition node_children (h : heap) (a : addr) : list addr :=
  match h !! a with
  | Some nd => children nd
  | None => []
  end.

Definition is_dot (h : heap) (a : addr) : bool := str_eqb (node_name h a) (js ".").

(** The part of a chain that [collect_path] walks: up to the first node
    named [.], that node excluded. *)
Fixpoint upto_dot (h : heap) (chain : list addr) : list addr :=
  match chain with
  | [] => []
  | a :: chain' => if is_dot h a then [] else a :: upto_dot h chain'
  end.

(** The slash-joined names of a list of nodes given from the innermost to
    the outermost. *)
Definition path_of (h : heap) (nodes : list addr) : jsstring :=
  join (js "/") (rev (map (node_name h) nodes)).

(** [climbs h x anc]: the [parent] links from [x] run through [anc] and end
    there. *)
Fixpoint climbs (h : heap) (x : addr) (anc : list addr) : Prop :=
  match anc with
  | [] => ∃ nd, h !! x = Some nd ∧ parent nd = None
  | p :: anc' => (∃ nd, h !! x = Some nd ∧ parent nd = Some p) ∧ climbs h p anc'
  end.

(** [below h d x]: [x] is reached from [d] by one or more steps from a node
    to one of its children. *)
Inductive below (h : heap) (d : addr) : addr → Prop :=
| below_child nd c :
    h !! d = Some nd → c ∈ children nd → below h d c
| below_step x nd c :
    below h d x → h !! x = Some nd → c ∈ children nd → below h d c.

(** The lines that [splitInput] keeps. *)
Definition kept_lines (input : jsstring) : list jsstring :=
  filter (λ l, onlyWhitespace l = false) (newlineSplitter input []).

(** What the loop of [generateTree] does to [lines] at one node. *)
Definition emit (h : heap) (options : GenerateTreeOptions) (x : addr)
    (lines : list jsstring) : outcome (list jsstring) :=
  line ← getAsciiLine h x options;
  Ok (match line with
      | Some l => lines ++ [l]
      | None => lines
      end).

(** The number of nodes of a list of trees. *)
Definition forest_size (ts : list shape) : nat :=
  length (concat (map preorder ts)).

(** [obj[k] = v] for a key [k] other than [__proto__]: the own properties
    afterwards. *)
Definition assign (props : list (jsstring * json)) (k : jsstring) (v : json)
  : list (jsstring * json) :=
  if has_property props k then update_property props k v
  else add_property props k v.

(** [obj[k]] for an own property. *)
Fixpoint get_property (props : list (jsstring * json)) (k : jsstring)
  : option json :=
  match props with
  | [] => None
  | (k', v) :: ps => if str_eqb k' k then Some v else get_property ps k
  end.

(** The nested JSON value of a tree, as the spec words it: null for a node
    without children, or the empty object when its name contains [dir]; for
    a node with children the object that has, under the name of each child,
    the value of that child (of the last one, when children share a name). *)
Fixpoint nested_value (h : heap) (t : shape) : json :=
  match t with
  | Sh a kids =>
    match kids with
    | [] =>
      if includes (node_name h a) (js "dir") then JObject true [] else JNull
    | _ =>
      JObject true
        (fold_left (λ props k,
                      assign props (node_name h (addr_of k)) (nested_value h k))
                   kids [])
    end
  end.

(** A string without a line feed, and the number of line feeds of a
    string: the output of [generateTree] has one line more than it has line
    feeds. *)
Definition lf_free (s : jsstring) : Prop := Forall (λ c, c ≠ 10%N) s.

Definition lf_count (s : jsstring) : nat :=
  length (filter (λ c, c = 10%N) s).


(** No name in the store has a line feed. *)
Definition names_lf_free (h : heap) : Prop :=
  ∀ a nd, h !! a = Some nd → lf_free (name nd).

(** The order of [paths.sort()]. *)
Definition str_le (s t : jsstring) : Prop := str_leb s t = true.

(** What [processItem] of [formatDot] does at one node. *)
Definition visit_dot (h : heap) (item : addr) (nd : FileStructure)
    (paths : list jsstring) : outcome (list jsstring) :=
  if str_eqb (name nd) (js ".") then Ok paths
  else path ← getFullPath h item; Ok (paths ++ [path]).

(** What [processItem] of [formatFlatJson] does at one node. *)
Definition visit_flat (h : heap) (item : addr) (nd : FileStructure)
    (acc : list jsstring * list jsstring)
  : outcome (list jsstring * list jsstring) :=
  if str_eqb (name nd) (js ".") then Ok acc
  else
    path ← getFullPath h item;
    if 0 <? length (children nd)
    then Ok (fst acc, snd acc ++ [path])
    else Ok (fst acc ++ [path], snd acc).

(** The nodes whose paths [formatDot] collects. *)
Definition listed (h : heap) (x : addr) : Prop := is_dot h x = false.

(** The nodes that [formatFlatJson] lists as files and as directories. *)
Definition listed_file (h : heap) (x : addr) : Prop :=
  is_dot h x = false ∧ node_children h x = [].

Definition listed_directory (h : heap) (x : addr) : Prop :=
  is_dot h x = false ∧ node_children h x ≠ [].

Global Instance listed_dec (h : heap) (x : addr) : Decision (listed h x).
Proof. unfold listed. apply _. Defined.

Global Instance listed_file_dec (h : heap) (x : addr) :
  Decision (listed_file h x).
Proof. unfold listed_file. apply _. Defined.

Global Instance listed_directory_dec (h : heap) (x : addr) :
  Decision (listed_directory h x).
Proof. unfold listed_directory. apply _. Defined.

(** What [splitInput] returns for a line. *)
Definition fresh_item (s : FileStructure) : Prop :=
  (0 ≤ indentCount s)%Z ∧ children s = [] ∧ parent s = None.

(** The state of the loop of [parseInput] after the items at the addresses
    [1 .. k]. *)
Record parse_inv (structures : list FileStructure) (k : nat)
    (h : heap) (path : list addr) (t : shape) : Prop := mk_parse_inv {
  inv_length : length h = S (length structures);
  inv_static : ∀ a nd0, initial_heap structures !! a = Some nd0 →
      ∃ nd, h !! a = Some nd ∧ name nd = name nd0
            ∧ indentCount nd = indentCount nd0;
  inv_fresh : ∀ a, k < a → h !! a = initial_heap structures !! a;
  inv_models : models h None t = true;
  inv_preorder : preorder t = seq 0 (S k);
  inv_path : path = rev (spine t);
}.

(** ** Specifications of the further properties *)

(** [rest] starts with a bullet: a dash and one whitespace character. *)
Definition has_bullet (rest : jsstring) : bool :=
  match rest with
  | 45%N :: c :: _ => is_ws c
  | _ => false
  end.

(** What [splitInput] makes of a line: the line is its leading whitespace,
    then a bullet if there is one, then the name. *)
Definition item_of_line (line : jsstring) (s : FileStructure) : Prop :=
  ∃ bullet,
    line = leading_ws line ++ bullet ++ name s
    ∧ bullet = (if has_bullet (drop (length (leading_ws line)) line)
                then take 2 (drop (length (leading_ws line)) line) else [])
    ∧ indentCount s = Z.of_nat (length (leading_ws line))
    ∧ children s = [] ∧ parent s = None.

(** The indent and the parent of the node at an address. *)
Definition node_indent (h : heap) (a : addr) : Z :=
  match h !! a with
  | Some nd => indentCount nd
  | None => 0
  end.

Definition node_parent (h : heap) (a : addr) : option addr :=
  match h !! a with
  | Some nd => parent nd
  | None => None
  end.

(** [p] is the nearest node before [a] with a smaller indent: the nodes
    between them are indented at least as much as [a]. *)
Definition nearest_shallower (h : heap) (a p : addr) : Prop :=
  p < a ∧ (node_indent h p < node_indent h a)%Z
  ∧ ∀ j, p < j < a → (node_indent h a ≤ node_indent h j)%Z.

(** Each node of the ancestor stack, from the top down, has below it on
    the stack its nearest shallower node. *)
Fixpoint chain (h : heap) (path : list addr) : Prop :=
  match path with
  | x :: rest =>
    match rest with
    | y :: _ => nearest_shallower h x y ∧ chain h rest
    | [] => True
    end
  | [] => True
  end.

(** The ancestor stack and the parents after the items [1 .. k]. *)
Record stack_inv (k : nat) (h : heap) (path : list addr) : Prop := mk_stack_inv {
  stack_top : head path = Some k;
  stack_chain : chain h path;
  stack_parents : ∀ a, 1 ≤ a ≤ k →
    ∃ p, node_parent h a = Some p ∧ nearest_shallower h a p;
}.

(** The first item that is indented more than 2 deeper than the item before
    it; [prev] is the indent of the item before the first one. *)
Fixpoint first_jump (prev : Z) (structures : list FileStructure)
  : option FileStructure :=
  match structures with
  | [] => None
  | s :: rest =>
    if jump_too_big (indentCount s) prev then Some s
    else first_jump (indentCount s) rest
  end.

(** [x] is the last element of the [children] of its parent. *)
Definition is_last (h : heap) (x : addr) : bool :=
  match node_parent h x with
  | Some p =>
    match last (node_children h p) with
    | Some c => c =? x
    | None => false
    end
  | None => false
  end.

(** The guide columns of a line: one for each node of [chain] but the last
    (the root), the outermost first: blank when that node is the last child
    of its parent, a vertical line otherwise. *)
Fixpoint guides (h : heap) (lines : LineStringSet) (chain : list addr)
  : list jsstring :=
  match chain with
  | [] => []
  | a :: rest =>
    match rest with
    | [] => []
    | _ => guides h lines rest
           ++ [if is_last h a then EMPTY lines else DIRECTORY lines]
    end
  end.

(** [{ ...options, rootDot: b }] *)
Definition with_rootDot (options : GenerateTreeOptions) (b : bool)
  : GenerateTreeOptions :=
  mkOptions (charset options) (trailingDirSlash options) (fullPath options)
            (Some b).

(** The nodes that get a line. *)
Definition shown (options : GenerateTreeOptions) (t : shape) : list addr :=
  if truthy (rootDot options) then preorder t else tail (preorder t).

(** The value that [formatArrayJson] prints, by the shape of the tree. *)
Fixpoint array_value (h : heap) (t : shape) : json :=
  match t with
  | Sh a kids =>
    let nm := if is_dot h a then js "root" else node_name h a in
    match kids with
    | [] =>
      JObject true [(js "name", JString nm); (js "type", JString (js "file"))]
    | _ =>
      JObject true [(js "name", JString nm);
                    (js "type", JString (js "directory"));
                    (js "children", JArray (map (array_value h) kids))]
    end
  end.

(** The element that [formatXml] prints for a tree. *)
Fixpoint xml_element (h : heap) (t : shape) (indent : nat) : jsstring :=
  match t with
  | Sh a kids =>
    let nm := escape_xml (if is_dot h a then js "root" else node_name h a) in
    match kids with
    | [] => spaces indent ++ js "<file name=" ++ [34%N] ++ nm ++ [34%N]
            ++ js " />" ++ [10%N]
    | _ => spaces indent ++ js "<directory name=" ++ [34%N] ++ nm ++ [34%N]
           ++ js ">" ++ [10%N]
           ++ concat (map (λ k, xml_element h k (indent + 2)) kids)
           ++ spaces indent ++ js "</directory>" ++ [10%N]
    end
  end.

(** The list that [formatMarkdown] prints for a tree. *)
Fixpoint markdown_list (h : heap) (t : shape) (indent : nat) : jsstring :=
  match t with
  | Sh a kids =>
    if is_dot h a
    then concat (map (λ k, markdown_list h k indent) kids)
    else spaces indent ++ js "* " ++ node_name h a
         ++ (match kids with [] => [] | _ => js "/" end) ++ [10%N]
         ++ concat (map (λ k, markdown_list h k (indent + 2)) kids)
  end.

(** The value that [createNestedObject] builds, by the shape of the tree. *)
Fixpoint nested_json (h : heap) (t : shape) : json :=
  match t with
  | Sh a kids =>
    match kids with
    | [] =>
      if includes (node_name h a) (js "dir") then to_object empty_object
      else JNull
    | _ =>
      to_object
        (fold_left (λ obj k,
                      set_property obj (node_name h (addr_of k)) (nested_json h k))
                   kids empty_object)
    end
  end.

(** The entity of a character. *)
Definition xml_entity (c : N) : jsstring :=
  if (c =? 38)%N then js "&amp;"
  else if (c =? 60)%N then js "&lt;"
  else if (c =? 62)%N then js "&gt;"
  else if (c =? 34)%N then js "&quot;"
  else if (c =? 39)%N then js "&apos;"
  else [c].

(** A node with children. *)
Definition has_children (h : heap) (x : addr) : Prop := node_children h x ≠ [].

Global Instance has_children_dec (h : heap) (x : addr) :
  Decision (has_children h x).
Proof. unfold has_children. apply _. Defined.

(** The path of a node, or the empty string where [getFullPath] has no
    result. *)
Definition full_path (h : heap) (x : addr) : jsstring :=
  match getFullPath h x with
  | Ok p => p
  | _ => []
  end.

(** The value that [formatFlatJson] prints. *)
Definition flat_value (files directories : list jsstring) : json :=
  JObject true
    [(js "files",
      JArray (map (λ p, JObject true [(js "path", JString p);
                                      (js "type", JString (js "file"))])
                  files));
     (js "directories",
      JArray (map (λ p, JObject true [(js "path", JString p)]) directories))].

(** The nested value of a tree whose sibling names are distinct and are
    neither array indices nor [__proto__]: the keys of an object are the
    names of the children in document order. *)
Fixpoint ordered_value (h : heap) (t : shape) : json :=
  match t with
  | Sh a kids =>
    match kids with
    | [] =>
      if includes (node_name h a) (js "dir") then JObject true [] else JNull
    | _ =>
      JObject true
        (map (λ k, (node_name h (addr_of k), ordered_value h k)) kids)
    end
  end.


(** The last of the children [kids] that is named [k]. *)
Definition last_named (h : heap) (k : jsstring) (kids : list shape)
  : option shape :=
  last (filter (λ kid, node_name h (addr_of kid) = k) kids).

(** * The reference scenario *)

Definition scenario_input : jsstring := js "app
  src
    index.js
  package.json".

Definition scenario_output : jsstring := js ".
└── app
    ├── src
    │   └── index.js
    └── package.json".

(** The tree of [scenario_input]. *)
Definition scenario_heap : heap :=
  [mkFS (js ".") [1] (-1) None; mkFS (js "app") [2; 4] 0 (Some 0);
   mkFS (js "src") [3] 2 (Some 1); mkFS (js "index.js") [] 4 (Some 2);
   mkFS (js "package.json") [] 2 (Some 1)].

(** The tree of the three-line input [a], [  .], [    b]: a node named [.]
    below the root, with a child. *)
Definition dotted_heap : heap :=
  [mkFS (js ".") [1] (-1) None; mkFS (js "a") [2] 0 (Some 0);
   mkFS (js ".") [3] 2 (Some 1); mkFS (js "b") [] 4 (Some 2)].

Definition dotted_shape : shape := Sh 0 [Sh 1 [Sh 2 [Sh 3 []]]].



(** The tree of the one-line input [.]: an item named [.] below the root. *)
Definition dot_item_heap : heap :=
  [mkFS (js ".") [1] (-1) None; mkFS (js ".") [] 0 (Some 0)].

(** The tree of the two-line input [a], [  b]. *)
Definition small_heap : heap :=
  [mkFS (js ".") [1] (-1) None; mkFS (js "a") [2] 0 (Some 0);
   mkFS (js "b") [] 2 (Some 1)].

(** The tree of the three-line input [a], [  __proto__], [  b]. *)
Definition proto_heap : heap :=
  [mkFS (js ".") [1] (-1) None; mkFS (js "a") [2; 3] 0 (Some 0);
   mkFS (js "__proto__") [] 2 (Some 1); mkFS (js "b") [] 2 (Some 1)].

(** The tree of [scenario_input]. *)
Definition scenario_shape : shape := Sh 0 [Sh 1 [Sh 2 [Sh 3 []]; Sh 4 []]].

(** The value that [formatArrayJson] prints for the tree of
    [scenario_input]. *)
Definition scenario_array : json :=
  let file := λ nm, JObject true [(js "name", JString nm);
                                  (js "type", JString (js "file"))] in
  let directory := λ nm kids, JObject true [(js "name", JString nm);
                                            (js "type", JString (js "directory"));
                                            (js "children", JArray kids)] in
  directory (js "root")
    [directory (js "app")
       [directory (js "src") [file (js "index.js")]; file (js "package.json")]].

(** * Lemmas and theorems *)

(** ** The outcome monad *)

Lemma bind_Ok {A B : Type} (m : outcome A) (f : A → outcome B) (r : B) :
  m ≫= f = Ok r → ∃ a, m = Ok a ∧ f a = Ok r.
Proof. destruct m; simpl; intros H; try discriminate. eauto. Qed.

Lemma deref_Ok (h : heap) (a : addr) (nd : FileStructure) :
  deref h a = Ok nd ↔ h !! a = Some nd.
Proof.
  unfold deref. destruct (h !! a); split; intros H; congruence.
Qed.

Lemma deref_lookup (h : heap) (a : addr) (nd : FileStructure) :
  h !! a = Some nd → deref h a = Ok nd.
Proof. apply deref_Ok. Qed.

(** Reads a node that is known to be in the store and runs the bind on it. *)
Ltac read_node H :=
  rewrite (deref_lookup _ _ _ H); cbn [mbind outcome_bind].

(** Closed goals: each conjunct is an equation settled by evaluation. *)
Ltac by_eval := split_and?; (vm_compute; reflexivity).

(** ** Strings *)

Lemma str_eqb_eq (s t : jsstring) : str_eqb s t = true ↔ s = t.
Proof.
  revert t. induction s as [|c s IH]; intros [|d t]; simpl; try easy.
  rewrite andb_true_iff, N.eqb_eq, IH. split; [intros [-> ->]|intros [= -> ->]]; auto.
Qed.

Lemma str_eqb_refl (s : jsstring) : str_eqb s s = true.
Proof. by apply str_eqb_eq. Qed.

Lemma str_eqb_neq (s t : jsstring) : str_eqb s t = false ↔ s ≠ t.
Proof.
  rewrite <- str_eqb_eq. destruct (str_eqb s t); split; congruence.
Qed.

(** ** splitInput *)

Lemma split_line_fresh (index : nat) (line : jsstring) (s : FileStructure) :
  split_line index line = Ok s → fresh_item s.
Proof.
  unfold split_line. destruct (leadingWhitespaceAndBullet line) as [[g1 g2]|];
    intros [= <-]. unfold fresh_item; simpl. split; [lia|done].
Qed.

Lemma map_lines_fresh (lines : list jsstring) :
  ∀ index ss, map_lines index lines = Ok ss → Forall fresh_item ss.
Proof.
  induction lines as [|l ls IH]; simpl; intros index ss H.
  - injection H as <-. constructor.
  - apply bind_Ok in H as (s & Hs & H). apply bind_Ok in H as (ss' & Hss & H).
    injection H as <-. constructor; eauto using split_line_fresh.
Qed.

Lemma splitInput_fresh (input : jsstring) (structures : list FileStructure) :
  splitInput input = Ok structures → Forall fresh_item structures.
Proof.
  unfold splitInput.
  destruct (filter _ _) eqn:E.
  - intros [= <-]. constructor.
  - apply map_lines_fresh.
Qed.

Lemma filter_blank (lines : list jsstring) :
  Forall (λ l, onlyWhitespace l = true) lines →
  filter (λ l, onlyWhitespace l = false) lines = [].
Proof.
  induction 1 as [|l ls Hl _ IH]; [done|].
  rewrite filter_cons. destruct (decide _) as [E|_]; [congruence|done].
Qed.

(** ** splitInput never throws *)

Lemma leadingWhitespaceAndBullet_total (line : jsstring) :
  ∃ g1, leadingWhitespaceAndBullet line = Some (g1, leading_ws line).
Proof.
  unfold leadingWhitespaceAndBullet.
  destruct (drop _ line) as [|c [|d rest]]; eauto.
  - destruct c as [|p]; eauto. repeat (destruct p as [p|p|]; eauto).
  - destruct c as [|p]; eauto.
    repeat (destruct p as [p|p|]; eauto); destruct (is_ws d); eauto.
Qed.

Lemma split_line_total (index : nat) (line : jsstring) :
  ∃ s, split_line index line = Ok s
       ∧ indentCount s = Z.of_nat (length (leading_ws line)).
Proof.
  unfold split_line.
  destruct (leadingWhitespaceAndBullet_total line) as [g1 ->]. eauto.
Qed.

Lemma map_lines_total (lines : list jsstring) :
  ∀ index, ∃ ss,
    map_lines index lines = Ok ss
    ∧ Forall2 (λ line s, indentCount s = Z.of_nat (length (leading_ws line)))
              lines ss.
Proof.
  induction lines as [|l ls IH]; intros index; simpl.
  - exists []. split; [done|constructor].
  - destruct (split_line_total index l) as (s & -> & Hs).
    destruct (IH (S index)) as (ss & -> & Hss).
    exists (s :: ss). split; [done|by constructor].
Qed.

Lemma splitInput_total (input : jsstring) :
  ∃ structures,
    splitInput input = Ok structures
    ∧ Forall2 (λ line s, indentCount s = Z.of_nat (length (leading_ws line)))
              (kept_lines input) structures.
Proof.
  unfold splitInput, kept_lines.
  destruct (map_lines_total (filter (λ l, onlyWhitespace l = false)
                                    (newlineSplitter input [])) 0)
    as (ss & Hss & Hall).
  destruct (filter _ _) eqn:E.
  - exists []. split; [done|constructor].
  - eauto.
Qed.

Lemma build_app (l1 l2 : list addr) :
  ∀ st, build (l1 ++ l2) st = build l1 st ≫= build l2.
Proof.
  induction l1 as [|s l1 IH]; intros st; [done|].
  cbn [build app]. destruct (attach st s); try done. apply IH.
Qed.

Lemma parseInput_unfold (input : jsstring) (structures : list FileStructure) :
  input ≠ [] → splitInput input = Ok structures →
  parseInput input =
  build (seq 1 (length structures)) (initial_heap structures, [0])
  ≫= λ st, Ok (st.1, 0).
Proof.
  intros Hne Hsplit. unfold parseInput. destruct input; [done|].
  rewrite Hsplit. cbn [mbind outcome_bind].
  destruct (build _ _) as [[h path]| | |]; done.
Qed.

(** ** Shapes *)

Lemma shape_ind' (P : shape → Prop) :
  (∀ a kids, Forall P kids → P (Sh a kids)) → ∀ t, P t.
Proof.
  intros step. fix IH 1. intros [a kids]. apply step.
  induction kids as [|k kids IHkids]; constructor; [apply IH|apply IHkids].
Qed.

Lemma forallb_Forall {A : Type} (f : A → bool) (l : list A) :
  forallb f l = true ↔ Forall (λ x, f x = true) l.
Proof.
  induction l as [|x l IH]; simpl.
  - split; [constructor|done].
  - rewrite andb_true_iff, Forall_cons, IH. done.
Qed.

Lemma models_unfold (h : heap) (p : option addr) (a : addr) (kids : list shape) :
  models h p (Sh a kids) = true ↔
  ∃ nd, h !! a = Some nd ∧ parent nd = p ∧ children nd = map addr_of kids
        ∧ Forall (λ k, models h (Some a) k = true) kids.
Proof.
  simpl. destruct (h !! a) as [nd|].
  - rewrite !andb_true_iff, !bool_decide_eq_true, forallb_Forall.
    split.
    + intros [[? ?] ?]. eauto.
    + intros (? & [= <-] & ? & ? & ?). auto.
  - split; [discriminate|]. intros (? & ? & _). discriminate.
Qed.

Lemma preorder_head (t : shape) : ∃ l, preorder t = addr_of t :: l.
Proof. destruct t. simpl. eauto. Qed.

Lemma addr_of_in_preorder (t : shape) : addr_of t ∈ preorder t.
Proof. destruct t. simpl. left. Qed.

Lemma elem_of_preorder_kids (x : addr) (kids : list shape) :
  x ∈ concat (map preorder kids) ↔ ∃ k, k ∈ kids ∧ x ∈ preorder k.
Proof.
  induction kids as [|k kids IH]; simpl.
  - split; [intros H; inversion H|intros (k & Hk & _); inversion Hk].
  - rewrite elem_of_app, IH. split.
    + intros [Hx|(k' & Hk' & Hx)]; [exists k|exists k']; split; try done.
      * left.
      * by right.
    + intros (k' & Hk' & Hx). apply elem_of_cons in Hk' as [->|Hk']; eauto.
Qed.

(** A store that agrees with [h] on the nodes of a tree holds that tree. *)
Lemma models_frame (h h' : heap) (t : shape) :
  ∀ p, models h p t = true →
       (∀ x, x ∈ preorder t → h' !! x = h !! x) →
       models h' p t = true.
Proof.
  induction t as [a kids IH] using shape_ind'. intros p Hm Hsame.
  apply models_unfold in Hm as (nd & Ha & Hp & Hc & Hkids).
  apply models_unfold. exists nd. repeat split; try done.
  - rewrite Hsame; [done|]. simpl. left.
  - rewrite Forall_forall in IH, Hkids |- *. intros k Hk.
    apply IH; [done|by apply Hkids|].
    intros x Hx. apply Hsame. simpl. right.
    apply elem_of_preorder_kids. eauto.
Qed.

Lemma models_lookup (h : heap) (t : shape) :
  ∀ p x, models h p t = true → x ∈ preorder t → is_Some (h !! x).
Proof.
  induction t as [a kids IH] using shape_ind'. intros p x Hm Hx.
  apply models_unfold in Hm as (nd & Ha & Hp & Hc & Hkids).
  simpl in Hx. apply elem_of_cons in Hx as [->|Hx]; [eauto|].
  apply elem_of_preorder_kids in Hx as (k & Hk & Hx).
  rewrite Forall_forall in IH, Hkids. eapply IH; eauto.
Qed.

(** *** The rightmost branch *)

Lemma spine_leaf (a : addr) : spine (Sh a []) = [a].
Proof. reflexivity. Qed.

Lemma spine_snoc (a : addr) (init : list shape) (k : shape) :
  spine (Sh a (init ++ [k])) = a :: spine k.
Proof.
  simpl. f_equal. induction init as [|k' init IH]; [done|].
  simpl. destruct (init ++ [k]) eqn:E; [by destruct init|]. exact IH.
Qed.

Lemma spine_head (t : shape) : ∃ l, spine t = addr_of t :: l.
Proof. destruct t. simpl. eauto. Qed.

Lemma map_last_snoc {A : Type} (f : A → A) (init : list A) (x : A) :
  map_last f (init ++ [x]) = init ++ [f x].
Proof.
  induction init as [|y init IH]; [done|].
  simpl. destruct (init ++ [x]) eqn:E; [by destruct init|].
  by rewrite IH.
Qed.

Lemma snoc_cases {A : Type} (l : list A) : l = [] ∨ ∃ init x, l = init ++ [x].
Proof.
  destruct l as [|y l] using rev_ind; [by left|right; eauto].
Qed.

Lemma spine_lookup_S (a : addr) (kids : list shape) (j : nat) (q : addr) :
  spine (Sh a kids) !! S j = Some q →
  ∃ init k, kids = init ++ [k] ∧ spine k !! j = Some q.
Proof.
  destruct (snoc_cases kids) as [->|(init & k & ->)].
  - discriminate.
  - rewrite spine_snoc. simpl. eauto.
Qed.

Lemma spine_in_preorder (t : shape) :
  ∀ x, x ∈ spine t → x ∈ preorder t.
Proof.
  induction t as [a kids IH] using shape_ind'. intros x Hx.
  destruct (snoc_cases kids) as [->|(init & k & ->)].
  - exact Hx.
  - rewrite spine_snoc in Hx. simpl.
    apply elem_of_cons in Hx as [->|Hx]; [left|right].
    apply elem_of_preorder_kids. exists k. split; [apply elem_of_app; right; by apply list_elem_of_singleton|].
    rewrite Forall_app, Forall_singleton in IH. by apply IH.
Qed.

Lemma addr_of_graft (j : nat) (c : addr) (t : shape) :
  addr_of (graft j c t) = addr_of t.
Proof. destruct j, t; reflexivity. Qed.

Lemma preorder_graft (c : addr) :
  ∀ j t q, spine t !! j = Some q → preorder (graft j c t) = preorder t ++ [c].
Proof.
  induction j as [|j IH]; intros [a kids] q Hq.
  - simpl. rewrite map_app, concat_app. simpl. by rewrite ?app_nil_r.
  - apply spine_lookup_S in Hq as (init & k & -> & Hq).
    simpl graft. rewrite map_last_snoc. simpl.
    rewrite !map_app, !concat_app. simpl. rewrite (IH _ _ Hq), ?app_nil_r.
    by rewrite app_assoc.
Qed.

Lemma spine_graft (c : addr) :
  ∀ j t q, spine t !! j = Some q →
           spine (graft j c t) = take (S j) (spine t) ++ [c].
Proof.
  induction j as [|j IH]; intros [a kids] q Hq.
  - simpl graft. rewrite spine_snoc. by destruct (spine_head (Sh a kids)) as [l ->].
  - apply spine_lookup_S in Hq as (init & k & -> & Hq).
    simpl graft. rewrite map_last_snoc, !spine_snoc.
    rewrite (IH _ _ Hq). reflexivity.
Qed.

(** ** The loop of parseInput *)

Lemma lookup_attach_other (h : heap) (c q x : addr) :
  x ≠ c → x ≠ q →
  alter (set_parent q) c (alter (push_child c) q h) !! x = h !! x.
Proof. intros Hc Hq. by rewrite !list_lookup_alter_ne. Qed.

Lemma lookup_attach_parent (h : heap) (c q : addr) (nd : FileStructure) :
  q ≠ c → h !! q = Some nd →
  alter (set_parent q) c (alter (push_child c) q h) !! q = Some (push_child c nd).
Proof.
  intros Hne Hq. rewrite list_lookup_alter_ne, list_lookup_alter_eq, Hq; done.
Qed.

Lemma lookup_attach_child (h : heap) (c q : addr) (nd : FileStructure) :
  q ≠ c → h !! c = Some nd →
  alter (set_parent q) c (alter (push_child c) q h) !! c = Some (set_parent q nd).
Proof.
  intros Hne Hc. rewrite list_lookup_alter_eq, list_lookup_alter_ne, Hc; done.
Qed.

(** Hanging a fresh node [c] under a node of the rightmost branch, as
    [parent.children.push(s); s.parent = parent] does, gives the grafted
    tree. *)
Lemma models_graft (h : heap) (c : addr) (cnd : FileStructure) :
  h !! c = Some cnd → children cnd = [] →
  ∀ j t p0 q,
    models h p0 t = true → NoDup (preorder t) → c ∉ preorder t →
    spine t !! j = Some q →
    models (alter (set_parent q) c (alter (push_child c) q h)) p0 (graft j c t)
    = true.
Proof.
  intros Hc Hcc. induction j as [|j IH]; intros [a kids] p0 q Hm Hnd Hfresh Hq.
  - simpl in Hq. injection Hq as <-.
    apply models_unfold in Hm as (nd & Ha & Hp & Hch & Hkids).
    simpl in Hnd, Hfresh. apply NoDup_cons in Hnd as [Ha_notin Hnd].
    apply not_elem_of_cons in Hfresh as [Hca Hfresh].
    simpl graft. apply models_unfold. exists (push_child c nd).
    split; [by apply lookup_attach_parent|].
    split; [done|]. split.
    { simpl. rewrite Hch, map_app. done. }
    apply Forall_app. split.
    + rewrite Forall_forall in Hkids |- *. intros k Hk.
      eapply models_frame; [by apply Hkids|].
      intros x Hx. apply lookup_attach_other.
      * intros ->. apply Hfresh, elem_of_preorder_kids. eauto.
      * intros ->. apply Ha_notin, elem_of_preorder_kids. eauto.
    + rewrite Forall_singleton. apply models_unfold. exists (set_parent a cnd).
      split; [by apply lookup_attach_child|]. simpl. rewrite Hcc. done.
  - apply spine_lookup_S in Hq as (init & k & -> & Hq).
    apply models_unfold in Hm as (nd & Ha & Hp & Hch & Hkids).
    simpl in Hnd, Hfresh. apply NoDup_cons in Hnd as [Ha_notin Hnd].
    apply not_elem_of_cons in Hfresh as [Hca Hfresh].
    rewrite map_app, concat_app in Hnd, Hfresh, Ha_notin. simpl in Hnd, Hfresh, Ha_notin.
    rewrite app_nil_r in Hnd, Hfresh, Ha_notin.
    apply NoDup_app in Hnd as (Hnd_init & Hdisj & Hnd_k).
    assert (Hqk : q ∈ preorder k).
    { apply spine_in_preorder. eapply list_elem_of_lookup_2, Hq. }
    simpl graft. rewrite map_last_snoc. apply models_unfold. exists nd.
    split.
    { rewrite lookup_attach_other; [done|congruence|].
      intros ->. apply Ha_notin, elem_of_app. by right. }
    split; [done|]. split.
    { rewrite Hch, !map_app. simpl. by rewrite addr_of_graft. }
    rewrite Forall_app, Forall_singleton in Hkids. destruct Hkids as [Hinit Hk].
    apply Forall_app. split.
    + rewrite Forall_forall in Hinit |- *. intros k' Hk'.
      eapply models_frame; [by apply Hinit|].
      intros x Hx. assert (x ∈ concat (map preorder init)) as Hxi.
      { apply elem_of_preorder_kids. eauto. }
      apply lookup_attach_other.
      * intros ->. apply Hfresh, elem_of_app. by left.
      * intros ->. by apply (Hdisj q).
    + rewrite Forall_singleton. eapply IH; try done.
      intros Hin. apply Hfresh, elem_of_app. by right.
Qed.

Lemma pop_path_drop (h : heap) (indent : Z) :
  ∀ path, Forall (λ a, is_Some (h !! a)) path →
  ∃ i, pop_path h path indent = Ok (drop i path)
       ∧ (∀ a nd, a ∈ take i path → h !! a = Some nd → (indent ≤ indentCount nd)%Z)
       ∧ (∀ a nd, head (drop i path) = Some a → h !! a = Some nd →
                  (indentCount nd < indent)%Z).
Proof.
  induction path as [|top rest IH]; intros Hvalid.
  - exists 0. simpl. split; [done|]. split; [intros a nd H; inversion H|done].
  - apply Forall_cons in Hvalid as [[nd Htop] Hrest]. simpl.
    rewrite (deref_lookup _ _ _ Htop). simpl.
    destruct (indent <=? indentCount nd)%Z eqn:E.
    + destruct (IH Hrest) as (i & Hpop & Hle & Hlt). exists (S i). simpl.
      split; [done|]. split; [|done].
      intros a nd' Ha Hnd'. apply elem_of_cons in Ha as [->|Ha]; [|eauto].
      assert (nd' = nd) as -> by congruence. lia.
    + exists 0. simpl. split; [done|]. split; [intros a nd' H; inversion H|].
      intros a nd' [= <-] Hnd'. assert (nd' = nd) as -> by congruence. lia.
Qed.

Lemma seq_split (pre post : list nat) (s : nat) :
  ∀ a n, seq a n = pre ++ s :: post →
         pre = seq a (length pre) ∧ s = a + length pre ∧ length pre < n.
Proof.
  induction pre as [|x pre IH]; intros a [|n] H; simpl in *; try discriminate.
  - injection H as <- _. split; [done|]. lia.
  - injection H as <- H. destruct (IH _ _ H) as (Hpre & -> & Hlt).
    rewrite <- Hpre. split; [done|]. lia.
Qed.

Lemma inv_root_addr {structures k h path t} :
  parse_inv structures k h path t → addr_of t = 0.
Proof.
  intros [_ _ _ _ Hpre _]. destruct (preorder_head t) as [l Hl].
  rewrite Hl in Hpre. simpl in Hpre. congruence.
Qed.

Lemma inv_init (structures : list FileStructure) :
  parse_inv structures 0 (initial_heap structures) [0] (Sh 0 []).
Proof.
  split; try done.
  intros a nd0 H. eauto.
Qed.

Lemma alter_static (f : FileStructure → FileStructure) (h : heap) (i a : addr)
    (nd : FileStructure) :
  (∀ x, name (f x) = name x ∧ indentCount (f x) = indentCount x) →
  h !! a = Some nd →
  ∃ nd', alter f i h !! a = Some nd' ∧ name nd' = name nd
         ∧ indentCount nd' = indentCount nd.
Proof.
  intros Hf Ha. rewrite list_lookup_alter. destruct (decide (i = a)) as [->|].
  - rewrite Ha. simpl. exists (f nd). split; [done|]. apply Hf.
  - eauto.
Qed.

Lemma head_rev_take {A : Type} (l : list A) (j : nat) (q : A) :
  l !! j = Some q → ∃ rest, rev (take (S j) l) = q :: rest.
Proof.
  intros Hq. rewrite (take_S_r _ _ _ Hq), rev_app_distr. simpl. eauto.
Qed.

Lemma drop_rev_spine {A : Type} (l : list A) (i : nat) (p : A) (rest : list A) :
  drop i (rev l) = p :: rest →
  ∃ j, l !! j = Some p ∧ drop i (rev l) = rev (take (S j) l).
Proof.
  intros H. rewrite skipn_rev in H |- *.
  destruct (length l - i) as [|j] eqn:E.
  - rewrite take_0 in H. discriminate.
  - exists j. split; [|done].
    assert (j < length l) as Hj by lia.
    apply lookup_lt_is_Some in Hj as [q Hq].
    destruct (head_rev_take l j q Hq) as [rest' Hrest].
    rewrite Hrest in H. congruence.
Qed.

(** One iteration of the loop from a state that satisfies the invariant. *)
Lemma attach_inv (structures : list FileStructure) (k : nat) (h : heap)
    (path : list addr) (t : shape) :
  Forall fresh_item structures →
  parse_inv structures k h path t →
  k < length structures →
  ∃ top tnd item p rest,
    head path = Some top ∧ h !! top = Some tnd
    ∧ h !! S k = Some item ∧ structures !! k = Some item
    ∧ pop_path h path (indentCount item) = Ok (p :: rest)
    ∧ last (p :: rest) = Some 0
    ∧ (jump_too_big (indentCount item) (indentCount tnd) = true →
       attach (h, path) (S k) = Throw (badIndentation (name item)))
    ∧ (jump_too_big (indentCount item) (indentCount tnd) = false →
       ∃ h' t', attach (h, path) (S k) = Ok (h', S k :: p :: rest)
                ∧ parse_inv structures (S k) h' (S k :: p :: rest) t').
Proof.
  intros Hfresh Hinv Hk.
  pose proof (inv_root_addr Hinv) as Hroot.
  destruct Hinv as [Hlen Hstatic Hnew Hm Hpre Hpath].
  (* the item *)
  destruct (lookup_lt_is_Some_2 structures k Hk) as [item Hitem].
  assert (h !! S k = Some item) as Hs.
  { rewrite Hnew by lia. exact Hitem. }
  rewrite Forall_forall in Hfresh.
  destruct (Hfresh item) as (Hind & Hkids & Hpar).
  { eapply list_elem_of_lookup_2, Hitem. }
  (* the stack *)
  assert (Forall (λ a, is_Some (h !! a)) path) as Hvalid.
  { subst path. rewrite Forall_forall. intros a Ha.
    eapply models_lookup; [exact Hm|]. apply spine_in_preorder.
    apply list_elem_of_In, in_rev, list_elem_of_In in Ha. exact Ha. }
  destruct (spine_head t) as [sp Hsp]. rewrite Hroot in Hsp.
  destruct (Hstatic 0 root_node eq_refl) as (rnd & Hr & _ & Hrind).
  simpl in Hrind.
  destruct (pop_path_drop h (indentCount item) path Hvalid)
    as (i & Hpop & Hpopped & _).
  destruct (drop i path) as [|p rest] eqn:Hdrop.
  { exfalso. assert (0 ∈ take i path) as H0.
    { rewrite <- (take_drop i path), Hdrop, app_nil_r in Hpath.
      rewrite Hpath, Hsp. apply list_elem_of_In, in_rev. rewrite rev_involutive.
      left. done. }
    specialize (Hpopped 0 rnd H0 Hr). lia. }
  destruct path as [|top path0] eqn:Epath.
  { by rewrite drop_nil in Hdrop. }
  assert (is_Some (h !! top)) as [tnd Htop].
  { by apply Forall_cons in Hvalid as [? _]. }
  exists top, tnd, item, p, rest.
  split; [done|]. split; [done|]. split; [done|]. split; [done|].
  split; [done|].
  split.
  { assert (last (top :: path0) = Some 0) as Hlast.
    { rewrite Hpath, Hsp. simpl. apply last_snoc. }
    rewrite <- (take_drop i (top :: path0)), Hdrop, last_app_cons in Hlast.
    exact Hlast. }
  unfold attach. rewrite (deref_lookup _ _ _ Htop), (deref_lookup _ _ _ Hs).
  cbn [mbind outcome_bind]. rewrite Hpop. cbn [mbind outcome_bind]. split.
  { intros ->. reflexivity. }
  intros ->.
  rewrite Hpath in Hdrop.
  destruct (drop_rev_spine _ _ _ _ Hdrop) as (j & Hj & Hrev).
  rewrite Hdrop in Hrev.
  assert (Hp_in : p ∈ preorder t).
  { apply spine_in_preorder. eapply list_elem_of_lookup_2, Hj. }
  assert (Hp_le : p ≠ S k).
  { rewrite Hpre in Hp_in. apply elem_of_seq in Hp_in. lia. }
  assert (Hs_notin : S k ∉ preorder t).
  { rewrite Hpre. rewrite elem_of_seq. lia. }
  eexists _, (graft j (S k) t). split; [reflexivity|].
  split.
  - by rewrite !length_alter.
  - intros a nd0 Ha. destruct (Hstatic a nd0 Ha) as (nd & Hnd & Hn & Hi).
    destruct (alter_static (push_child (S k)) h p a nd) as (nd1 & H1 & Hn1 & Hi1);
      [done|done|].
    destruct (alter_static (set_parent p) _ (S k) a nd1 (λ _, conj eq_refl eq_refl) H1)
      as (nd2 & H2 & Hn2 & Hi2).
    exists nd2. split; [done|]. split; congruence.
  - intros a Ha. rewrite lookup_attach_other; [apply Hnew; lia|lia|].
    intros ->. rewrite Hpre in Hp_in. apply elem_of_seq in Hp_in. lia.
  - eapply models_graft; try done. rewrite Hpre. apply NoDup_seq.
  - rewrite (preorder_graft _ _ _ _ Hj), Hpre. by rewrite (seq_S (S k) 0).
  - rewrite (spine_graft _ _ _ _ Hj), rev_app_distr. simpl. by rewrite Hrev.
Qed.

Lemma build_inv (structures : list FileStructure) :
  Forall fresh_item structures →
  ∀ m k h path t st,
    parse_inv structures k h path t →
    k + m ≤ length structures →
    build (seq (S k) m) (h, path) = Ok st →
    ∃ t', parse_inv structures (k + m) st.1 st.2 t'.
Proof.
  intros Hfresh. induction m as [|m IH]; intros k h path t st Hinv Hle Hb.
  - simpl in Hb. injection Hb as <-. rewrite Nat.add_0_r. eauto.
  - change (seq (S k) (S m)) with (S k :: seq (S (S k)) m) in Hb.
    cbn [build] in Hb. apply bind_Ok in Hb as ([h' path'] & Hat & Hb).
    destruct (attach_inv structures k h path t Hfresh Hinv) as
      (top & tnd & item & p & rest & _ & _ & _ & _ & _ & _ & Hbad & Hgood); [lia|].
    destruct (jump_too_big (indentCount item) (indentCount tnd)).
    + rewrite Hbad in Hat by done. discriminate.
    + destruct (Hgood eq_refl) as (h2 & t2 & Hat2 & Hinv2).
      rewrite Hat2 in Hat. injection Hat as <- <-.
      replace (k + S m) with (S k + m) by lia.
      eapply IH; [exact Hinv2|lia|exact Hb].
Qed.

(** Every state the loop reaches satisfies the invariant. *)
Lemma reached_inv (structures : list FileStructure) (pre post : list addr)
    (s : addr) (st : heap * list addr) :
  Forall fresh_item structures →
  seq 1 (length structures) = pre ++ s :: post →
  build pre (initial_heap structures, [0]) = Ok st →
  s = S (length pre) ∧ length pre < length structures
  ∧ ∃ t, parse_inv structures (length pre) st.1 st.2 t.
Proof.
  intros Hfresh Hseq Hb. apply seq_split in Hseq as (Hpre & -> & Hlt).
  split; [done|]. split; [done|].
  rewrite Hpre in Hb.
  destruct (build_inv structures Hfresh _ _ _ _ _ st (inv_init structures)
              (Nat.lt_le_incl _ _ Hlt) Hb) as [t Ht].
  eauto.
Qed.

(** ** The reference scenario *)

(** C1: on the four-line input app / src / index.js / package.json,
    [parseInput] succeeds and [generateTree] on the root it returns, with the
    default options (utf-8, root dot, no trailing slash, no full path), gives
    exactly the five lines of the scenario, joined by single newlines, with
    no newline at the end. *)
Theorem C1_scenario_utf8 :
  ∃ h root,
    parseInput scenario_input = Ok (h, root)
    ∧ generateTree h (Some root) None = Ok scenario_output
    ∧ generateTree h (Some root) (Some defaultOptions) = Ok scenario_output
    ∧ scenario_output
      = join [10%N] [js "."; js "└── app"; js "    ├── src";
                     js "    │   └── index.js"; js "    └── package.json"].
Proof.
  exists scenario_heap, 0. by_eval.
Qed.

(** ** The tests of the repository, evaluated on the model *)

Example utf16_line_drawing :
  js "├└│─" = [9500; 9492; 9474; 9472]%N.
Proof. reflexivity. Qed.

(** parse-input.test.ts, [should handle markdown bullet points] *)
Example splitInput_bullets :
  splitInput (js "- app
  - src
    - index.js")
  = Ok [mkFS (js "app") [] 0 None; mkFS (js "src") [] 2 None;
        mkFS (js "index.js") [] 4 None].
Proof. by_eval. Qed.

(** parse-input.test.ts, [should filter out empty lines] *)
Example splitInput_blank_lines :
  splitInput (js "app

  src
    
    index.js")
  = Ok [mkFS (js "app") [] 0 None; mkFS (js "src") [] 2 None;
        mkFS (js "index.js") [] 4 None].
Proof. by_eval. Qed.

(** parse-input.test.ts, [should parse a basic tree structure] *)
Example parseInput_scenario :
  parseInput scenario_input
  = Ok ([mkFS (js ".") [1] (-1) None; mkFS (js "app") [2; 4] 0 (Some 0);
         mkFS (js "src") [3] 2 (Some 1); mkFS (js "index.js") [] 4 (Some 2);
         mkFS (js "package.json") [] 2 (Some 1)], 0).
Proof. by_eval. Qed.

(** generate-tree.test.ts, [should generate a tree with ascii charset when
    specified] *)
Example generateTree_ascii :
  generateTree scenario_heap (Some 0)
    (Some (mkOptions (Some (js "ascii")) None None None))
  = Ok (js ".
`-- app
    |-- src
    |   `-- index.js
    `-- package.json").
Proof. by_eval. Qed.

(** generate-tree.test.ts, [should generate a tree without root dot when
    specified] *)
Example generateTree_no_root_dot :
  generateTree scenario_heap (Some 0)
    (Some (mkOptions None None None (Some false)))
  = Ok (js "app
├── src
│   └── index.js
└── package.json").
Proof. by_eval. Qed.

(** generate-tree.test.ts, [should append trailing slashes to directories
    when specified] *)
Example generateTree_trailing_slash :
  generateTree scenario_heap (Some 0)
    (Some (mkOptions None (Some true) None None))
  = Ok (js ".
└── app/
    ├── src/
    │   └── index.js
    └── package.json").
Proof. by_eval. Qed.

(** generate-tree.test.ts, [should print full paths when specified] *)
Example generateTree_full_path :
  generateTree scenario_heap (Some 0)
    (Some (mkOptions None None (Some true) None))
  = Ok (js ".
└── app
    ├── app/src
    │   └── app/src/index.js
    └── app/package.json").
Proof. by_eval. Qed.

(** generate-tree.test.ts, [should handle options combination] *)
Example generateTree_combination :
  generateTree scenario_heap (Some 0)
    (Some (mkOptions (Some (js "ascii")) (Some true) None (Some false)))
  = Ok (js "app/
|-- src/
|   `-- index.js
`-- package.json").
Proof. by_eval. Qed.

(** generate-tree.test.ts, [should throw an error for unknown charset] and
    [should throw an error if structure is missing] *)
Example generateTree_throws :
  generateTree scenario_heap (Some 0)
    (Some (mkOptions (Some (js "invalid")) None None None))
  = Throw (Error (js "Unknown charset: invalid"))
  ∧ generateTree scenario_heap None None
    = Throw (Error (js "Structure is required")).
Proof. by_eval. Qed.

(** The test of [formatNestedJson], [should handle files and directories
    correctly] *)
Example formatNestedJson_empty_dir :
  ∃ h, parseInput (js "app
  file.txt
  empty-dir") = Ok (h, 0)
       ∧ nestedJsonObject h (Some 0)
         = Ok (JObject true
                 [(js ".", JObject true
                     [(js "app", JObject true
                         [(js "file.txt", JNull);
                          (js "empty-dir", JObject true [])])])]).
Proof.
  eexists. split.
  - by_eval.
  - by_eval.
Qed.

(** The scenario of the spec for XML: the names are escaped. *)
Example formatXml_escapes :
  ∃ h, parseInput (js "app
  file&.txt
  <special>.js") = Ok (h, 0)
       ∧ formatXml h (Some 0)
         = Ok (js "<?xml version=" ++ [34%N] ++ js "1.0" ++ [34%N]
               ++ js " encoding=" ++ [34%N] ++ js "UTF-8" ++ [34%N] ++ js "?>
<directory name=" ++ [34%N] ++ js "root" ++ [34%N] ++ js ">
  <directory name=" ++ [34%N] ++ js "app" ++ [34%N] ++ js ">
    <file name=" ++ [34%N] ++ js "file&amp;.txt" ++ [34%N] ++ js " />
    <file name=" ++ [34%N] ++ js "&lt;special&gt;.js" ++ [34%N] ++ js " />
  </directory>
</directory>
").
Proof.
  eexists. split.
  - by_eval.
  - by_eval.
Qed.

(** The tests of [formatTree]: the formats, and the fallback. *)
Example formatTree_formats :
  formatTree scenario_heap (Some 0) (js "markdown") None
  = Ok (js "* app/
  * src/
    * index.js
  * package.json
")
  ∧ formatTree scenario_heap (Some 0) (js "dot") None
    = Ok (js "app
app/package.json
app/src
app/src/index.js")
  ∧ formatTree scenario_heap (Some 0) (js "ascii")
      (Some (mkOptions None None None (Some false)))
    = Ok (js "app
|-- src
|   `-- index.js
`-- package.json")
  ∧ formatTree scenario_heap (Some 0) (js "unknown-format") None
    = Ok scenario_output
  ∧ formatTree scenario_heap None (js "utf-8") None
    = Throw (Error (js "Structure is required")).
Proof. by_eval. Qed.

(** ** Empty and blank input *)

(** C8: [parseInput] on the empty string throws the input-required error;
    on a non-empty string whose lines are all whitespace it returns a root
    without children. *)
Theorem C8_empty_and_blank_input :
  parseInput [] = Throw (Error (js "Input must be a non-empty string"))
  ∧ ∀ input,
      input ≠ [] →
      Forall (λ l, onlyWhitespace l = true) (newlineSplitter input []) →
      parseInput input = Ok ([root_node], 0) ∧ children root_node = [].
Proof.
  split; [reflexivity|]. intros input Hne Hblank. split; [|reflexivity].
  unfold parseInput, splitInput. rewrite (filter_blank _ Hblank).
  destruct input; done.
Qed.

Lemma C8_blank_witness :
  js "  
	 

 " ≠ []
  ∧ Forall (λ l, onlyWhitespace l = true) (newlineSplitter (js "  
	 

 ") [])
  ∧ parseInput (js "  
	 

 ") = Ok ([root_node], 0).
Proof.
  split; [discriminate|]. split; [vm_compute; repeat constructor|].
  apply (proj2 C8_empty_and_blank_input); [discriminate|].
  vm_compute; repeat constructor.
Defined.

(** ** The ancestor stack *)

(** C9: whenever the loop of [parseInput] reaches an item, the item's indent
    is the length of its leading whitespace, so at least 0, the root at the
    bottom of the stack has indent -1, and the pop loop leaves a stack that
    is not empty and still ends in the root: the throw under
    [path.length === 0] is never reached. *)
Theorem C9_stack_never_empty (input : jsstring) (structures : list FileStructure)
    (pre post : list addr) (s : addr) (h : heap) (path : list addr) :
  splitInput input = Ok structures →
  seq 1 (length structures) = pre ++ s :: post →
  build pre (initial_heap structures, [0]) = Ok (h, path) →
  ∃ line item rnd p rest,
    kept_lines input !! length pre = Some line
    ∧ h !! s = Some item
    ∧ indentCount item = Z.of_nat (length (leading_ws line))
    ∧ h !! 0 = Some rnd ∧ indentCount rnd = (-1)%Z
    ∧ pop_path h path (indentCount item) = Ok (p :: rest)
    ∧ last (p :: rest) = Some 0.
Proof.
  intros Hsplit Hseq Hb.
  pose proof (splitInput_fresh _ _ Hsplit) as Hfresh.
  destruct (reached_inv _ _ _ _ _ Hfresh Hseq Hb) as (-> & Hlt & t & Hinv).
  simpl in Hinv.
  destruct (attach_inv _ _ _ _ _ Hfresh Hinv Hlt)
    as (top & tnd & item & p & rest & _ & _ & Hs & Hitem & Hpop & Hlast & _).
  destruct (inv_static _ _ _ _ _ Hinv 0 root_node eq_refl) as (rnd & Hr & _ & Hri).
  destruct (splitInput_total input) as (ss & Hss & Hall).
  assert (ss = structures) as -> by congruence.
  destruct (Forall2_lookup_r _ _ _ _ _ Hall Hitem) as (line & Hline & Hind).
  exists line, item, rnd, p, rest. done.
Qed.

Lemma C9_witness :
  ∃ line item rnd p rest,
    kept_lines scenario_input !! 3 = Some line
    ∧ ([mkFS (js ".") [1] (-1) None; mkFS (js "app") [2] 0 (Some 0);
        mkFS (js "src") [3] 2 (Some 1); mkFS (js "index.js") [] 4 (Some 2);
        mkFS (js "package.json") [] 2 None] : heap) !! 4 = Some item
    ∧ indentCount item = Z.of_nat (length (leading_ws line))
    ∧ ([mkFS (js ".") [1] (-1) None; mkFS (js "app") [2] 0 (Some 0);
        mkFS (js "src") [3] 2 (Some 1); mkFS (js "index.js") [] 4 (Some 2);
        mkFS (js "package.json") [] 2 None] : heap) !! 0 = Some rnd
    ∧ indentCount rnd = (-1)%Z
    ∧ pop_path [mkFS (js ".") [1] (-1) None; mkFS (js "app") [2] 0 (Some 0);
                mkFS (js "src") [3] 2 (Some 1); mkFS (js "index.js") [] 4 (Some 2);
                mkFS (js "package.json") [] 2 None]
               [3; 2; 1; 0] (indentCount item) = Ok (p :: rest)
    ∧ last (p :: rest) = Some 0.
Proof.
  apply (C9_stack_never_empty scenario_input
           [mkFS (js "app") [] 0 None; mkFS (js "src") [] 2 None;
            mkFS (js "index.js") [] 4 None; mkFS (js "package.json") [] 2 None]
           [1; 2; 3] [] 4); vm_compute; reflexivity.
Defined.

(** ** The indentation jump *)

(** C2: when the loop of [parseInput] reaches an item whose indent exceeds
    the indent of the top of the stack by more than 2 while that top is not
    the root sentinel (indent -1), [parseInput] throws the bad-indentation
    error with the name of that item; an item that does not meet this
    condition is attached and raises nothing. *)
Theorem C2_bad_indentation (input : jsstring) (structures : list FileStructure)
    (pre post : list addr) (s : addr) (h : heap) (path : list addr) :
  splitInput input = Ok structures →
  seq 1 (length structures) = pre ++ s :: post →
  build pre (initial_heap structures, [0]) = Ok (h, path) →
  ∃ top tnd item,
    head path = Some top ∧ h !! top = Some tnd
    ∧ h !! s = Some item ∧ structures !! length pre = Some item
    ∧ ((indentCount tnd + 2 < indentCount item)%Z ∧ indentCount tnd ≠ (-1)%Z →
       parseInput input
       = Throw (Error (js "Bad indentation found at item: " ++ name item)))
    ∧ (¬ ((indentCount tnd + 2 < indentCount item)%Z
          ∧ indentCount tnd ≠ (-1)%Z) →
       ∃ st', attach (h, path) s = Ok st').
Proof.
  intros Hsplit Hseq Hb.
  assert (input ≠ []) as Hne.
  { intros ->. injection Hsplit as <-. by destruct pre. }
  pose proof (splitInput_fresh _ _ Hsplit) as Hfresh.
  destruct (reached_inv _ _ _ _ _ Hfresh Hseq Hb) as (-> & Hlt & t & Hinv).
  simpl in Hinv.
  destruct (attach_inv _ _ _ _ _ Hfresh Hinv Hlt)
    as (top & tnd & item & p & rest & Htop & Htnd & Hs & Hitem & _ & _
        & Hbad & Hgood).
  exists top, tnd, item. repeat (split; [done|]).
  unfold jump_too_big in Hbad, Hgood. split.
  - intros [Hjump Hnot_root].
    rewrite (parseInput_unfold _ _ Hne Hsplit), Hseq, build_app, Hb.
    cbn [mbind outcome_bind build]. rewrite Hbad; [done|].
    apply andb_true_iff. split; [lia|]. apply negb_true_iff. lia.
  - intros Hno. destruct Hgood as (h' & t' & Hat & _); [|eauto].
    apply not_true_iff_false. rewrite andb_true_iff, negb_true_iff.
    intros [H1 H2]. apply Hno. split; lia.
Qed.

Lemma C2_witness :
  splitInput (js "a
     b") = Ok [mkFS (js "a") [] 0 None; mkFS (js "b") [] 5 None]
  ∧ build [1] (initial_heap [mkFS (js "a") [] 0 None; mkFS (js "b") [] 5 None], [0])
    = Ok ([mkFS (js ".") [1] (-1) None; mkFS (js "a") [] 0 (Some 0);
           mkFS (js "b") [] 5 None], [1; 0])
  ∧ parseInput (js "a
     b") = Throw (Error (js "Bad indentation found at item: b")).
Proof.
  split; [by_eval|]. split; [by_eval|].
  destruct (C2_bad_indentation (js "a
     b") [mkFS (js "a") [] 0 None; mkFS (js "b") [] 5 None] [1] [] 2
     [mkFS (js ".") [1] (-1) None; mkFS (js "a") [] 0 (Some 0);
      mkFS (js "b") [] 5 None] [1; 0])
    as (top & tnd & item & Htop & Htnd & Hs & _ & Hbad & _);
    [by_eval|by_eval|by_eval|].
  injection Htop as <-. injection Htnd as <-. injection Hs as <-.
  apply Hbad. split; [reflexivity|discriminate].
Defined.

(** ** Trees in the store: parents and children *)

Lemma models_root (h : heap) (p : option addr) (t : shape) :
  models h p t = true →
  ∃ nd, h !! addr_of t = Some nd ∧ parent nd = p
        ∧ children nd = map addr_of (match t with Sh _ kids => kids end).
Proof.
  destruct t as [a kids]. intros (nd & ? & ? & ? & _)%models_unfold. eauto.
Qed.

(** A node other than the root has its parent in the tree, is listed among
    that parent's children and points back to it. *)
Lemma models_parent (h : heap) (t : shape) :
  ∀ p x, models h p t = true → x ∈ preorder t → x ≠ addr_of t →
    ∃ q qnd nd, q ∈ preorder t ∧ h !! q = Some qnd ∧ x ∈ children qnd
                ∧ h !! x = Some nd ∧ parent nd = Some q.
Proof.
  induction t as [a kids IH] using shape_ind'. intros p x Hm Hx Hne.
  apply models_unfold in Hm as (nd & Ha & Hp & Hc & Hkids).
  simpl in Hx, Hne. apply elem_of_cons in Hx as [->|Hx]; [done|].
  apply elem_of_preorder_kids in Hx as (k & Hk & Hx).
  rewrite Forall_forall in IH, Hkids.
  destruct (decide (x = addr_of k)) as [->|Hxk].
  - destruct (models_root _ _ _ (Hkids k Hk)) as (knd & Hknd & Hkp & _).
    exists a, nd, knd. split; [left|]. split; [done|]. split; [|done].
    rewrite Hc. apply list_elem_of_In, in_map, list_elem_of_In, Hk.
  - destruct (IH k Hk _ _ (Hkids k Hk) Hx Hxk) as (q & qnd & xnd & Hq & ?).
    exists q, qnd, xnd. split; [|done]. simpl. right.
    apply elem_of_preorder_kids. eauto.
Qed.

Lemma addrs_sublist_preorder (kids : list shape) :
  map addr_of kids `sublist_of` concat (map preorder kids).
Proof.
  induction kids as [|k kids IH]; simpl; [constructor|].
  destruct (preorder_head k) as [l ->]. simpl.
  constructor. by apply sublist_inserts_l.
Qed.

Lemma preorder_kid_sublist (k : shape) (kids : list shape) :
  k ∈ kids → preorder k `sublist_of` concat (map preorder kids).
Proof.
  induction kids as [|k' kids IH]; intros Hk; [inversion Hk|].
  simpl. apply elem_of_cons in Hk as [->|Hk].
  - by apply sublist_inserts_r.
  - by apply sublist_inserts_l, IH.
Qed.

(** The children of a node of the tree are in the tree, in their order. *)
Lemma children_sublist (h : heap) (t : shape) :
  ∀ p q qnd, models h p t = true → q ∈ preorder t → h !! q = Some qnd →
    children qnd `sublist_of` preorder t.
Proof.
  induction t as [a kids IH] using shape_ind'. intros p q qnd Hm Hq Hqnd.
  apply models_unfold in Hm as (nd & Ha & Hp & Hc & Hkids).
  simpl in Hq |- *. destruct (decide (q = a)) as [->|Hqa].
  - assert (qnd = nd) as -> by congruence. rewrite Hc.
    apply sublist_cons, addrs_sublist_preorder.
  - apply elem_of_cons in Hq as [->|Hq]; [done|].
    apply elem_of_preorder_kids in Hq as (k & Hk & Hq).
    rewrite Forall_forall in IH, Hkids.
    apply sublist_cons. etrans; [|by apply preorder_kid_sublist].
    eapply IH; eauto.
Qed.

(** A child of a node of the tree points back to that node. *)
Lemma models_child (h : heap) (t : shape) :
  ∀ p q qnd c, models h p t = true → q ∈ preorder t → h !! q = Some qnd →
    c ∈ children qnd → ∃ cnd, h !! c = Some cnd ∧ parent cnd = Some q.
Proof.
  induction t as [a kids IH] using shape_ind'. intros p q qnd c Hm Hq Hqnd Hc.
  apply models_unfold in Hm as (nd & Ha & Hp & Hch & Hkids).
  rewrite Forall_forall in IH, Hkids.
  simpl in Hq. destruct (decide (q = a)) as [->|Hqa].
  - assert (qnd = nd) as -> by congruence. rewrite Hch in Hc.
    apply list_elem_of_In, in_map_iff in Hc as (k & <- & Hk).
    apply list_elem_of_In in Hk.
    destruct (models_root _ _ _ (Hkids k Hk)) as (knd & ? & ? & _). eauto.
  - apply elem_of_cons in Hq as [->|Hq]; [done|].
    apply elem_of_preorder_kids in Hq as (k & Hk & Hq). eapply IH; eauto.
Qed.

Lemma StronglySorted_sublist {A : Type} (R : relation A) (l1 l2 : list A) :
  l1 `sublist_of` l2 → StronglySorted R l2 → StronglySorted R l1.
Proof.
  induction 1 as [|x l1 l2 Hsub IH|x l1 l2 Hsub IH]; intros Hs.
  - constructor.
  - apply StronglySorted_inv in Hs as [Hs Hall]. constructor; [by apply IH|].
    rewrite Forall_forall in Hall |- *. intros y Hy. apply Hall.
    eapply elem_of_sublist; eauto.
  - apply StronglySorted_inv in Hs as [Hs _]. by apply IH.
Qed.

Lemma StronglySorted_seq (n : nat) : ∀ a, StronglySorted lt (seq a n).
Proof.
  induction n as [|n IH]; intros a; simpl; constructor; [apply IH|].
  rewrite Forall_forall. intros x Hx. apply elem_of_seq in Hx. lia.
Qed.

Lemma tree_size_le (h : heap) (root : addr) (t : shape) :
  tree h root t → node_count t ≤ length h.
Proof.
  intros (Hm & _ & Hnd). unfold node_count.
  transitivity (length (seq 0 (length h))); [|by rewrite length_seq].
  apply NoDup_incl_length; [by apply NoDup_ListNoDup|].
  intros x Hx%list_elem_of_In. apply list_elem_of_In, elem_of_seq.
  destruct (models_lookup _ _ _ _ Hm Hx) as [nd Hnd'].
  apply lookup_lt_Some in Hnd'. lia.
Qed.

(** ** The parsed tree *)

Lemma parseInput_inv (input : jsstring) (h : heap) (root : addr) :
  parseInput input = Ok (h, root) →
  ∃ structures path t,
    splitInput input = Ok structures ∧ root = 0
    ∧ parse_inv structures (length structures) h path t.
Proof.
  intros Hparse.
  assert (input ≠ []) as Hne by (intros ->; discriminate).
  destruct (splitInput_total input) as (structures & Hsplit & _).
  rewrite (parseInput_unfold _ _ Hne Hsplit) in Hparse.
  apply bind_Ok in Hparse as ([h' path] & Hb & [= <- <-]).
  destruct (build_inv structures (splitInput_fresh _ _ Hsplit) _ _ _ _ _ _
              (inv_init structures) (Nat.le_refl _) Hb) as [t Hinv].
  exists structures, path, t. done.
Qed.

(** C4: the tree that a successful [parseInput] returns has one root, at
    address 0, with indent -1 and no parent; the nodes after it are the
    items of the input in document order; every node other than the root
    has a parent in whose [children] it occurs exactly once and to which its
    [parent] points; every [children] array is in document order. *)
Theorem C4_parsed_tree_invariants (input : jsstring) (h : heap) (root : addr) :
  parseInput input = Ok (h, root) →
  ∃ structures t,
    splitInput input = Ok structures
    ∧ tree h root t
    ∧ preorder t = seq 0 (length h)
    ∧ length h = S (length structures)
    ∧ (∃ rnd, h !! root = Some rnd ∧ name rnd = js "."
              ∧ indentCount rnd = (-1)%Z ∧ parent rnd = None)
    ∧ (∀ a nd, h !! a = Some nd → parent nd = None → a = root)
    ∧ (∀ i s, structures !! i = Some s →
         ∃ nd, h !! S i = Some nd ∧ name nd = name s
               ∧ indentCount nd = indentCount s)
    ∧ (∀ a nd, h !! a = Some nd → a ≠ root →
         ∃ p pnd i, parent nd = Some p ∧ h !! p = Some pnd
                    ∧ children pnd !! i = Some a
                    ∧ ∀ j, children pnd !! j = Some a → j = i)
    ∧ (∀ p pnd, h !! p = Some pnd →
         StronglySorted lt (children pnd)
         ∧ ∀ c, c ∈ children pnd → ∃ cnd, h !! c = Some cnd ∧ parent cnd = Some p).
Proof.
  intros Hparse.
  destruct (parseInput_inv _ _ _ Hparse) as (structures & path & t & Hsplit & -> & Hinv).
  pose proof (inv_root_addr Hinv) as Hroot.
  destruct Hinv as [Hlen Hstatic Hnew Hm Hpre Hpath].
  assert (preorder t = seq 0 (length h)) as Hpre' by (by rewrite Hlen).
  assert (NoDup (preorder t)) as Hnd by (rewrite Hpre; apply NoDup_seq).
  assert (∀ a nd, h !! a = Some nd → a ∈ preorder t) as Hin.
  { intros a nd Ha. rewrite Hpre'. apply elem_of_seq.
    apply lookup_lt_Some in Ha. lia. }
  exists structures, t. split; [done|]. split; [done|]. split; [done|].
  split; [done|]. split.
  { destruct (Hstatic 0 root_node eq_refl) as (rnd & Hr & Hn & Hi).
    destruct (models_root _ _ _ Hm) as (rnd' & Hr' & Hp & _).
    rewrite Hroot in Hr'. assert (rnd' = rnd) as -> by congruence.
    exists rnd. done. }
  split.
  { intros a nd Ha Hp. destruct (decide (a = 0)) as [|Hne]; [done|].
    destruct (models_parent _ _ _ _ Hm (Hin _ _ Ha)) as (q & qnd & nd' & _ & _ & _ & Ha' & Hp');
      [by rewrite Hroot|].
    congruence. }
  split.
  { intros i s Hs. apply (Hstatic (S i) s). exact Hs. }
  split.
  { intros a nd Ha Hne.
    destruct (models_parent _ _ _ _ Hm (Hin _ _ Ha)) as (q & qnd & nd' & Hq & Hqnd & Hc & Ha' & Hp');
      [by rewrite Hroot|].
    assert (nd' = nd) as -> by congruence.
    apply list_elem_of_lookup in Hc as [i Hi].
    exists q, qnd, i. repeat (split; [done|]).
    intros j Hj. eapply NoDup_lookup; [|exact Hj|exact Hi].
    apply (sublist_NoDup (children qnd) (preorder t));
      [exact Hnd|eapply children_sublist; eauto]. }
  intros p pnd Hp. split.
  - eapply StronglySorted_sublist; [eapply children_sublist; eauto|].
    rewrite Hpre. apply StronglySorted_seq.
  - intros c Hc. eapply models_child; eauto.
Qed.

Lemma C4_witness :
  parseInput scenario_input = Ok (scenario_heap, 0)
  ∧ ∃ structures t,
      splitInput scenario_input = Ok structures
      ∧ tree scenario_heap 0 t
      ∧ preorder t = [0; 1; 2; 3; 4].
Proof.
  assert (parseInput scenario_input = Ok (scenario_heap, 0)) as E
    by (vm_compute; reflexivity).
  split; [exact E|].
  destruct (C4_parsed_tree_invariants scenario_input scenario_heap 0 E)
    as (structures & t & Hsplit & Ht & Hpre & _).
  exists structures, t. done.
Defined.

(** ** Walking up the parent links *)

Lemma climbs_lookup (h : heap) (x : addr) (anc : list addr) :
  climbs h x anc → ∃ nd, h !! x = Some nd ∧ parent nd = head anc.
Proof. destruct anc; simpl; [|intros [? _]]; done. Qed.

Lemma climbs_unique (h : heap) (anc1 : list addr) :
  ∀ x anc2, climbs h x anc1 → climbs h x anc2 → anc1 = anc2.
Proof.
  induction anc1 as [|p anc1 IH]; intros x [|q anc2]; simpl.
  - done.
  - intros (nd & ? & ?) [(nd' & ? & ?) _]. congruence.
  - intros [(nd & ? & ?) _] (nd' & ? & ?). congruence.
  - intros [(nd & ? & ?) Hp] [(nd' & ? & ?) Hq].
    assert (p = q) as -> by congruence. f_equal. eauto.
Qed.

(** Every node of a tree has its chain of ancestors, shorter than the tree
    is large. *)
Lemma models_climbs (h : heap) (t : shape) :
  ∀ p up x,
    models h p t = true →
    match up with
    | [] => p = None
    | q :: up' => p = Some q ∧ climbs h q up'
    end →
    x ∈ preorder t →
    ∃ anc, climbs h x anc ∧ length anc < length up + node_count t.
Proof.
  induction t as [a kids IH] using shape_ind'. intros p up x Hm Hup Hx.
  apply models_unfold in Hm as (nd & Ha & Hp & Hc & Hkids).
  assert (climbs h a up) as Hclimb.
  { destruct up as [|q up']; simpl.
    - exists nd. by subst.
    - destruct Hup as [-> Hq]. split; [|done]. exists nd. done. }
  unfold node_count in *. simpl in Hx |- *.
  apply elem_of_cons in Hx as [->|Hx].
  { exists up. split; [done|lia]. }
  apply elem_of_preorder_kids in Hx as (k & Hk & Hx).
  rewrite Forall_forall in IH, Hkids.
  destruct (IH k Hk (Some a) (a :: up) x (Hkids k Hk)) as (anc & Hanc & Hlen);
    [done|done|].
  exists anc. split; [done|].
  pose proof (sublist_length _ _ (preorder_kid_sublist k kids Hk)).
  simpl in Hlen. lia.
Qed.

Lemma tree_climbs (h : heap) (root : addr) (t : shape) (x : addr) :
  tree h root t → x ∈ preorder t →
  ∃ anc, climbs h x anc ∧ length anc < length h.
Proof.
  intros Ht Hx. pose proof (tree_size_le _ _ _ Ht) as Hsize.
  destruct Ht as (Hm & _ & _).
  destruct (models_climbs h t None [] x Hm eq_refl Hx) as (anc & ? & Hlen).
  simpl in Hlen. exists anc. split; [done|lia].
Qed.

Lemma upto_dot_app (h : heap) (d : addr) (l1 l2 : list addr) :
  is_dot h d = true → upto_dot h (l1 ++ d :: l2) = upto_dot h l1.
Proof.
  intros Hd. induction l1 as [|a l1 IH]; simpl.
  - by rewrite Hd.
  - destruct (is_dot h a); [done|]. by rewrite IH.
Qed.

Lemma upto_dot_not_dot (h : heap) (l : list addr) :
  Forall (λ a, is_dot h a = false) (upto_dot h l).
Proof.
  induction l as [|a l IH]; simpl; [constructor|].
  destruct (is_dot h a) eqn:E; constructor; done.
Qed.

Lemma upto_dot_prefix (h : heap) (l : list addr) :
  ∃ l', l = upto_dot h l ++ l'.
Proof.
  induction l as [|a l [l' IH]]; simpl; [by exists []|].
  destruct (is_dot h a).
  - by exists (a :: l).
  - exists l'. simpl. by rewrite <- IH.
Qed.

(** The loop of [getName] and [getFullPath] collects the names along the
    chain, up to the first node named [.]. *)
Lemma node_name_lookup (h : heap) (x : addr) (nd : FileStructure) :
  h !! x = Some nd → node_name h x = name nd.
Proof. intros H. unfold node_name. by rewrite H. Qed.

Lemma is_dot_lookup (h : heap) (x : addr) (nd : FileStructure) :
  h !! x = Some nd → is_dot h x = str_eqb (name nd) (js ".").
Proof. intros H. unfold is_dot. by rewrite (node_name_lookup _ _ _ H). Qed.

Lemma collect_path_None (fuel : nat) (h : heap) (acc : list jsstring) :
  collect_path fuel h None acc = Ok acc.
Proof. by destruct fuel. Qed.

Lemma collect_path_climbs (h : heap) (anc : list addr) :
  ∀ x fuel acc,
    climbs h x anc → length anc < fuel →
    collect_path fuel h (Some x) acc
    = Ok (rev (map (node_name h) (upto_dot h (x :: anc))) ++ acc).
Proof.
  induction anc as [|p anc IH]; intros x fuel acc Hclimb Hfuel;
    destruct fuel as [|fuel]; try (simpl in Hfuel; lia).
  - destruct Hclimb as (nd & Hx & Hp).
    cbn [collect_path upto_dot].
    rewrite (deref_lookup _ _ _ Hx), (is_dot_lookup _ _ _ Hx).
    cbn [mbind outcome_bind].
    destruct (str_eqb (name nd) (js ".")); [done|].
    rewrite Hp, collect_path_None. simpl. by rewrite (node_name_lookup _ _ _ Hx).
  - destruct Hclimb as [(nd & Hx & Hp) Hclimb].
    cbn [collect_path]. read_node Hx.
    change (upto_dot h (x :: p :: anc))
      with (if is_dot h x then [] else x :: upto_dot h (p :: anc)).
    rewrite (is_dot_lookup _ _ _ Hx).
    destruct (str_eqb (name nd) (js ".")); [done|].
    rewrite Hp, IH; [|done|simpl in Hfuel; lia].
    cbn [map rev]. rewrite (node_name_lookup _ _ _ Hx). by rewrite <- app_assoc.
Qed.

Lemma getFullPath_climbs (h : heap) (x : addr) (anc : list addr) :
  climbs h x anc → length anc < length h →
  getFullPath h x = Ok (path_of h (upto_dot h (x :: anc))).
Proof.
  intros Hclimb Hlen. unfold getFullPath, path_of.
  rewrite (collect_path_climbs _ _ _ _ _ Hclimb Hlen), app_nil_r. done.
Qed.

Lemma isLastChild_climbs (h : heap) (x : addr) (anc : list addr) :
  climbs h x anc → ∃ b, isLastChild h x = Ok b.
Proof.
  intros Hclimb. unfold isLastChild. destruct anc as [|p anc].
  - destruct Hclimb as (nd & Hx & Hp).
    read_node Hx. rewrite Hp. eauto.
  - destruct Hclimb as [(nd & Hx & Hp) Hclimb].
    destruct (climbs_lookup _ _ _ Hclimb) as (pnd & Hpnd & _).
    read_node Hx. rewrite Hp.
    read_node Hpnd.
    destruct (last (children pnd)); eauto.
Qed.

Lemma ancestor_chunks_climbs (h : heap) (lines : LineStringSet) (anc : list addr) :
  ∀ x fuel chunks,
    climbs h x anc → length anc ≤ fuel →
    ∃ r, ancestor_chunks fuel h lines (Some x) chunks = Ok r.
Proof.
  induction anc as [|p anc IH]; intros x fuel chunks Hclimb Hfuel.
  - destruct Hclimb as (nd & Hx & Hp). destruct fuel; cbn [ancestor_chunks];
      rewrite (deref_lookup _ _ _ Hx); cbn [mbind outcome_bind]; rewrite Hp; eauto.
  - destruct fuel as [|fuel]; [simpl in Hfuel; lia|].
    destruct (isLastChild_climbs _ _ _ Hclimb) as [b Hb].
    destruct Hclimb as [(nd & Hx & Hp) Hclimb].
    cbn [ancestor_chunks]. read_node Hx. rewrite Hp, Hb. cbn [mbind outcome_bind].
    apply IH; [done|simpl in Hfuel; lia].
Qed.

Lemma getName_climbs (h : heap) (x : addr) (anc : list addr)
    (options : GenerateTreeOptions) :
  climbs h x anc → length anc < length h → ∃ nm, getName h x options = Ok nm.
Proof.
  intros Hclimb Hlen. unfold getName.
  destruct (climbs_lookup _ _ _ Hclimb) as (nd & Hx & Hp).
  read_node Hx.
  destruct (truthy (fullPath options) && bool_decide (is_Some (parent nd))) eqn:E.
  - destruct anc as [|p anc].
    { simpl in Hp. rewrite Hp in E. rewrite andb_comm in E. simpl in E.
      done. }
    destruct Hclimb as [_ Hclimb]. simpl in Hp. rewrite Hp.
    rewrite (collect_path_climbs _ _ _ _ _ Hclimb); [|simpl in Hlen; lia].
    cbn [mbind outcome_bind]. destruct (rev _ ++ []); eauto.
  - eauto.
Qed.

(** ** generateTree *)

Lemma getAsciiLine_root (h : heap) (x : addr) (options : GenerateTreeOptions)
    (lines : LineStringSet) :
  LINE_STRINGS (charset_or_default options) = Some lines →
  climbs h x [] →
  getAsciiLine h x options
  = Ok (if truthy (rootDot options) then Some (node_name h x) else None).
Proof.
  intros Hcs (nd & Hx & Hp). unfold getAsciiLine, node_name.
  rewrite Hcs, (deref_lookup _ _ _ Hx), Hx. cbn [mbind outcome_bind].
  by rewrite Hp.
Qed.

Lemma getAsciiLine_inner (h : heap) (x p : addr) (anc : list addr)
    (options : GenerateTreeOptions) (lines : LineStringSet) :
  LINE_STRINGS (charset_or_default options) = Some lines →
  climbs h x (p :: anc) → length (p :: anc) < length h →
  ∃ line, getAsciiLine h x options = Ok (Some line).
Proof.
  intros Hcs Hclimb Hlen. unfold getAsciiLine. rewrite Hcs.
  destruct (isLastChild_climbs _ _ _ Hclimb) as [b Hb].
  destruct (getName_climbs _ _ _ options Hclimb Hlen) as [nm Hnm].
  destruct Hclimb as [(nd & Hx & Hp) Hclimb].
  read_node Hx.
  rewrite Hp, Hb. cbn [mbind outcome_bind]. rewrite Hnm.
  cbn [mbind outcome_bind].
  edestruct (ancestor_chunks_climbs h lines anc p (length h)) as [r ->];
    [done|simpl in Hlen; lia|].
  cbn [mbind outcome_bind]. eauto.
Qed.

Lemma push_reversed_app (children stack : list addr) :
  push_reversed children stack = children ++ stack.
Proof.
  unfold push_reversed. revert stack.
  induction children as [|c children IH] using rev_ind; intros stack; [done|].
  rewrite rev_app_distr. simpl. rewrite IH. by rewrite <- app_assoc.
Qed.

Lemma for_each_app {A S : Type} (f : A → S → outcome S) (l1 l2 : list A) :
  ∀ s, for_each f (l1 ++ l2) s = for_each f l1 s ≫= for_each f l2.
Proof.
  induction l1 as [|x l1 IH]; intros s; [done|].
  cbn [for_each app]. destruct (f x s); try done. apply IH.
Qed.

(** The loop of [generateTree] visits the nodes of the trees on its stack
    in preorder. *)
Lemma generateTree_loop_forest (h : heap) (options : GenerateTreeOptions) :
  ∀ n ts rest fuel lines,
    forest_size ts ≤ n →
    Forall (λ t, ∃ p, models h p t = true) ts →
    forest_size ts ≤ fuel →
    generateTree_loop fuel h options (map addr_of ts ++ rest) lines
    = for_each (emit h options) (concat (map preorder ts)) lines
      ≫= generateTree_loop (fuel - forest_size ts) h options rest.
Proof.
  unfold forest_size.
  induction n as [|n IH]; intros ts rest fuel lines Hn Hts Hfuel.
  - destruct ts as [|[a kids] ts]; [|simpl in Hn; lia].
    simpl. by rewrite Nat.sub_0_r.
  - destruct ts as [|[a kids] ts].
    { simpl. by rewrite Nat.sub_0_r. }
    apply Forall_cons in Hts as [[p Hm] Hts].
    apply models_unfold in Hm as (nd & Ha & Hp & Hc & Hkids).
    simpl in Hn, Hfuel. destruct fuel as [|fuel]; [lia|].
    cbn [map addr_of app generateTree_loop concat preorder for_each].
    change (emit h options a lines)
      with (getAsciiLine h a options
            ≫= λ line, Ok (match line with
                            | Some l => lines ++ [l]
                            | None => lines
                            end)).
    destruct (getAsciiLine h a options) as [line| | |]; try done.
    cbn [mbind outcome_bind]. read_node Ha.
    rewrite push_reversed_app, Hc, app_assoc, <- map_app.
    rewrite length_app in Hn, Hfuel.
    rewrite IH.
    + rewrite map_app, concat_app. simpl.
      replace (fuel - length (concat (map preorder kids) ++ concat (map preorder ts)))
        with (S fuel - S (length (concat (map preorder kids)
                                  ++ concat (map preorder ts)))) by lia.
      done.
    + rewrite map_app, concat_app, length_app. lia.
    + apply Forall_app. split; [|done].
      eapply Forall_impl; [exact Hkids|]. simpl. eauto.
    + rewrite map_app, concat_app, length_app. lia.
Qed.

Lemma generateTree_loop_nil (fuel : nat) (h : heap)
    (options : GenerateTreeOptions) (lines : list jsstring) :
  generateTree_loop fuel h options [] lines = Ok lines.
Proof. by destruct fuel. Qed.

Lemma for_each_emit (h : heap) (options : GenerateTreeOptions) (l : list addr) :
  ∀ lines,
    Forall (λ x, ∃ line, getAsciiLine h x options = Ok (Some line)) l →
    ∃ new, for_each (emit h options) l lines = Ok (lines ++ new)
           ∧ length new = length l.
Proof.
  induction l as [|x l IH]; intros lines Hall.
  - exists []. by rewrite app_nil_r.
  - apply Forall_cons in Hall as [[line Hline] Hall].
    cbn [for_each].
    change (emit h options x lines)
      with (getAsciiLine h x options
            ≫= λ line, Ok (match line with
                            | Some l => lines ++ [l]
                            | None => lines
                            end)).
    rewrite Hline. cbn [mbind outcome_bind].
    destruct (IH (lines ++ [line]) Hall) as (new & -> & Hlen).
    exists (line :: new). rewrite <- app_assoc. simpl. split; [done|lia].
Qed.

(** On a tree, with a known character set, [generateTree] emits one line
    for every node, except that the root gives no line when [rootDot] is
    off. *)
Lemma generateTree_lines_tree (h : heap) (root : addr) (t : shape)
    (options : option GenerateTreeOptions) (lines : LineStringSet) :
  tree h root t →
  LINE_STRINGS (charset_or_default
                  (spread defaultOptions (default no_options options)))
  = Some lines →
  ∃ out,
    generateTree_lines h (Some root) options = Ok out
    ∧ length out
      = if truthy (rootDot (spread defaultOptions (default no_options options)))
        then node_count t else node_count t - 1.
Proof.
  intros Ht Hcs. pose proof (tree_size_le _ _ _ Ht) as Hsize.
  pose proof Ht as (Hm & Hroot & Hnd).
  unfold generateTree_lines.
  set (o := spread defaultOptions (default no_options options)) in *.
  pose proof (generateTree_loop_forest h o (node_count t) [t] [] (length h) []) as Hloop.
  unfold forest_size in Hloop. simpl in Hloop. rewrite !app_nil_r in Hloop.
  rewrite Hroot in Hloop. rewrite Hloop; [|done|by constructor; eauto|done].
  clear Hloop. unfold node_count in *.
  destruct t as [a kids]. simpl in Hroot. subst a. simpl in Hnd, Hsize |- *.
  apply NoDup_cons in Hnd as [Hroot_notin _].
  (* the root *)
  assert (climbs h root []) as Hclimb_root.
  { destruct (models_root _ _ _ Hm) as (nd & ? & ? & _). exists nd. done. }
  cbn [for_each].
  change (emit h o root [])
    with (getAsciiLine h root o
          ≫= λ line, Ok (match line with
                          | Some l => [] ++ [l]
                          | None => []
                          end)).
  rewrite (getAsciiLine_root _ _ _ _ Hcs Hclimb_root).
  cbn [mbind outcome_bind].
  (* the other nodes *)
  assert (Forall (λ x, ∃ line, getAsciiLine h x o = Ok (Some line))
                 (concat (map preorder kids))) as Hall.
  { rewrite Forall_forall. intros x Hx.
    assert (x ∈ preorder (Sh root kids)) as Hx' by (simpl; by right).
    destruct (tree_climbs h root (Sh root kids) x Ht Hx') as (anc & Hanc & Hlen).
    destruct anc as [|p anc].
    - destruct (models_parent _ _ _ _ Hm Hx') as (q & _ & nd & _ & _ & _ & Hxnd & Hp).
      { simpl. intros ->. done. }
      destruct Hanc as (nd' & Hxnd' & Hp'). congruence.
    - eapply getAsciiLine_inner; eauto. }
  destruct (for_each_emit h o _
              (if truthy (rootDot o) then [] ++ [node_name h root] else []) Hall)
    as (new & Hnew & Hlen).
  replace (match (if truthy (rootDot o) then Some (node_name h root) else None) with
           | Some l => [] ++ [l]
           | None => []
           end)
    with (if truthy (rootDot o) then [] ++ [node_name h root] else [])
    by (by destruct (truthy (rootDot o))).
  rewrite Hnew. cbn [mbind outcome_bind].
  rewrite generateTree_loop_nil. eexists. split; [reflexivity|].
  change (or_else (rootDot (default no_options options)) (Some true))
    with (rootDot o).
  destruct (truthy (rootDot o)); rewrite length_app, Hlen; simpl; lia.
Qed.

(** ** Lines without line feeds *)

Lemma lf_free_app (s t : jsstring) : lf_free s → lf_free t → lf_free (s ++ t).
Proof. intros. by apply Forall_app. Qed.

Lemma lf_free_join (sep : jsstring) (l : list jsstring) :
  lf_free sep → Forall lf_free l → lf_free (join sep l).
Proof.
  intros Hsep. induction 1 as [|x l Hx Hl IH]; simpl; [constructor|].
  destruct l; [done|]. auto using lf_free_app.
Qed.

Lemma lf_free_literal (s : jsstring) :
  forallb (λ c, negb (c =? 10)%N) s = true → lf_free s.
Proof.
  intros H. apply forallb_Forall in H. eapply Forall_impl; [exact H|].
  intros c Hc ->. discriminate.
Qed.

Lemma replace_keeps (P : N → Prop) (pat : jsstring) (s : jsstring) :
  Forall P s → Forall P (replace s pat []).
Proof.
  induction 1 as [|c s Hc Hs IH]; simpl.
  - destruct (starts_with pat []); simpl; [by rewrite drop_nil|constructor].
  - destruct (starts_with pat (c :: s)); simpl.
    + apply Forall_drop. by constructor.
    + by constructor.
Qed.

Lemma newlineSplitter_no_newline (input : jsstring) :
  ∀ cur, Forall (λ c, is_newline c = false) cur →
         Forall (Forall (λ c, is_newline c = false)) (newlineSplitter input cur).
Proof.
  induction input as [|c input IH]; intros cur Hcur; simpl.
  - destruct cur; [constructor|]. repeat constructor.
    apply Forall_forall. intros x Hx. rewrite Forall_forall in Hcur.
    apply Hcur. apply list_elem_of_In, in_rev, list_elem_of_In. exact Hx.
  - destruct (is_newline c) eqn:E.
    + destruct cur as [|d cur]; [by apply IH|].
      constructor; [|by apply IH].
      apply Forall_forall. intros x Hx. rewrite Forall_forall in Hcur.
      apply Hcur. apply list_elem_of_In, in_rev, list_elem_of_In. exact Hx.
    + apply IH. by constructor.
Qed.

Lemma not_newline_lf_free (s : jsstring) :
  Forall (λ c, is_newline c = false) s → lf_free s.
Proof.
  intros H. eapply Forall_impl; [exact H|]. intros c Hc ->. discriminate.
Qed.

Lemma map_lines_names (lines : list jsstring) :
  ∀ index ss,
    Forall lf_free lines → map_lines index lines = Ok ss →
    Forall (λ s, lf_free (name s)) ss.
Proof.
  induction lines as [|l ls IH]; simpl; intros index ss Hlines H.
  - injection H as <-. constructor.
  - apply Forall_cons in Hlines as [Hl Hls].
    apply bind_Ok in H as (s & Hs & H). apply bind_Ok in H as (ss' & Hss & H).
    injection H as <-. constructor; [|eauto].
    unfold split_line in Hs.
    destruct (leadingWhitespaceAndBullet l) as [[g1 g2]|]; [|done].
    injection Hs as <-. simpl. by apply replace_keeps.
Qed.

Lemma splitInput_names (input : jsstring) (structures : list FileStructure) :
  splitInput input = Ok structures →
  Forall (λ s, lf_free (name s)) structures.
Proof.
  unfold splitInput. intros H.
  assert (Forall lf_free (filter (λ l, onlyWhitespace l = false)
                                 (newlineSplitter input []))) as Hlines.
  { apply Forall_forall. intros l [_ Hl]%list_elem_of_filter.
    apply not_newline_lf_free.
    pose proof (newlineSplitter_no_newline input [] ltac:(constructor)) as Hall.
    rewrite Forall_forall in Hall. by apply Hall. }
  destruct (filter _ _) eqn:E.
  - injection H as <-. constructor.
  - eapply map_lines_names; eauto.
Qed.

Lemma parseInput_names (input : jsstring) (h : heap) (root : addr) :
  parseInput input = Ok (h, root) → names_lf_free h.
Proof.
  intros Hparse a nd Ha.
  destruct (parseInput_inv _ _ _ Hparse)
    as (structures & path & t & Hsplit & -> & Hinv).
  pose proof (splitInput_names _ _ Hsplit) as Hnames.
  destruct Hinv as [Hlen Hstatic _ _ _ _].
  assert (is_Some (initial_heap structures !! a)) as [nd0 Hnd0].
  { apply lookup_lt_is_Some. simpl. apply lookup_lt_Some in Ha. lia. }
  destruct (Hstatic a nd0 Hnd0) as (nd' & Hnd' & Hname & _).
  assert (nd' = nd) as -> by congruence. rewrite Hname.
  destruct a as [|a]; simpl in Hnd0.
  - injection Hnd0 as <-. by apply lf_free_literal.
  - rewrite Forall_forall in Hnames. apply Hnames.
    eapply list_elem_of_lookup_2, Hnd0.
Qed.

Lemma collect_path_lf_free (h : heap) :
  names_lf_free h →
  ∀ fuel current acc r,
    Forall lf_free acc → collect_path fuel h current acc = Ok r →
    Forall lf_free r.
Proof.
  intros Hnames.
  assert (∀ fuel, (∀ current acc r, Forall lf_free acc →
                     collect_path fuel h current acc = Ok r → Forall lf_free r)
                  → ∀ cur acc r, Forall lf_free acc →
                      (deref h cur ≫= λ nd,
                       if str_eqb (name nd) (js ".") then Ok acc
                       else collect_path fuel h (parent nd) (name nd :: acc)) = Ok r →
                      Forall lf_free r) as Hstep.
  { intros fuel IH cur acc r Hacc H.
    apply bind_Ok in H as (nd & Hnd%deref_Ok & H).
    destruct (str_eqb (name nd) (js ".")); [by injection H as <-|].
    eapply IH; [|exact H]. constructor; [eauto|done]. }
  induction fuel as [|fuel IH]; intros [cur|] acc r Hacc H; simpl in H.
  - apply bind_Ok in H as (nd & Hnd & H).
    destruct (str_eqb (name nd) (js ".")); [by injection H as <-|done].
  - by injection H as <-.
  - eapply Hstep; eauto.
  - by injection H as <-.
Qed.

Lemma getName_lf_free (h : heap) (x : addr) (options : GenerateTreeOptions)
    (nm : jsstring) :
  names_lf_free h → getName h x options = Ok nm → lf_free nm.
Proof.
  intros Hnames H. unfold getName in H.
  apply bind_Ok in H as (nd & Hnd%deref_Ok & H).
  apply bind_Ok in H as (chunks & Hchunks & [= <-]).
  apply lf_free_join; [constructor|].
  assert (Forall lf_free
            (if truthy (trailingDirSlash options) && (0 <? length (children nd))
                && negb (has_trailing_slash (name nd))
             then [name nd] ++ [js "/"] else [name nd])) as Hbase.
  { match goal with |- context [if ?b then _ else _] => destruct b end.
    - apply Forall_app. split; (constructor; [|constructor]).
      + eauto.
      + by apply lf_free_literal.
    - constructor; [eauto|constructor]. }
  destruct (truthy (fullPath options) && bool_decide (is_Some (parent nd))).
  - apply bind_Ok in Hchunks as (parts & Hparts & Hchunks).
    assert (Forall lf_free parts) as Hp.
    { eapply (collect_path_lf_free h Hnames); [|exact Hparts]. constructor. }
    assert (lf_free (join (js "/") parts ++ js "/")) as Hprefix.
    { apply lf_free_app; [|by apply lf_free_literal].
      apply lf_free_join; [by apply lf_free_literal|done]. }
    destruct parts as [|part parts]; injection Hchunks as <-; [done|].
    constructor; [exact Hprefix|done].
  - by injection Hchunks as <-.
Qed.

Lemma ancestor_chunks_lf_free (h : heap) (lines : LineStringSet) :
  lf_free (EMPTY lines) → lf_free (DIRECTORY lines) →
  ∀ fuel current chunks r,
    Forall lf_free chunks →
    ancestor_chunks fuel h lines current chunks = Ok r → Forall lf_free r.
Proof.
  intros He Hd.
  induction fuel as [|fuel IH]; intros [cur|] chunks r Hchunks H; simpl in H;
    try (by injection H as <-);
    apply bind_Ok in H as (nd & _ & H);
    destruct (parent nd) as [p|]; try (by injection H as <-); [done|].
  apply bind_Ok in H as (lastc & _ & H). eapply IH; [|exact H].
  constructor; [by destruct lastc|done].
Qed.

Lemma LINE_STRINGS_lf_free (charset : jsstring) (lines : LineStringSet) :
  LINE_STRINGS charset = Some lines →
  lf_free (CHILD lines) ∧ lf_free (LAST_CHILD lines)
  ∧ lf_free (DIRECTORY lines) ∧ lf_free (EMPTY lines).
Proof.
  unfold LINE_STRINGS.
  destruct (str_eqb charset (js "ascii")).
  { intros [= <-]. repeat split; by apply lf_free_literal. }
  destruct (str_eqb charset (js "utf-8")); [|done].
  intros [= <-]. repeat split; by apply lf_free_literal.
Qed.

Lemma getAsciiLine_lf_free (h : heap) (x : addr) (options : GenerateTreeOptions)
    (line : jsstring) :
  names_lf_free h → getAsciiLine h x options = Ok (Some line) → lf_free line.
Proof.
  intros Hnames H. unfold getAsciiLine in H.
  destruct (LINE_STRINGS _) as [lines|] eqn:Hcs; [|done].
  destruct (LINE_STRINGS_lf_free _ _ Hcs) as (Hc & Hl & Hd & He).
  apply bind_Ok in H as (nd & Hnd%deref_Ok & H).
  destruct (parent nd) as [p|].
  - apply bind_Ok in H as (lastc & _ & H).
    apply bind_Ok in H as (nm & Hnm & H).
    apply bind_Ok in H as (chunks & Hchunks & [= <-]).
    apply Forall_drop, lf_free_join; [constructor|].
    eapply ancestor_chunks_lf_free; [exact He|exact Hd| |exact Hchunks].
    constructor; [by destruct lastc|].
    constructor; [|constructor]. eapply getName_lf_free; eauto.
  - destruct (truthy (rootDot options)); [|done]. injection H as <-. eauto.
Qed.

Lemma generateTree_loop_lf_free (h : heap) (options : GenerateTreeOptions) :
  names_lf_free h →
  ∀ fuel stack lines out,
    Forall lf_free lines →
    generateTree_loop fuel h options stack lines = Ok out →
    Forall lf_free out.
Proof.
  intros Hnames.
  induction fuel as [|fuel IH]; intros [|item stack] lines out Hlines H;
    simpl in H; try (by injection H as <-); [done|].
  apply bind_Ok in H as (line & Hline & H).
  apply bind_Ok in H as (nd & _ & H).
  eapply IH; [|exact H]. destruct line as [l|]; [|done].
  apply Forall_app. split; [done|]. constructor; [|constructor].
  eapply getAsciiLine_lf_free; eauto.
Qed.

Lemma lf_count_app (s t : jsstring) :
  lf_count (s ++ t) = lf_count s + lf_count t.
Proof. unfold lf_count. by rewrite filter_app, length_app. Qed.

Lemma lf_count_free (s : jsstring) : lf_free s → lf_count s = 0.
Proof.
  unfold lf_count. induction 1 as [|c s Hc _ IH]; [done|].
  by rewrite filter_cons_False.
Qed.

(** Lines without line feeds, joined by line feeds: one line feed fewer
    than lines. *)
Lemma lf_count_join (l : list jsstring) :
  Forall lf_free l → lf_count (join [10%N] l) = length l - 1.
Proof.
  induction 1 as [|x l Hx Hl IH]; [done|].
  destruct l as [|y l]; [by apply lf_count_free|].
  change (join [10%N] (x :: y :: l)) with (x ++ [10%N] ++ join [10%N] (y :: l)).
  rewrite !lf_count_app, (lf_count_free _ Hx), IH. simpl. lia.
Qed.

(** ** One line per node *)

Lemma parseInput_tree (input : jsstring) (h : heap) (root : addr) :
  parseInput input = Ok (h, root) →
  ∃ t, tree h root t ∧ preorder t = seq 0 (length h)
       ∧ length h = S (length (kept_lines input)).
Proof.
  intros Hparse.
  destruct (parseInput_inv _ _ _ Hparse)
    as (structures & path & t & Hsplit & -> & Hinv).
  pose proof (inv_root_addr Hinv) as Hroot.
  destruct Hinv as [Hlen _ _ Hm Hpre _].
  destruct (splitInput_total input) as (ss & Hss & Hall).
  assert (ss = structures) as -> by congruence.
  exists t. split; [|split].
  - split; [done|]. split; [done|]. rewrite Hpre. apply NoDup_seq.
  - by rewrite Hlen.
  - by rewrite Hlen, (Forall2_length _ _ _ Hall).
Qed.

(** C3: on a parsed tree, with a known character set, [generateTree] emits
    one line for every node: with [rootDot] on (given as true, or left to its
    default) the number of lines is the number of nodes, the root included;
    with [rootDot] off the root gives no line and the number of lines is the
    number of nodes minus one.  No line has a line feed in it, so the lines
    of the string returned are the lines emitted. *)
Theorem C3_one_line_per_node (input : jsstring) (h : heap) (root : addr)
    (options : GenerateTreeOptions) :
  parseInput input = Ok (h, root) →
  is_Some (LINE_STRINGS (charset_or_default (spread defaultOptions options))) →
  ∃ t out,
    tree h root t
    ∧ node_count t = S (length (kept_lines input))
    ∧ generateTree_lines h (Some root) (Some options) = Ok out
    ∧ generateTree h (Some root) (Some options) = Ok (join [10%N] out)
    ∧ (rootDot options = Some true ∨ rootDot options = None →
       length out = node_count t)
    ∧ (rootDot options = Some false → length out = node_count t - 1)
    ∧ Forall lf_free out
    ∧ lf_count (join [10%N] out) = length out - 1.
Proof.
  intros Hparse [lines Hcs].
  destruct (parseInput_tree _ _ _ Hparse) as (t & Ht & Hpre & Hlen).
  destruct (generateTree_lines_tree h root t (Some options) lines Ht Hcs)
    as (out & Hout & Hcount).
  exists t, out. split; [done|]. split.
  { unfold node_count. by rewrite Hpre, length_seq. }
  split; [done|]. split.
  { unfold generateTree. by rewrite Hout. }
  assert (Forall lf_free out) as Hfree.
  { eapply (generateTree_loop_lf_free h _ (parseInput_names _ _ _ Hparse));
      [constructor|exact Hout]. }
  simpl in Hcount. split; [|split; [|split]].
  - intros [E|E]; rewrite E in Hcount; exact Hcount.
  - intros E. rewrite E in Hcount. exact Hcount.
  - exact Hfree.
  - by apply lf_count_join.
Qed.

Lemma C3_witness :
  parseInput scenario_input = Ok (scenario_heap, 0)
  ∧ ∃ t out,
      tree scenario_heap 0 t
      ∧ node_count t = 5
      ∧ generateTree_lines scenario_heap (Some 0)
          (Some (mkOptions (Some (js "ascii")) None None (Some false))) = Ok out
      ∧ length out = 4.
Proof.
  assert (parseInput scenario_input = Ok (scenario_heap, 0)) as E
    by (vm_compute; reflexivity).
  split; [exact E|].
  destruct (C3_one_line_per_node scenario_input scenario_heap 0
              (mkOptions (Some (js "ascii")) None None (Some false)) E)
    as (t & out & Ht & Hn & Hout & _ & _ & Hoff & _).
  { vm_compute. eauto. }
  exists t, out. repeat (split; [done|]).
  rewrite (Hoff eq_refl), Hn. reflexivity.
Defined.

(** ** Walking down the children *)

Section Walk.

Context {S : Type} (h : heap).
Variable visit : addr → FileStructure → S → outcome S.
Variable walk : nat → addr → S → outcome S.
Hypothesis walk_unfold : ∀ fuel item s,
  walk (Datatypes.S fuel) item s
  = deref h item ≫= λ nd, visit item nd s ≫= for_each (walk fuel) (children nd).

(** A function that visits a node and then walks its children in turn
    visits the nodes of a tree in preorder. *)
Lemma walk_preorder (t : shape) :
  ∀ p fuel s,
    models h p t = true → node_count t ≤ fuel →
    walk fuel (addr_of t) s
    = for_each (λ x s, deref h x ≫= λ nd, visit x nd s) (preorder t) s.
Proof.
  induction t as [a kids IH] using shape_ind'. intros p fuel s Hm Hfuel.
  apply models_unfold in Hm as (nd & Ha & Hp & Hc & Hkids).
  unfold node_count in *. simpl in Hfuel. destruct fuel as [|fuel]; [lia|].
  cbn [addr_of preorder for_each]. rewrite walk_unfold.
  read_node Ha. destruct (visit a nd s) as [s'| | |]; try done.
  cbn [mbind outcome_bind]. rewrite Hc. clear Hc Ha.
  assert (length (concat (map preorder kids)) ≤ fuel) as Hle by lia.
  clear Hfuel. revert s' Hle.
  induction kids as [|k kids IHkids]; intros s' Hle; [reflexivity|].
  apply Forall_cons in IH as [IHk IH].
  apply Forall_cons in Hkids as [Hk Hkids].
  simpl in Hle. rewrite length_app in Hle.
  cbn [map concat for_each]. rewrite for_each_app.
  rewrite (IHk (Some a) fuel s' Hk); [|unfold node_count; lia].
  destruct (for_each _ (preorder k) s') as [s''| | |]; try done.
  cbn [mbind outcome_bind]. apply IHkids; [done|done|lia].
Qed.

End Walk.

(** ** The dot-path list and the flat JSON *)

Lemma processItem_dot_preorder (h : heap) (t : shape) (p : option addr)
    (fuel : nat) (paths : list jsstring) :
  models h p t = true → node_count t ≤ fuel →
  processItem_dot fuel h (addr_of t) paths
  = for_each (λ x s, deref h x ≫= λ nd, visit_dot h x nd s) (preorder t) paths.
Proof.
  apply (walk_preorder h (visit_dot h) (λ fuel item s, processItem_dot fuel h item s)).
  reflexivity.
Qed.

Lemma processItem_flat_preorder (h : heap) (t : shape) (p : option addr)
    (fuel : nat) (acc : list jsstring * list jsstring) :
  models h p t = true → node_count t ≤ fuel →
  processItem_flat fuel h (addr_of t) acc
  = for_each (λ x s, deref h x ≫= λ nd, visit_flat h x nd s) (preorder t) acc.
Proof.
  apply (walk_preorder h (visit_flat h) (λ fuel item s, processItem_flat fuel h item s)).
  reflexivity.
Qed.

Lemma visit_dot_skip (h : heap) (x : addr) (nd : FileStructure)
    (acc : list jsstring) :
  str_eqb (name nd) (js ".") = true → visit_dot h x nd acc = Ok acc.
Proof. unfold visit_dot. by intros ->. Qed.

Lemma visit_dot_push (h : heap) (x : addr) (nd : FileStructure)
    (acc : list jsstring) (path : jsstring) :
  str_eqb (name nd) (js ".") = false → getFullPath h x = Ok path →
  visit_dot h x nd acc = Ok (acc ++ [path]).
Proof. unfold visit_dot. by intros -> ->. Qed.

Lemma visit_flat_skip (h : heap) (x : addr) (nd : FileStructure)
    (acc : list jsstring * list jsstring) :
  str_eqb (name nd) (js ".") = true → visit_flat h x nd acc = Ok acc.
Proof. unfold visit_flat. by intros ->. Qed.

Lemma visit_flat_push (h : heap) (x : addr) (nd : FileStructure)
    (acc : list jsstring * list jsstring) (path : jsstring) :
  str_eqb (name nd) (js ".") = false → getFullPath h x = Ok path →
  visit_flat h x nd acc
  = Ok (match children nd with
        | [] => (acc.1 ++ [path], acc.2)
        | _ => (acc.1, acc.2 ++ [path])
        end).
Proof. unfold visit_flat. intros -> ->. by destruct (children nd). Qed.

Lemma for_each_visit_dot (h : heap) (l : list addr) :
  Forall (λ x, ∃ anc, climbs h x anc ∧ length anc < length h) l →
  ∀ acc, ∃ paths,
    for_each (λ x s, deref h x ≫= λ nd, visit_dot h x nd s) l acc
    = Ok (acc ++ paths)
    ∧ Forall2 (λ x p, getFullPath h x = Ok p) (filter (listed h) l) paths.
Proof.
  induction 1 as [|x l (anc & Hclimb & Hlen) _ IH]; intros acc.
  - exists []. rewrite app_nil_r. split; [done|constructor].
  - destruct (climbs_lookup _ _ _ Hclimb) as (nd & Hx & _).
    pose proof (is_dot_lookup _ _ _ Hx) as Hdot.
    cbn [for_each]. read_node Hx.
    destruct (str_eqb (name nd) (js ".")) eqn:E.
    + rewrite (visit_dot_skip _ _ _ _ E). cbn [mbind outcome_bind].
      rewrite filter_cons_False by (unfold listed; congruence). apply IH.
    + rewrite (visit_dot_push _ _ _ _ _ E (getFullPath_climbs _ _ _ Hclimb Hlen)).
      cbn [mbind outcome_bind].
      rewrite filter_cons_True by (unfold listed; congruence).
      destruct (IH (acc ++ [path_of h (upto_dot h (x :: anc))])) as (paths & -> & Hall).
      exists (path_of h (upto_dot h (x :: anc)) :: paths).
      rewrite <- app_assoc. split; [done|]. constructor; [|done].
      by apply getFullPath_climbs.
Qed.

Lemma for_each_visit_flat (h : heap) (l : list addr) :
  Forall (λ x, ∃ anc, climbs h x anc ∧ length anc < length h) l →
  ∀ acc, ∃ files directories,
    for_each (λ x s, deref h x ≫= λ nd, visit_flat h x nd s) l acc
    = Ok (acc.1 ++ files, acc.2 ++ directories)
    ∧ Forall2 (λ x p, getFullPath h x = Ok p) (filter (listed_file h) l) files
    ∧ Forall2 (λ x p, getFullPath h x = Ok p) (filter (listed_directory h) l)
              directories.
Proof.
  induction 1 as [|x l (anc & Hclimb & Hlen) _ IH]; intros [fs ds].
  - exists [], []. simpl. rewrite !app_nil_r. repeat split; constructor.
  - destruct (climbs_lookup _ _ _ Hclimb) as (nd & Hx & _).
    pose proof (is_dot_lookup _ _ _ Hx) as Hdot.
    assert (node_children h x = children nd) as Hkids.
    { unfold node_children. by rewrite Hx. }
    cbn [for_each]. read_node Hx.
    destruct (str_eqb (name nd) (js ".")) eqn:E.
    + rewrite (visit_flat_skip _ _ _ _ E). cbn [mbind outcome_bind].
      rewrite !filter_cons_False
        by (unfold listed_file, listed_directory; intros [? _]; congruence).
      apply IH.
    + rewrite (visit_flat_push _ _ _ _ _ E (getFullPath_climbs _ _ _ Hclimb Hlen)).
      set (path := path_of h (upto_dot h (x :: anc))).
      destruct (children nd) as [|c cs] eqn:Hc; cbn [mbind outcome_bind fst snd].
      * destruct (IH (fs ++ [path], ds)) as (files & dirs & -> & Hf & Hd).
        exists (path :: files), dirs. simpl. rewrite <- app_assoc.
        split; [done|].
        rewrite filter_cons_True by (unfold listed_file; split; congruence).
        rewrite filter_cons_False
          by (unfold listed_directory; intros [_ ?]; congruence).
        split; [|done]. constructor; [|done]. by apply getFullPath_climbs.
      * destruct (IH (fs, ds ++ [path])) as (files & dirs & -> & Hf & Hd).
        exists files, (path :: dirs). simpl. rewrite <- app_assoc.
        split; [done|].
        rewrite filter_cons_False
          by (unfold listed_file; intros [_ ?]; congruence).
        rewrite filter_cons_True
          by (unfold listed_directory; split; congruence).
        split; [done|]. constructor; [|done]. by apply getFullPath_climbs.
Qed.

Lemma tree_all_climb (h : heap) (root : addr) (t : shape) :
  tree h root t →
  Forall (λ x, ∃ anc, climbs h x anc ∧ length anc < length h) (preorder t).
Proof.
  intros Ht. rewrite Forall_forall. intros x Hx. by eapply tree_climbs.
Qed.

Lemma dot_collect_tree (h : heap) (root : addr) (t : shape) :
  tree h root t →
  ∃ paths,
    dot_collect h root = Ok paths
    ∧ Forall2 (λ x p, getFullPath h x = Ok p) (filter (listed h) (preorder t))
              paths.
Proof.
  intros Ht. pose proof (tree_size_le _ _ _ Ht) as Hsize.
  pose proof (tree_all_climb _ _ _ Ht) as Hall.
  destruct Ht as (Hm & <- & _). unfold dot_collect.
  rewrite (processItem_dot_preorder _ _ _ _ _ Hm Hsize).
  destruct (for_each_visit_dot h _ Hall []) as (paths & -> & Hpaths). eauto.
Qed.

Lemma flatJson_collect_tree (h : heap) (root : addr) (t : shape) :
  tree h root t →
  ∃ files directories,
    flatJson_collect h root = Ok (files, directories)
    ∧ Forall2 (λ x p, getFullPath h x = Ok p)
              (filter (listed_file h) (preorder t)) files
    ∧ Forall2 (λ x p, getFullPath h x = Ok p)
              (filter (listed_directory h) (preorder t)) directories.
Proof.
  intros Ht. pose proof (tree_size_le _ _ _ Ht) as Hsize.
  pose proof (tree_all_climb _ _ _ Ht) as Hall.
  destruct Ht as (Hm & <- & _). unfold flatJson_collect.
  rewrite (processItem_flat_preorder _ _ _ _ _ Hm Hsize).
  destruct (for_each_visit_flat h _ Hall ([], [])) as (fs & ds & -> & ?). eauto.
Qed.

(** *** Sorting *)

Lemma str_leb_refl (s : jsstring) : str_leb s s = true.
Proof.
  induction s as [|c s IH]; simpl; [done|].
  rewrite N.eqb_refl, IH. by rewrite orb_true_r.
Qed.

Lemma str_leb_total (s t : jsstring) : str_leb s t = false → str_leb t s = true.
Proof.
  revert t. induction s as [|c s IH]; intros [|d t]; simpl; try done.
  intros H. apply orb_false_iff in H as [Hlt H].
  apply N.ltb_ge in Hlt. destruct (N.eqb_spec c d) as [->|Hne].
  - simpl in H. rewrite N.eqb_refl, (IH _ H). by rewrite orb_true_r.
  - assert ((d <? c)%N = true) as -> by (apply N.ltb_lt; lia). done.
Qed.

Lemma str_leb_trans (s t u : jsstring) :
  str_leb s t = true → str_leb t u = true → str_leb s u = true.
Proof.
  revert t u. induction s as [|c s IH]; intros [|d t] [|e u]; simpl; try done.
  intros H1 H2.
  apply orb_true_iff in H1 as [H1|H1]; apply orb_true_iff in H2 as [H2|H2].
  - apply N.ltb_lt in H1, H2. assert ((c <? e)%N = true) as -> by (apply N.ltb_lt; lia).
    done.
  - apply andb_true_iff in H2 as [->%N.eqb_eq H2]. by rewrite H1.
  - apply andb_true_iff in H1 as [->%N.eqb_eq H1]. by rewrite H2.
  - apply andb_true_iff in H1 as [->%N.eqb_eq H1].
    apply andb_true_iff in H2 as [->%N.eqb_eq H2].
    rewrite N.eqb_refl, (IH _ _ H1 H2). by rewrite orb_true_r.
Qed.

Lemma insert_sorted_perm (x : jsstring) (l : list jsstring) :
  insert_sorted x l ≡ₚ x :: l.
Proof.
  induction l as [|y l IH]; simpl; [done|].
  destruct (str_leb x y); [done|]. rewrite IH. apply Permutation_swap.
Qed.

Lemma insert_sorted_sorted (x : jsstring) (l : list jsstring) :
  StronglySorted str_le l → StronglySorted str_le (insert_sorted x l).
Proof.
  induction 1 as [|y l Hs IH Hall]; simpl.
  - repeat constructor.
  - destruct (str_leb x y) eqn:E.
    + constructor; [by constructor|]. constructor; [done|].
      eapply Forall_impl; [exact Hall|]. intros z Hz.
      eapply str_leb_trans; eauto.
    + constructor; [done|].
      rewrite (Forall_forall). intros z Hz.
      rewrite insert_sorted_perm in Hz.
      apply elem_of_cons in Hz as [->|Hz].
      * by apply str_leb_total.
      * rewrite Forall_forall in Hall. by apply Hall.
Qed.

Lemma Array_sort_perm (l : list jsstring) : Array_sort l ≡ₚ l.
Proof.
  induction l as [|x l IH]; simpl; [done|].
  by rewrite insert_sorted_perm, IH.
Qed.

Lemma Array_sort_sorted (l : list jsstring) : StronglySorted str_le (Array_sort l).
Proof.
  induction l as [|x l IH]; simpl; [constructor|].
  by apply insert_sorted_sorted.
Qed.


(** ** The dot-path list *)






Lemma tree_dot_item : tree dot_item_heap 0 (Sh 0 [Sh 1 []]).
Proof.
  split; [by_eval|]. split; [reflexivity|].
  apply NoDup_ListNoDup. repeat constructor; simpl; intuition congruence.
Qed.

(** The test of [processItem] is on the name, although its comment reads
    [Skip the root]: on the tree of the one-line input [.] the item named
    [.] is skipped too.  Two nodes, no path. *)
Lemma formatDot_skips_item_named_dot :
  parseInput (js ".") = Ok (dot_item_heap, 0)
  ∧ node_count (Sh 0 [Sh 1 []]) = 2
  ∧ formatDot_paths dot_item_heap (Some 0) = Ok []
  ∧ formatDot dot_item_heap (Some 0) = Ok [].
Proof. by_eval. Qed.

Lemma scenario_tree : tree scenario_heap 0 scenario_shape.
Proof.
  split; [by_eval|]. split; [reflexivity|].
  apply NoDup_ListNoDup. repeat constructor; simpl; intuition congruence.
Qed.





(** ** Nodes named [.] *)

Lemma below_climbs (h : heap) (root : addr) (t : shape) (d x : addr) :
  tree h root t → d ∈ preorder t → below h d x →
  x ∈ preorder t ∧ ∃ mid above, climbs h x (mid ++ d :: above).
Proof.
  intros Ht Hd Hbelow. pose proof Ht as (Hm & _ & _).
  assert (∀ q qnd c, q ∈ preorder t → h !! q = Some qnd → c ∈ children qnd →
                     c ∈ preorder t
                     ∧ (∃ cnd, h !! c = Some cnd ∧ parent cnd = Some q))
    as Hchild.
  { intros q qnd c Hq Hqnd Hc. split.
    - eapply elem_of_sublist; [exact Hc|]. eapply children_sublist; eauto.
    - eapply models_child; eauto. }
  induction Hbelow as [nd c Hnd Hc|x nd c _ [Hx (mid & above & Hclimb)] Hnd Hc].
  - destruct (Hchild _ _ _ Hd Hnd Hc) as (Hin & cnd & Hcnd & Hp).
    split; [done|].
    destruct (tree_climbs _ _ _ _ Ht Hd) as (above & Habove & _).
    exists [], above. simpl. split; [eauto|done].
  - destruct (Hchild _ _ _ Hx Hnd Hc) as (Hin & cnd & Hcnd & Hp).
    split; [done|]. exists (x :: mid), above. simpl. split; [eauto|done].
Qed.

(** C10: [formatDot] and [formatFlatJson] tell the root by its name: a node
    named [.] (the root or not) is not among the nodes whose paths they
    collect, and the path of a node below it is made of the names strictly
    below it only: the node named [.] and all its ancestors are left out. *)
Theorem C10_dot_named_node (h : heap) (root : addr) (t : shape) (d : addr) :
  tree h root t → d ∈ preorder t → node_name h d = js "." →
  (∃ paths,
     dot_collect h root = Ok paths
     ∧ Forall2 (λ x p, getFullPath h x = Ok p)
               (filter (listed h) (preorder t)) paths
     ∧ (d ∉ filter (listed h) (preorder t)))
  ∧ (∃ files directories,
       flatJson_collect h root = Ok (files, directories)
       ∧ Forall2 (λ x p, getFullPath h x = Ok p)
                 (filter (listed_file h) (preorder t)) files
       ∧ Forall2 (λ x p, getFullPath h x = Ok p)
                 (filter (listed_directory h) (preorder t)) directories
       ∧ (d ∉ filter (listed_file h) (preorder t))
       ∧ (d ∉ filter (listed_directory h) (preorder t)))
  ∧ (∀ x, below h d x →
       ∃ mid above,
         climbs h x (mid ++ d :: above)
         ∧ getFullPath h x = Ok (path_of h (upto_dot h (x :: mid)))).
Proof.
  intros Ht Hd Hname.
  assert (is_dot h d = true) as Hdot.
  { unfold is_dot. rewrite Hname. reflexivity. }
  split; [|split].
  - destruct (dot_collect_tree _ _ _ Ht) as (paths & ? & ?).
    exists paths. split; [done|]. split; [done|].
    rewrite list_elem_of_filter. unfold listed. intros [? _]. congruence.
  - destruct (flatJson_collect_tree _ _ _ Ht) as (fs & ds & ? & ? & ?).
    exists fs, ds. repeat (split; [done|]).
    rewrite !list_elem_of_filter. unfold listed_file, listed_directory.
    split; intros [[? _] _]; congruence.
  - intros x Hx.
    destruct (below_climbs _ _ _ _ _ Ht Hd Hx) as (Hin & mid & above & Hclimb).
    exists mid, above. split; [done|].
    destruct (tree_climbs _ _ _ _ Ht Hin) as (anc & Hanc & Hlen).
    rewrite (climbs_unique _ _ _ _ Hanc Hclimb) in Hlen.
    rewrite (getFullPath_climbs _ _ _ Hclimb Hlen).
    change (x :: mid ++ d :: above) with ((x :: mid) ++ d :: above).
    by rewrite (upto_dot_app h d (x :: mid) above Hdot).
Qed.

Lemma C10_witness :
  parseInput (js "a
  .
    b") = Ok (dotted_heap, 0)
  ∧ tree dotted_heap 0 dotted_shape
  ∧ 2 ∈ preorder dotted_shape
  ∧ node_name dotted_heap 2 = js "."
  ∧ below dotted_heap 2 3
  ∧ ∀ x, below dotted_heap 2 x →
      ∃ mid above,
        climbs dotted_heap x (mid ++ 2 :: above)
        ∧ getFullPath dotted_heap x
          = Ok (path_of dotted_heap (upto_dot dotted_heap (x :: mid))).
Proof.
  assert (tree dotted_heap 0 dotted_shape) as Ht.
  { split; [by_eval|]. split; [reflexivity|].
    apply NoDup_ListNoDup. repeat constructor; simpl; intuition congruence. }
  assert (2 ∈ preorder dotted_shape) as Hd.
  { apply list_elem_of_In. simpl. tauto. }
  split; [by_eval|]. split; [exact Ht|]. split; [exact Hd|].
  split; [by_eval|]. split.
  { eapply below_child; [reflexivity|]. simpl. apply list_elem_of_here. }
  apply (C10_dot_named_node dotted_heap 0 dotted_shape 2 Ht Hd eq_refl).
Defined.

(** ** The nested JSON away from the key [__proto__] *)

Lemma has_property_update (props : list (jsstring * json)) (k k' : jsstring)
    (v : json) :
  has_property (update_property props k v) k' = has_property props k'.
Proof.
  induction props as [|[k0 v0] ps IH]; simpl; [done|].
  destruct (str_eqb k0 k); simpl; [done|]. by rewrite IH.
Qed.

Lemma has_property_add (props : list (jsstring * json)) (k k' : jsstring)
    (v : json) :
  has_property (add_property props k v) k' = str_eqb k k' || has_property props k'.
Proof.
  induction props as [|[k0 v0] ps IH]; simpl; [done|].
  destruct (array_index k) as [n|]; [destruct (array_index k0) as [n0|]|];
    try destruct (n <? n0)%N; simpl; rewrite ?IH; try done;
    by destruct (str_eqb k k'), (str_eqb k0 k').
Qed.

Lemma has_property_assign (props : list (jsstring * json)) (k k' : jsstring)
    (v : json) :
  has_property (assign props k v) k' = str_eqb k k' || has_property props k'.
Proof.
  unfold assign. destruct (has_property props k) eqn:E.
  - rewrite has_property_update. destruct (str_eqb k k') eqn:Ek; [|done].
    apply str_eqb_eq in Ek as ->. by rewrite E.
  - apply has_property_add.
Qed.

Lemma get_property_update (props : list (jsstring * json)) (k k' : jsstring)
    (v : json) :
  has_property props k = true →
  get_property (update_property props k v) k'
  = if str_eqb k k' then Some v else get_property props k'.
Proof.
  induction props as [|[k0 v0] ps IH]; simpl; [done|].
  destruct (str_eqb k0 k) eqn:E0; simpl.
  - intros _. apply str_eqb_eq in E0 as ->. by destruct (str_eqb k k').
  - intros H. rewrite (IH H). destruct (str_eqb k0 k') eqn:E1; [|done].
    apply str_eqb_eq in E1 as ->. destruct (str_eqb k k') eqn:E2; [|done].
    apply str_eqb_eq in E2 as ->. by rewrite str_eqb_refl in E0.
Qed.

Lemma get_property_None (props : list (jsstring * json)) (k : jsstring) :
  has_property props k = false → get_property props k = None.
Proof.
  induction props as [|[k0 v0] ps IH]; simpl; [done|].
  destruct (str_eqb k0 k); simpl; [done|]. exact IH.
Qed.

Lemma get_property_add (props : list (jsstring * json)) (k k' : jsstring)
    (v : json) :
  has_property props k = false →
  get_property (add_property props k v) k'
  = if str_eqb k k' then Some v else get_property props k'.
Proof.
  induction props as [|[k0 v0] ps IH]; simpl; [done|].
  destruct (str_eqb k0 k) eqn:E0; simpl; [done|]. intros H.
  assert (str_eqb k k' = true → str_eqb k0 k' = false) as Hne.
  { intros ->%str_eqb_eq. exact E0. }
  destruct (array_index k) as [n|]; [destruct (array_index k0) as [n0|]|];
    try destruct (n <? n0)%N; simpl; rewrite ?(IH H); try done;
    destruct (str_eqb k k') eqn:E1; try done; by rewrite Hne.
Qed.

Lemma get_property_assign (props : list (jsstring * json)) (k k' : jsstring)
    (v : json) :
  get_property (assign props k v) k'
  = if str_eqb k k' then Some v else get_property props k'.
Proof.
  unfold assign. destruct (has_property props k) eqn:E.
  - by apply get_property_update.
  - by apply get_property_add.
Qed.

Lemma set_property_plain (props : list (jsstring * json)) (k : jsstring)
    (v : json) :
  k ≠ js "__proto__" → set_property (true, props) k v = (true, assign props k v).
Proof.
  intros Hk%str_eqb_neq. unfold set_property, assign. by rewrite Hk.
Qed.

(** On a tree without a node named [__proto__], [createNestedObject]
    computes the nested value of the spec. *)
Lemma createNestedObject_tree (h : heap) (t : shape) :
  ∀ p fuel,
    models h p t = true → node_count t ≤ fuel →
    (∀ x, x ∈ preorder t → node_name h x ≠ js "__proto__") →
    createNestedObject fuel h (addr_of t) = Ok (nested_value h t).
Proof.
  induction t as [a kids IH] using shape_ind'. intros p fuel Hm Hfuel Hnames.
  apply models_unfold in Hm as (nd & Ha & Hp & Hc & Hkids).
  unfold node_count in *. simpl in Hfuel. destruct fuel as [|fuel]; [lia|].
  cbn [addr_of createNestedObject]. read_node Ha. rewrite Hc.
  assert (∀ props,
    for_each (λ child result,
                deref h child ≫= λ cnd,
                createNestedObject fuel h child ≫= λ v,
                Ok (set_property result (name cnd) v))
             (map addr_of kids) (true, props)
    = Ok (true, fold_left (λ props k,
                  assign props (node_name h (addr_of k)) (nested_value h k))
                kids props)) as Hloop.
  { assert (length (concat (map preorder kids)) ≤ fuel) as Hle by lia.
    assert (∀ x, x ∈ concat (map preorder kids) → node_name h x ≠ js "__proto__")
      as Hnames'.
    { intros x Hx. apply Hnames. simpl. by right. }
    clear Hfuel Hnames Hc. revert Hle Hnames'.
    induction kids as [|k kids IHkids]; intros Hle Hnames props; [done|].
    apply Forall_cons in IH as [IHk IH].
    apply Forall_cons in Hkids as [Hk Hkids].
    simpl in Hle, Hnames. rewrite length_app in Hle.
    destruct (models_root _ _ _ Hk) as (knd & Hknd & _ & _).
    cbn [map for_each fold_left]. read_node Hknd.
    rewrite (IHk (Some a) fuel Hk); [|unfold node_count; lia|].
    2: { intros x Hx. apply Hnames, elem_of_app. by left. }
    cbn [mbind outcome_bind].
    rewrite set_property_plain, <- (node_name_lookup _ _ _ Hknd).
    2: { rewrite <- (node_name_lookup _ _ _ Hknd).
         apply Hnames, elem_of_app. left. apply addr_of_in_preorder. }
    apply IHkids; [done|done|lia|].
    intros x Hx. apply Hnames, elem_of_app. by right. }
  destruct kids as [|k1 kids1].
  { cbn [map nested_value]. rewrite (node_name_lookup _ _ _ Ha).
    by destruct (includes _ _). }
  unfold empty_object. cbn [map] in Hloop |- *. rewrite Hloop. done.
Qed.

Lemma fold_assign_keys (h : heap) (kids : list shape) :
  ∀ props k,
    has_property
      (fold_left (λ props k,
                    assign props (node_name h (addr_of k)) (nested_value h k))
                 kids props) k = true
    ↔ has_property props k = true
      ∨ ∃ kid, kid ∈ kids ∧ node_name h (addr_of kid) = k.
Proof.
  induction kids as [|kid kids IH]; intros props k; simpl.
  - split; [by left|]. intros [?|(? & H & _)]; [done|inversion H].
  - rewrite IH, has_property_assign, orb_true_iff, str_eqb_eq. split.
    + intros [[E|?]|(kid' & ? & ?)]; [right|by left|right].
      * exists kid. split; [left|done].
      * exists kid'. split; [by right|done].
    + intros [?|(kid' & [->|?]%elem_of_cons & ?)]; [by left; right|by left; left|].
      right. eauto.
Qed.

Lemma fold_assign_values (h : heap) (kids : list shape) :
  ∀ props k v,
    get_property
      (fold_left (λ props k,
                    assign props (node_name h (addr_of k)) (nested_value h k))
                 kids props) k = Some v →
    get_property props k = Some v
    ∨ ∃ kid, kid ∈ kids ∧ node_name h (addr_of kid) = k
             ∧ v = nested_value h kid.
Proof.
  induction kids as [|kid kids IH]; intros props k v; simpl; [by left|].
  intros [H|(kid' & ? & ? & ?)]%IH.
  - rewrite get_property_assign in H.
    destruct (str_eqb _ k) eqn:E; [|by left].
    apply str_eqb_eq in E. injection H as <-. right. exists kid.
    split; [left|done].
  - right. exists kid'. split; [by right|done].
Qed.

(** The nested JSON of a tree in which no node is named [__proto__]: the
    object printed has one key, the name of the root; under it every node
    without children is null, or the empty object when its name contains
    [dir], and every node with children is an object whose keys are the
    names of its children, each with the value of a child of that name. *)
Lemma formatNestedJson_tree (h : heap) (root : addr) (t : shape) :
  tree h root t →
  (∀ x, x ∈ preorder t → node_name h x ≠ js "__proto__") →
  nestedJsonObject h (Some root)
  = Ok (JObject true [(node_name h root, nested_value h t)])
  ∧ formatNestedJson h (Some root)
    = Ok (JSON_stringify (JObject true [(node_name h root, nested_value h t)]))
  ∧ ∀ a kids,
      nested_value h (Sh a kids)
      = match kids with
        | [] => if includes (node_name h a) (js "dir")
                then JObject true [] else JNull
        | _ =>
          JObject true
            (fold_left (λ props k,
                          assign props (node_name h (addr_of k))
                                 (nested_value h k))
                       kids [])
        end
      ∧ (∀ k, has_property
                (fold_left (λ props k,
                              assign props (node_name h (addr_of k))
                                     (nested_value h k))
                           kids []) k = true
              ↔ ∃ kid, kid ∈ kids ∧ node_name h (addr_of kid) = k)
      ∧ (∀ k v, get_property
                  (fold_left (λ props k,
                                assign props (node_name h (addr_of k))
                                       (nested_value h k))
                             kids []) k = Some v
                → ∃ kid, kid ∈ kids ∧ node_name h (addr_of kid) = k
                         ∧ v = nested_value h kid).
Proof.
  intros Ht Hnames. pose proof (tree_size_le _ _ _ Ht) as Hsize.
  destruct Ht as (Hm & Hroot & _).
  destruct (models_root _ _ _ Hm) as (nd & Hnd & _ & _).
  rewrite Hroot in Hnd.
  assert (nestedJsonObject h (Some root)
          = Ok (JObject true [(node_name h root, nested_value h t)])) as E.
  { unfold nestedJsonObject. read_node Hnd. rewrite <- Hroot at 1.
    rewrite (createNestedObject_tree h t None _ Hm Hsize Hnames).
    cbn [mbind outcome_bind]. unfold empty_object.
    rewrite set_property_plain.
    - by rewrite (node_name_lookup _ _ _ Hnd).
    - rewrite <- (node_name_lookup _ _ _ Hnd), <- Hroot.
      apply Hnames, addr_of_in_preorder. }
  split; [exact E|]. split.
  { unfold formatNestedJson. by rewrite E. }
  intros a kids. split; [reflexivity|]. split.
  - intros k. rewrite fold_assign_keys. simpl. split; [|by right].
    intros [?|?]; done.
  - intros k v [?|?]%fold_assign_values; done.
Qed.

(** ** The nested JSON *)

(** C5, at the input [a], [  __proto__], [  b]: the node [a] has two
    children, and the object that [formatNestedJson] builds for it has the
    key [b] only; the assignment under the key [__proto__] replaced the
    prototype of the object and added no property. *)
Theorem C5_proto_child_is_dropped :
  parseInput (js "a
  __proto__
  b") = Ok (proto_heap, 0)
  ∧ map (node_name proto_heap) (node_children proto_heap 1)
    = [js "__proto__"; js "b"]
  ∧ nestedJsonObject proto_heap (Some 0)
    = Ok (JObject true [(js ".", JObject true [(js "a", JObject false [(js "b", JNull)])])])
  ∧ formatNestedJson proto_heap (Some 0)
    = Ok (js "{
  " ++ [34%N] ++ js "." ++ [34%N] ++ js ": {
    " ++ [34%N] ++ js "a" ++ [34%N] ++ js ": {
      " ++ [34%N] ++ js "b" ++ [34%N] ++ js ": null
    }
  }
}").
Proof. by_eval. Qed.

(** ** The dispatcher *)

Lemma generateTree_absent_charset (h : heap) (structure : option addr)
    (options : GenerateTreeOptions) :
  charset options = None →
  generateTree h structure (Some options)
  = generateTree h structure (Some (with_charset options (js "utf-8"))).
Proof.
  destruct options as [cs slash full dot]. simpl. intros ->. reflexivity.
Qed.

(** For a format identifier that is none of the nine, [formatTree] hands
    the options of the caller to [generateTree] as they are.  When they
    carry no character set the tree is drawn with the default, utf-8. *)
Lemma formatTree_fallback_options (h : heap) (root : addr) (format : jsstring)
    (options : option GenerateTreeOptions) :
  format ∉ format_ids →
  formatTree h (Some root) format options
  = generateTree h (Some root) (Some (default no_options options))
  ∧ (charset (default no_options options) = None →
     formatTree h (Some root) format options
     = generateTree h (Some root)
         (Some (with_charset (default no_options options) (js "utf-8")))).
Proof.
  intros Hnot.
  assert (∀ id, id ∈ format_ids → str_eqb format id = false) as Hne.
  { intros id Hid. apply str_eqb_neq. intros ->. done. }
  assert (formatTree h (Some root) format options
          = generateTree h (Some root) (Some (default no_options options))) as E.
  { unfold formatTree.
    rewrite !Hne; [done|..]; unfold format_ids; apply list_elem_of_In; simpl; tauto. }
  split; [exact E|]. intros Hcs. rewrite E.
  by apply generateTree_absent_charset.
Qed.

(** The test [should use utf-8 for unknown format types], evaluated on the
    model: without options the fallback draws a utf-8 tree. *)
Lemma formatTree_fallback_without_options :
  formatTree small_heap (Some 0) (js "unknown-format") None
  = Ok (js ".
└── a
    └── b").
Proof. by_eval. Qed.


(** * Further properties of the parser and the renderers *)

(** ** The items of [splitInput] *)

Lemma leading_ws_prefix (l : jsstring) :
  l = leading_ws l ++ drop (length (leading_ws l)) l.
Proof.
  induction l as [|c l IH]; [done|]. simpl.
  destruct (is_ws c); [|done]. simpl. by rewrite <- IH.
Qed.

Lemma starts_with_app (p s : jsstring) : starts_with p (p ++ s) = true.
Proof.
  induction p as [|c p IH]; [done|]. simpl. by rewrite N.eqb_refl, IH.
Qed.

Lemma replace_prefix (p s : jsstring) : replace (p ++ s) p [] = s.
Proof.
  destruct p as [|c p].
  - simpl. by destruct s.
  - cbn [app replace]. change (c :: p ++ s) with ((c :: p) ++ s).
    rewrite starts_with_app. simpl. by rewrite drop_app_length.
Qed.

Lemma has_bullet_cases (rest : jsstring) :
  (∃ c rest', rest = 45%N :: c :: rest' ∧ is_ws c = true
              ∧ has_bullet rest = true)
  ∨ (has_bullet rest = false
     ∧ ∀ (A : Type) (x : N → A) (y : A),
         match rest with
         | 45%N :: c :: _ => if is_ws c then x c else y
         | _ => y
         end = y).
Proof.
  destruct rest as [|c [|d rest']].
  - right. done.
  - right. destruct c as [|p]; [done|].
    repeat (destruct p as [p|p|]; try done).
  - destruct c as [|p]; [by right|].
    repeat (destruct p as [p|p|]; try (by right)).
    simpl. destruct (is_ws d) eqn:E; [left; eauto|by right].
Qed.

Lemma split_line_item (index : nat) (line : jsstring) :
  ∃ s, split_line index line = Ok s ∧ item_of_line line s.
Proof.
  unfold split_line, leadingWhitespaceAndBullet, item_of_line.
  pose proof (leading_ws_prefix line) as Hline.
  remember (leading_ws line) as ws eqn:Hws.
  remember (drop (length ws) line) as rest eqn:Hrest.
  destruct (has_bullet_cases rest) as [(c & rest' & -> & Hc & Hb)|[Hb Hm]].
  - rewrite Hc, Hb. eexists. split; [reflexivity|]. exists [45%N; c].
    cbn [name children indentCount parent take].
    assert (replace line (ws ++ [45%N; c]) [] = rest') as ->.
    { rewrite Hline. change (45%N :: c :: rest') with ([45%N; c] ++ rest').
      rewrite app_assoc. apply replace_prefix. }
    done.
  - rewrite Hb.
    rewrite (Hm (option (jsstring * jsstring))
                (λ c, Some (ws ++ [45%N; c], ws)) (Some (ws, ws))).
    eexists. split; [reflexivity|]. exists [].
    cbn [name children indentCount parent app].
    assert (replace line ws [] = rest) as ->.
    { rewrite Hline. apply replace_prefix. }
    done.
Qed.

Lemma map_lines_items (lines : list jsstring) :
  ∀ index, ∃ ss, map_lines index lines = Ok ss ∧ Forall2 item_of_line lines ss.
Proof.
  induction lines as [|l ls IH]; intros index; simpl.
  - exists []. split; [done|constructor].
  - destruct (split_line_item index l) as (s & -> & Hs).
    destruct (IH (S index)) as (ss & -> & Hss).
    exists (s :: ss). split; [done|by constructor].
Qed.

(** X1: [splitInput] never throws: every line matches the pattern for the
    leading whitespace and the bullet.  It returns one item for each kept
    line, in order: the line is its leading whitespace, then a bullet (a
    dash and one whitespace character) when the rest of the line starts
    with one, then the name of the item; the indent of the item is the
    length of the leading whitespace, and the item has no children and no
    parent.  The kept lines are not blank and hold neither CR nor LF. *)
Theorem splitInput_items (input : jsstring) :
  ∃ structures,
    splitInput input = Ok structures
    ∧ Forall2 item_of_line (kept_lines input) structures
    ∧ Forall (λ l, onlyWhitespace l = false
                   ∧ Forall (λ c, is_newline c = false) l) (kept_lines input).
Proof.
  unfold splitInput, kept_lines.
  destruct (map_lines_items (filter (λ l, onlyWhitespace l = false)
                                    (newlineSplitter input [])) 0)
    as (ss & Hss & Hall).
  assert (Forall (λ l, onlyWhitespace l = false
                       ∧ Forall (λ c, is_newline c = false) l)
                 (filter (λ l, onlyWhitespace l = false)
                         (newlineSplitter input []))) as Hkept.
  { apply Forall_forall. intros l [Hl Hin]%list_elem_of_filter. split; [done|].
    pose proof (newlineSplitter_no_newline input [] ltac:(constructor)) as Hnn.
    rewrite Forall_forall in Hnn. by apply Hnn. }
  destruct (filter _ _) eqn:E.
  - exists []. split; [done|]. split; constructor.
  - eauto.
Qed.

(** ** Line endings *)

Lemma newlineSplitter_run (x : jsstring) :
  ∀ r cur, Forall (λ c, is_newline c = false) x →
           newlineSplitter (x ++ r) cur = newlineSplitter r (rev x ++ cur).
Proof.
  induction x as [|c x IH]; intros r cur Hx; [done|].
  apply Forall_cons in Hx as [Hc Hx]. cbn [app newlineSplitter].
  rewrite Hc, IH by done. simpl. by rewrite <- app_assoc.
Qed.

Lemma newlineSplitter_break (sep : jsstring) :
  ∀ r, Forall (λ c, is_newline c = true) sep →
       newlineSplitter (sep ++ r) [] = newlineSplitter r [].
Proof.
  induction sep as [|c sep IH]; intros r Hsep; [done|].
  apply Forall_cons in Hsep as [Hc Hsep]. cbn [app newlineSplitter].
  rewrite Hc. by apply IH.
Qed.

Lemma newlineSplitter_sep (sep : jsstring) (r cur : jsstring) :
  sep ≠ [] → Forall (λ c, is_newline c = true) sep →
  newlineSplitter (sep ++ r) cur
  = match cur with [] => [] | _ => [rev cur] end ++ newlineSplitter r [].
Proof.
  intros Hne Hsep. destruct sep as [|c sep]; [done|].
  apply Forall_cons in Hsep as [Hc Hsep]. cbn [app newlineSplitter].
  rewrite Hc, (newlineSplitter_break sep r Hsep). by destruct cur.
Qed.

Lemma newlineSplitter_join (sep : jsstring) (ls : list jsstring) :
  sep ≠ [] → Forall (λ c, is_newline c = true) sep →
  Forall (Forall (λ c, is_newline c = false)) ls →
  newlineSplitter (join sep ls) [] = filter (λ l, l ≠ []) ls.
Proof.
  intros Hne Hsep. induction 1 as [|x ls Hx Hls IH]; [done|].
  assert (∀ r, newlineSplitter (x ++ r) [] = newlineSplitter r (rev x)) as Hrun.
  { intros r. rewrite (newlineSplitter_run x r [] Hx). by rewrite app_nil_r. }
  destruct ls as [|y ls].
  - cbn [join]. rewrite <- (app_nil_r x) at 1. rewrite Hrun. simpl.
    rewrite filter_cons. destruct (decide (x ≠ [])) as [Hx'|Hx'].
    + destruct (rev x) eqn:E.
      * apply (f_equal (@rev N)) in E. rewrite rev_involutive in E. done.
      * rewrite <- E, rev_involutive. done.
    + assert (x = []) as -> by (by destruct x; [|exfalso; apply Hx']). done.
  - change (join sep (x :: y :: ls)) with (x ++ sep ++ join sep (y :: ls)).
    rewrite Hrun, (newlineSplitter_sep sep _ _ Hne Hsep), IH.
    rewrite (filter_cons (λ l, l ≠ []) x). destruct (decide (x ≠ [])) as [Hx'|Hx'].
    + destruct (rev x) eqn:E.
      * apply (f_equal (@rev N)) in E. rewrite rev_involutive in E. done.
      * rewrite <- E, rev_involutive. done.
    + assert (x = []) as -> by (by destruct x; [|exfalso; apply Hx']). done.
Qed.

Lemma filter_nonblank_nonempty (ls : list jsstring) :
  filter (λ l, onlyWhitespace l = false) (filter (λ l, l ≠ []) ls)
  = filter (λ l, onlyWhitespace l = false) ls.
Proof.
  induction ls as [|l ls IH]; [done|].
  rewrite (filter_cons (λ l, l ≠ [])). destruct (decide (l ≠ [])) as [Hl|Hl].
  - rewrite !filter_cons, IH. done.
  - assert (l = []) as -> by (by destruct l; [|exfalso; apply Hl]).
    rewrite IH. rewrite (filter_cons _ []). by destruct (decide _).
Qed.

Lemma join_nil_iff (sep : jsstring) (ls : list jsstring) :
  sep ≠ [] → join sep ls = [] ↔ ls = [] ∨ ls = [[]].
Proof.
  intros Hne. destruct ls as [|x [|y ls]]; simpl.
  - split; [by left|done].
  - split; [intros ->; by right|]. intros [|[= ->]]; done.
  - split.
    + intros H. apply app_eq_nil in H as [_ H]. apply app_eq_nil in H as [H _]. done.
    + intros [|]; done.
Qed.

(** X2: lines that hold neither CR nor LF, joined by a separator that is
    not empty and is made of CR and LF characters (LF, CR LF, CR, or several
    of them), are split again into those of them that are not blank:
    [splitInput] and [parseInput] give the same result whatever the
    separator is. *)
Theorem line_endings (sep : jsstring) (ls : list jsstring) :
  sep ≠ [] → Forall (λ c, is_newline c = true) sep →
  Forall (Forall (λ c, is_newline c = false)) ls →
  kept_lines (join sep ls) = filter (λ l, onlyWhitespace l = false) ls
  ∧ splitInput (join sep ls) = splitInput (join [10%N] ls)
  ∧ parseInput (join sep ls) = parseInput (join [10%N] ls).
Proof.
  intros Hne Hsep Hls.
  assert (∀ sep', sep' ≠ [] → Forall (λ c, is_newline c = true) sep' →
            kept_lines (join sep' ls) = filter (λ l, onlyWhitespace l = false) ls)
    as Hkept.
  { intros sep' Hne' Hsep'. unfold kept_lines.
    rewrite (newlineSplitter_join sep' ls Hne' Hsep' Hls).
    apply filter_nonblank_nonempty. }
  assert (kept_lines (join sep ls) = kept_lines (join [10%N] ls)) as Heq.
  { rewrite (Hkept sep Hne Hsep). symmetry. apply Hkept; [done|].
    by repeat constructor. }
  assert (splitInput (join sep ls) = splitInput (join [10%N] ls)) as Hsplit.
  { unfold splitInput. fold (kept_lines (join sep ls)).
    fold (kept_lines (join [10%N] ls)). by rewrite Heq. }
  split; [by apply Hkept|]. split; [exact Hsplit|].
  unfold parseInput. rewrite Hsplit.
  destruct (join sep ls) eqn:E1, (join [10%N] ls) eqn:E2; try done.
  - apply join_nil_iff in E1; [|done].
    assert (join [10%N] ls = []) as E by (by apply join_nil_iff).
    congruence.
  - apply join_nil_iff in E2; [|done].
    assert (join sep ls = []) as E by (by apply join_nil_iff).
    congruence.
Qed.

Lemma line_endings_witness :
  kept_lines (js "a" ++ [13%N; 10%N] ++ js "  b" ++ [13%N; 10%N] ++ [13%N; 10%N] ++ js "c")
  = [js "a"; js "  b"; js "c"]
  ∧ parseInput (js "a" ++ [13%N; 10%N] ++ js "  b" ++ [13%N; 10%N] ++ [13%N; 10%N] ++ js "c")
    = parseInput (js "a
  b

c").
Proof.
  destruct (line_endings [13%N; 10%N] [js "a"; js "  b"; []; js "c"])
    as (H1 & _ & H2).
  - done.
  - repeat constructor.
  - repeat constructor.
  - split; [exact H1|exact H2].
Defined.

(** ** The ancestor stack holds the nearest shallower nodes *)

Lemma node_indent_lookup (h : heap) (a : addr) (nd : FileStructure) :
  h !! a = Some nd → node_indent h a = indentCount nd.
Proof. intros H. unfold node_indent. by rewrite H. Qed.

Lemma node_indent_attach (h : heap) (c q a : addr) :
  node_indent (alter (set_parent q) c (alter (push_child c) q h)) a
  = node_indent h a.
Proof.
  unfold node_indent. rewrite !list_lookup_alter.
  repeat case_decide; subst; try done; destruct (h !! a); done.
Qed.

Lemma nearest_shallower_attach (h : heap) (c q a p : addr) :
  nearest_shallower (alter (set_parent q) c (alter (push_child c) q h)) a p
  ↔ nearest_shallower h a p.
Proof.
  unfold nearest_shallower. rewrite !node_indent_attach.
  split; intros (? & ? & H); repeat (split; [done|]); intros j Hj;
    specialize (H j Hj); by rewrite node_indent_attach in *.
Qed.

Lemma chain_attach (h : heap) (c q : addr) (path : list addr) :
  chain (alter (set_parent q) c (alter (push_child c) q h)) path ↔ chain h path.
Proof.
  induction path as [|x [|y rest] IH]; [done|done|].
  change (nearest_shallower
            (alter (set_parent q) c (alter (push_child c) q h)) x y
          ∧ chain (alter (set_parent q) c (alter (push_child c) q h)) (y :: rest)
          ↔ nearest_shallower h x y ∧ chain h (y :: rest)).
  by rewrite nearest_shallower_attach, IH.
Qed.

Lemma chain_tail (h : heap) (x : addr) (path : list addr) :
  chain h (x :: path) → chain h path.
Proof. destruct path; [done|]. by intros [_ ?]. Qed.

Lemma chain_drop (h : heap) (i : nat) :
  ∀ path, chain h path → chain h (drop i path).
Proof.
  induction i as [|i IH]; intros [|x path] H; try done.
  simpl. apply IH. by eapply chain_tail.
Qed.

Lemma chain_below (h : heap) (path : list addr) :
  ∀ x y, chain h (x :: path) → y ∈ path → y < x.
Proof.
  induction path as [|z path IH]; intros x y Hc Hy; [inversion Hy|].
  destruct Hc as [(Hzx & _) Hc].
  apply elem_of_cons in Hy as [->|Hy]; [done|].
  specialize (IH z y Hc Hy). lia.
Qed.

(** A node between an element of the stack and the top is indented at
    least as much as one of the elements above that one. *)
Lemma chain_cover (h : heap) (i : nat) :
  ∀ path x p rest j,
    chain h (x :: path) → drop i (x :: path) = p :: rest → p < j ≤ x →
    ∃ y, y ∈ take i (x :: path) ∧ (node_indent h y ≤ node_indent h j)%Z.
Proof.
  induction i as [|i IH]; intros path x p rest j Hc Hdrop Hj.
  - simpl in Hdrop. injection Hdrop as <- _. lia.
  - simpl in Hdrop. destruct path as [|y path]; [by rewrite drop_nil in Hdrop|].
    destruct Hc as [(Hyx & _ & Hbetween) Hc].
    destruct (decide (j = x)) as [->|Hne].
    { exists x. split; [simpl; left|lia]. }
    destruct (decide (y < j)) as [Hlt|Hge].
    { exists x. split; [simpl; left|]. apply Hbetween. lia. }
    destruct (IH path y p rest j Hc Hdrop) as (z & Hz & Hle); [lia|].
    exists z. split; [|done]. cbn [take]. by right.
Qed.

Lemma stack_init (structures : list FileStructure) :
  stack_inv 0 (initial_heap structures) [0].
Proof. split; [done|done|intros a Ha; lia]. Qed.

Lemma attach_stack (structures : list FileStructure) (k : nat) (h : heap)
    (path : list addr) (t : shape) (st : heap * list addr) :
  Forall fresh_item structures →
  parse_inv structures k h path t → stack_inv k h path →
  k < length structures →
  attach (h, path) (S k) = Ok st →
  stack_inv (S k) st.1 st.2.
Proof.
  intros Hfresh Hinv [Htop Hchain Hparents] Hk Hat.
  destruct (attach_inv _ _ _ _ _ Hfresh Hinv Hk)
    as (top & tnd & item & p & rest & Htop' & Htnd & Hs & Hitem & Hpop & _ & _ & _).
  assert (top = k) as -> by congruence.
  destruct path as [|x path0]; [done|]. injection Htop as ->.
  assert (Forall (λ a, is_Some (h !! a)) (k :: path0)) as Hvalid.
  { destruct Hinv as [_ _ _ Hm _ Hpath]. rewrite Hpath. rewrite Forall_forall.
    intros a Ha. eapply models_lookup; [exact Hm|]. apply spine_in_preorder.
    apply list_elem_of_In, in_rev, list_elem_of_In in Ha. exact Ha. }
  destruct (pop_path_drop h (indentCount item) _ Hvalid)
    as (i & Hpop' & Hpopped & Hhead).
  rewrite Hpop in Hpop'. injection Hpop' as Hdrop. symmetry in Hdrop.
  unfold attach in Hat. rewrite (deref_lookup _ _ _ Htnd), (deref_lookup _ _ _ Hs) in Hat.
  cbn [mbind outcome_bind] in Hat.
  destruct (jump_too_big _ _); [done|]. rewrite Hpop in Hat.
  cbn [mbind outcome_bind] in Hat. injection Hat as <-. cbn [fst snd].
  assert (p ∈ k :: path0) as Hp_in.
  { apply (list_elem_of_lookup_2 _ (i + 0)). rewrite <- lookup_drop, Hdrop. done. }
  assert (is_Some (h !! p)) as [pnd Hpnd].
  { rewrite Forall_forall in Hvalid. by apply Hvalid. }
  assert (p ≤ k) as Hp_le.
  { apply elem_of_cons in Hp_in as [->|Hp_in]; [done|].
    pose proof (chain_below _ _ _ _ Hchain Hp_in). lia. }
  assert (nearest_shallower h (S k) p) as Hnear.
  { split; [lia|]. rewrite (node_indent_lookup _ _ _ Hs).
    split.
    - rewrite (node_indent_lookup _ _ _ Hpnd). apply (Hhead p pnd); [|done].
      by rewrite Hdrop.
    - intros j Hj.
      destruct (chain_cover h i path0 k p rest j Hchain Hdrop) as (y & Hy & Hle);
        [lia|].
      assert (is_Some (h !! y)) as [ynd Hynd].
      { rewrite Forall_forall in Hvalid. apply Hvalid.
        by apply (subseteq_take i). }
      specialize (Hpopped y ynd Hy Hynd).
      rewrite (node_indent_lookup _ _ _ Hynd) in Hle. lia. }
  split.
  - done.
  - apply chain_attach. split; [done|]. rewrite <- Hdrop. by apply chain_drop.
  - intros a Ha. destruct (decide (a = S k)) as [->|Hne].
    + exists p. split; [|by apply nearest_shallower_attach].
      assert (p ≠ S k) as Hne by lia.
      unfold node_parent. rewrite (lookup_attach_child _ _ _ _ Hne Hs). done.
    + destruct (Hparents a ltac:(lia)) as (q & Hq & Hnq).
      exists q. split; [|by apply nearest_shallower_attach].
      unfold node_parent in *. rewrite !list_lookup_alter.
      repeat case_decide; subst; try lia; destruct (h !! a); done.
Qed.

Lemma build_stack (structures : list FileStructure) :
  Forall fresh_item structures →
  ∀ m k h path t st,
    parse_inv structures k h path t → stack_inv k h path →
    k + m ≤ length structures →
    build (seq (S k) m) (h, path) = Ok st →
    ∃ t', parse_inv structures (k + m) st.1 st.2 t'
          ∧ stack_inv (k + m) st.1 st.2.
Proof.
  intros Hfresh. induction m as [|m IH]; intros k h path t st Hinv Hst Hle Hb.
  - simpl in Hb. injection Hb as <-. rewrite Nat.add_0_r. eauto.
  - change (seq (S k) (S m)) with (S k :: seq (S (S k)) m) in Hb.
    cbn [build] in Hb. apply bind_Ok in Hb as ([h' path'] & Hat & Hb).
    pose proof (attach_stack structures k h path t _ Hfresh Hinv Hst
                  ltac:(lia) Hat) as Hst'.
    destruct (attach_inv structures k h path t Hfresh Hinv) as
      (top & tnd & item & p & rest & _ & _ & _ & _ & _ & _ & Hbad & Hgood); [lia|].
    destruct (jump_too_big (indentCount item) (indentCount tnd)).
    + rewrite Hbad in Hat by done. discriminate.
    + destruct (Hgood eq_refl) as (h2 & t2 & Hat2 & Hinv2).
      rewrite Hat2 in Hat. injection Hat as <- <-.
      replace (k + S m) with (S k + m) by lia.
      eapply IH; [exact Hinv2|exact Hst'|lia|exact Hb].
Qed.

Lemma parseInput_stack (input : jsstring) (h : heap) (root : addr) :
  parseInput input = Ok (h, root) →
  ∃ structures path t,
    splitInput input = Ok structures ∧ root = 0
    ∧ parse_inv structures (length structures) h path t
    ∧ stack_inv (length structures) h path.
Proof.
  intros Hparse.
  assert (input ≠ []) as Hne by (intros ->; discriminate).
  destruct (splitInput_total input) as (structures & Hsplit & _).
  rewrite (parseInput_unfold _ _ Hne Hsplit) in Hparse.
  apply bind_Ok in Hparse as ([h' path] & Hb & [= <- <-]).
  destruct (build_stack structures (splitInput_fresh _ _ Hsplit) _ _ _ _ _ _
              (inv_init structures) (stack_init structures) (Nat.le_refl _) Hb)
    as (t & Hinv & Hst).
  exists structures, path, t. done.
Qed.

(** X3: in the tree of [parseInput] the node at address [i + 1] is the item
    of the [i]-th kept line, and the parent of every node other than the
    root is the nearest earlier node with a strictly smaller indent: every
    node between the two is indented at least as much as the node
    itself. *)
Theorem parseInput_parent_is_nearest_shallower (input : jsstring) (h : heap)
    (root : addr) :
  parseInput input = Ok (h, root) →
  (∀ i line, kept_lines input !! i = Some line →
     ∃ nd, h !! S i = Some nd
           ∧ indentCount nd = Z.of_nat (length (leading_ws line)))
  ∧ ∀ a nd, h !! a = Some nd → a ≠ root →
      ∃ p pnd,
        parent nd = Some p ∧ h !! p = Some pnd ∧ p < a
        ∧ (indentCount pnd < indentCount nd)%Z
        ∧ ∀ j jnd, p < j < a → h !! j = Some jnd →
                   (indentCount nd ≤ indentCount jnd)%Z.
Proof.
  intros Hparse.
  destruct (parseInput_stack _ _ _ Hparse)
    as (structures & path & t & Hsplit & -> & Hinv & Hst).
  destruct Hinv as [Hlen Hstatic _ _ _ _]. destruct Hst as [_ _ Hparents].
  split.
  - intros i line Hline.
    destruct (splitInput_total input) as (ss & Hss & Hall).
    assert (ss = structures) as -> by congruence.
    destruct (Forall2_lookup_l _ _ _ _ _ Hall Hline) as (s & Hs & Hind).
    destruct (Hstatic (S i) s Hs) as (nd & Hnd & _ & Hi).
    exists nd. split; [done|]. congruence.
  - intros a nd Ha Hroot.
    assert (1 ≤ a ≤ length structures) as Hrange.
    { apply lookup_lt_Some in Ha. lia. }
    destruct (Hparents a Hrange) as (p & Hp & Hlt & Hind & Hbetween).
    unfold node_parent in Hp. rewrite Ha in Hp.
    assert (is_Some (h !! p)) as [pnd Hpnd].
    { apply lookup_lt_is_Some. apply lookup_lt_Some in Ha. lia. }
    exists p, pnd. rewrite (node_indent_lookup _ _ _ Ha) in Hind, Hbetween.
    rewrite (node_indent_lookup _ _ _ Hpnd) in Hind.
    repeat (split; [done|]).
    intros j jnd Hj Hjnd. rewrite <- (node_indent_lookup _ _ _ Hjnd). by apply Hbetween.
Qed.

Lemma parseInput_parent_witness :
  parseInput scenario_input = Ok (scenario_heap, 0)
  ∧ ∃ p pnd,
      Some 1 = Some p ∧ scenario_heap !! p = Some pnd ∧ p < 4
      ∧ (indentCount pnd < 2)%Z
      ∧ ∀ j jnd, p < j < 4 → scenario_heap !! j = Some jnd →
                 (2 ≤ indentCount jnd)%Z.
Proof.
  assert (parseInput scenario_input = Ok (scenario_heap, 0)) as E by by_eval.
  split; [exact E|].
  exact (proj2 (parseInput_parent_is_nearest_shallower _ _ _ E)
           4 (mkFS (js "package.json") [] 2 (Some 1)) eq_refl ltac:(discriminate)).
Defined.

(** ** The outcome of [parseInput] *)

Lemma build_first_jump (structures : list FileStructure) :
  Forall fresh_item structures →
  ∀ m k h path t,
    parse_inv structures k h path t → stack_inv k h path →
    k + m = length structures →
    match first_jump (node_indent h k) (drop k structures) with
    | Some s => build (seq (S k) m) (h, path) = Throw (badIndentation (name s))
    | None => ∃ st, build (seq (S k) m) (h, path) = Ok st
    end.
Proof.
  intros Hfresh. induction m as [|m IH]; intros k h path t Hinv Hst Hlen.
  - rewrite drop_ge by lia. simpl. eauto.
  - destruct (attach_inv structures k h path t Hfresh Hinv) as
      (top & tnd & item & p & rest & Htop & Htnd & Hs & Hitem & _ & _ & Hbad & Hgood);
      [lia|].
    assert (top = k) as ->.
    { destruct Hst as [Hk _ _]. congruence. }
    rewrite (drop_S _ _ _ Hitem). cbn [first_jump].
    rewrite (node_indent_lookup _ _ _ Htnd).
    change (seq (S k) (S m)) with (S k :: seq (S (S k)) m). cbn [build].
    destruct (jump_too_big (indentCount item) (indentCount tnd)).
    + by rewrite Hbad.
    + destruct (Hgood eq_refl) as (h' & t' & Hat & Hinv').
      pose proof (attach_stack structures k h path t _ Hfresh Hinv Hst
                    ltac:(lia) Hat) as Hst'.
      rewrite Hat. cbn [mbind outcome_bind].
      assert (node_indent h' (S k) = indentCount item) as Hind.
      { destruct (inv_static _ _ _ _ _ Hinv' (S k) item Hitem) as (nd & Hnd & _ & Hi).
        by rewrite (node_indent_lookup _ _ _ Hnd). }
      rewrite <- Hind. simpl in Hst'.
      apply (IH (S k) h' _ t' Hinv' Hst'). lia.
Qed.

Lemma parseInput_cases (input : jsstring) :
  ∃ structures,
    splitInput input = Ok structures
    ∧ match input, first_jump (-1) structures with
      | [], _ =>
        parseInput input = Throw (Error (js "Input must be a non-empty string"))
      | _, Some s =>
        parseInput input
        = Throw (Error (js "Bad indentation found at item: " ++ name s))
      | _, None => ∃ h, parseInput input = Ok (h, 0)
      end.
Proof.
  destruct (splitInput_total input) as (structures & Hsplit & _).
  exists structures. split; [done|].
  destruct input as [|c input]; [done|].
  assert (c :: input ≠ []) as Hne by done.
  rewrite (parseInput_unfold _ _ Hne Hsplit).
  pose proof (build_first_jump structures (splitInput_fresh _ _ Hsplit)
                (length structures) 0 _ _ _ (inv_init structures)
                (stack_init structures) eq_refl) as H.
  rewrite drop_0 in H. change (node_indent (initial_heap structures) 0) with (-1)%Z in H.
  destruct (first_jump (-1) structures) as [s|].
  - by rewrite H.
  - destruct H as [[h path] ->]. simpl. eauto.
Qed.

(** X4: the outcome of [parseInput] on every input.  The empty string
    raises the input error.  Otherwise the first item that is indented more
    than 2 deeper than the item before it raises the bad-indentation error
    with its name (the first item never does: the indent before it is the
    -1 of the root); when there is no such item [parseInput] returns a
    tree, rooted at address 0. *)
Theorem parseInput_outcome (input : jsstring) :
  ∃ structures,
    splitInput input = Ok structures
    ∧ match input, first_jump (-1) structures with
      | [], _ =>
        parseInput input = Throw (Error (js "Input must be a non-empty string"))
      | _, Some s =>
        parseInput input
        = Throw (Error (js "Bad indentation found at item: " ++ name s))
      | _, None => ∃ h, parseInput input = Ok (h, 0)
      end.
Proof. apply parseInput_cases. Qed.

(** ** The step of the indentation *)

Lemma first_jump_None (structures : list FileStructure) :
  Forall fresh_item structures →
  ∀ prev,
    first_jump prev structures = None →
    ∀ i s1 s2, structures !! i = Some s1 → structures !! S i = Some s2 →
               (indentCount s2 ≤ indentCount s1 + 2)%Z.
Proof.
  induction 1 as [|s ss Hs Hss IH]; intros prev Hnone i s1 s2 H1 H2; [done|].
  cbn [first_jump] in Hnone.
  destruct (jump_too_big (indentCount s) prev); [done|].
  destruct i as [|i].
  - injection H1 as <-. destruct ss as [|s' ss]; [done|].
    injection H2 as <-. cbn [first_jump] in Hnone.
    destruct (jump_too_big (indentCount s') (indentCount s)) eqn:E; [done|].
    unfold jump_too_big in E. apply andb_false_iff in E as [E|E].
    + apply Z.ltb_ge in E. lia.
    + apply negb_false_iff, Z.eqb_eq in E. destruct Hs as [Hs _]. lia.
  - by apply (IH _ Hnone i).
Qed.

(** X5: the step of the indentation in the tree of [parseInput]: a child
    is indented more than its parent, and by 2 at most when the parent is
    not the root (so a line that is indented by 4 more than the line it
    should hang under is refused or hangs elsewhere); the children of the
    root can have any indent. *)
Theorem parseInput_indent_step (input : jsstring) (h : heap) (root : addr) :
  parseInput input = Ok (h, root) →
  ∀ a nd p pnd,
    h !! a = Some nd → parent nd = Some p → h !! p = Some pnd →
    (indentCount pnd < indentCount nd)%Z
    ∧ (p ≠ root → (indentCount nd ≤ indentCount pnd + 2)%Z).
Proof.
  intros Hparse a nd p pnd Ha Hp Hpnd.
  destruct (parseInput_stack _ _ _ Hparse)
    as (structures & path & t & Hsplit & -> & Hinv & Hst).
  pose proof (splitInput_fresh _ _ Hsplit) as Hfresh.
  assert (first_jump (-1) structures = None) as Hnone.
  { destruct (parseInput_cases input) as (ss & Hss & Hcases).
    assert (ss = structures) as -> by congruence.
    destruct input as [|c input]; [discriminate Hparse|].
    destruct (first_jump (-1) structures); [congruence|done]. }
  pose proof (first_jump_None structures Hfresh _ Hnone) as Hsteps.
  destruct Hinv as [Hlen Hstatic Hnew Hm Hpre _]. destruct Hst as [_ _ Hparents].
  assert (∀ i s nd', structures !! i = Some s → h !! S i = Some nd' →
                     indentCount nd' = indentCount s) as Hind.
  { intros i s nd' Hs Hnd'. destruct (Hstatic (S i) s Hs) as (nd2 & ? & _ & ?).
    congruence. }
  assert (a ≠ 0) as Ha0.
  { intros ->. destruct (models_root _ _ _ Hm) as (rnd & Hr & Hrp & _).
    assert (addr_of t = 0) as E.
    { destruct (preorder_head t) as [l Hl]. rewrite Hl in Hpre. simpl in Hpre.
      congruence. }
    rewrite E in Hr. congruence. }
  assert (1 ≤ a ≤ length structures) as Hrange.
  { apply lookup_lt_Some in Ha. lia. }
  destruct (Hparents a Hrange) as (q & Hq & Hlt & Hless & Hbetween).
  unfold node_parent in Hq. rewrite Ha in Hq. assert (q = p) as -> by congruence.
  rewrite (node_indent_lookup _ _ _ Ha) in Hless, Hbetween.
  rewrite (node_indent_lookup _ _ _ Hpnd) in Hless.
  split; [exact Hless|]. intros Hp0.
  destruct p as [|i]; [done|]. clear Hp0.
  (* the node right after the parent *)
  assert (is_Some (structures !! i)) as [s1 Hs1].
  { apply lookup_lt_is_Some. apply lookup_lt_Some in Hpnd. lia. }
  assert (is_Some (structures !! S i)) as [s2 Hs2].
  { apply lookup_lt_is_Some. lia. }
  assert (is_Some (h !! S (S i))) as [rnd Hrnd].
  { apply lookup_lt_is_Some. lia. }
  pose proof (Hsteps i s1 s2 Hs1 Hs2) as Hstep.
  rewrite <- (Hind i s1 pnd Hs1 Hpnd), <- (Hind (S i) s2 rnd Hs2 Hrnd) in Hstep.
  destruct (decide (a = S (S i))) as [->|Hne].
  - assert (rnd = nd) as -> by congruence. exact Hstep.
  - specialize (Hbetween (S (S i)) ltac:(lia)).
    rewrite (node_indent_lookup _ _ _ Hrnd) in Hbetween. lia.
Qed.

Lemma parseInput_indent_step_witness :
  parseInput scenario_input = Ok (scenario_heap, 0)
  ∧ ∃ nd pnd,
      scenario_heap !! 4 = Some nd ∧ parent nd = Some 1
      ∧ scenario_heap !! 1 = Some pnd
      ∧ (indentCount pnd < indentCount nd)%Z
      ∧ (1 ≠ 0 → (indentCount nd ≤ indentCount pnd + 2)%Z).
Proof.
  assert (parseInput scenario_input = Ok (scenario_heap, 0)) as E by by_eval.
  split; [exact E|]. eexists _, _.
  split; [reflexivity|]. split; [reflexivity|]. split; [reflexivity|].
  exact (parseInput_indent_step scenario_input scenario_heap 0 E
           4 _ 1 _ eq_refl eq_refl eq_refl).
Defined.

(** ** The option [charset] *)

Lemma getName_charset (h : heap) (x : addr) (o o' : GenerateTreeOptions) :
  trailingDirSlash o = trailingDirSlash o' → fullPath o = fullPath o' →
  getName h x o = getName h x o'.
Proof. unfold getName. by intros -> ->. Qed.





(** ** The lines of [generateTree] *)

Lemma join_nil (l : list jsstring) : join [] l = concat l.
Proof.
  induction l as [|x l IH]; [done|]. simpl. destruct l as [|y l].
  - by rewrite app_nil_r.
  - by rewrite IH.
Qed.

Lemma isLastChild_is_last (h : heap) (x : addr) (anc : list addr) :
  climbs h x anc → isLastChild h x = Ok (is_last h x).
Proof.
  intros Hclimb. unfold isLastChild, is_last, node_parent, node_children.
  destruct anc as [|p anc].
  - destruct Hclimb as (nd & Hx & Hp). read_node Hx. by rewrite Hx, Hp.
  - destruct Hclimb as [(nd & Hx & Hp) Hclimb].
    destruct (climbs_lookup _ _ _ Hclimb) as (pnd & Hpnd & _).
    read_node Hx. rewrite Hx, Hp. read_node Hpnd. rewrite Hpnd.
    by destruct (last (children pnd)).
Qed.

Lemma ancestor_chunks_guides (h : heap) (lines : LineStringSet) (anc : list addr) :
  ∀ x fuel chunks,
    climbs h x anc → length anc ≤ fuel →
    ancestor_chunks fuel h lines (Some x) chunks
    = Ok (guides h lines (x :: anc) ++ chunks).
Proof.
  induction anc as [|p anc IH]; intros x fuel chunks Hclimb Hfuel.
  - destruct Hclimb as (nd & Hx & Hp). destruct fuel; cbn [ancestor_chunks];
      rewrite (deref_lookup _ _ _ Hx); cbn [mbind outcome_bind]; by rewrite Hp.
  - destruct fuel as [|fuel]; [simpl in Hfuel; lia|].
    pose proof (isLastChild_is_last _ _ _ Hclimb) as Hlast.
    destruct Hclimb as [(nd & Hx & Hp) Hclimb].
    cbn [ancestor_chunks]. read_node Hx. rewrite Hp, Hlast.
    cbn [mbind outcome_bind].
    rewrite IH; [|done|simpl in Hfuel; lia].
    change (guides h lines (x :: p :: anc))
      with (guides h lines (p :: anc)
            ++ [if is_last h x then EMPTY lines else DIRECTORY lines]).
    by rewrite <- app_assoc.
Qed.

Lemma LINE_STRINGS_length (c : jsstring) (lines : LineStringSet) :
  LINE_STRINGS c = Some lines →
  length (CHILD lines) = 4 ∧ length (LAST_CHILD lines) = 4
  ∧ length (DIRECTORY lines) = 4 ∧ length (EMPTY lines) = 4.
Proof.
  unfold LINE_STRINGS.
  destruct (str_eqb c (js "ascii")); [intros [= <-]; by_eval|].
  destruct (str_eqb c (js "utf-8")); [intros [= <-]; by_eval|done].
Qed.

Lemma guides_length (h : heap) (c : jsstring) (lines : LineStringSet)
    (chain : list addr) :
  LINE_STRINGS c = Some lines →
  length (concat (guides h lines chain)) = 4 * (length chain - 1).
Proof.
  intros (_ & _ & Hd & He)%LINE_STRINGS_length.
  induction chain as [|a [|b rest] IH]; [done|done|].
  change (guides h lines (a :: b :: rest))
    with (guides h lines (b :: rest)
          ++ [if is_last h a then EMPTY lines else DIRECTORY lines]).
  rewrite concat_app, length_app, IH. simpl.
  destruct (is_last h a); rewrite length_app; simpl; lia.
Qed.

(** The line of a node below the root. *)
Lemma getAsciiLine_layout (h : heap) (x p : addr) (anc : list addr)
    (options : GenerateTreeOptions) (lines : LineStringSet) :
  LINE_STRINGS (charset_or_default options) = Some lines →
  climbs h x (p :: anc) → length (p :: anc) < length h →
  ∃ nm,
    getName h x options = Ok nm
    ∧ getAsciiLine h x options
      = Ok (Some (drop (if truthy (rootDot options) then 0 else 4)
                       (concat (guides h lines (p :: anc))
                        ++ (if is_last h x then LAST_CHILD lines else CHILD lines)
                        ++ nm))).
Proof.
  intros Hcs Hclimb Hlen. unfold getAsciiLine. rewrite Hcs.
  pose proof (isLastChild_is_last _ _ _ Hclimb) as Hlast.
  destruct (getName_climbs _ _ _ options Hclimb Hlen) as [nm Hnm].
  exists nm. split; [done|].
  destruct (LINE_STRINGS_length _ _ Hcs) as (Hchild & _).
  destruct Hclimb as [(nd & Hx & Hp) Hclimb].
  read_node Hx. rewrite Hp, Hlast. cbn [mbind outcome_bind]. rewrite Hnm.
  cbn [mbind outcome_bind].
  rewrite (ancestor_chunks_guides h lines anc p (length h));
    [|done|simpl in Hlen; lia].
  cbn [mbind outcome_bind]. rewrite join_nil, concat_app, Hchild. simpl.
  by rewrite app_nil_r.
Qed.

Lemma for_each_emit_lines (h : heap) (options : GenerateTreeOptions)
    (l : list addr) :
  ∀ lines,
    Forall (λ x, ∃ line, getAsciiLine h x options = Ok (Some line)) l →
    ∃ new, for_each (emit h options) l lines = Ok (lines ++ new)
           ∧ Forall2 (λ x line, getAsciiLine h x options = Ok (Some line)) l new.
Proof.
  induction l as [|x l IH]; intros lines Hall.
  - exists []. rewrite app_nil_r. split; [done|constructor].
  - apply Forall_cons in Hall as [[line Hline] Hall].
    cbn [for_each].
    change (emit h options x lines)
      with (getAsciiLine h x options
            ≫= λ line, Ok (match line with
                            | Some l => lines ++ [l]
                            | None => lines
                            end)).
    rewrite Hline. cbn [mbind outcome_bind].
    destruct (IH (lines ++ [line]) Hall) as (new & -> & Hnew).
    exists (line :: new). rewrite <- app_assoc. split; [done|by constructor].
Qed.

Lemma tree_inner_climbs (h : heap) (root : addr) (t : shape) (x : addr) :
  tree h root t → x ∈ preorder t → x ≠ root →
  ∃ p anc, climbs h x (p :: anc) ∧ length (p :: anc) < length h.
Proof.
  intros Ht Hx Hne. pose proof Ht as (Hm & Hroot & _).
  destruct (tree_climbs h root t x Ht Hx) as (anc & Hanc & Hlen).
  destruct anc as [|p anc]; [|eauto].
  destruct (models_parent _ _ _ _ Hm Hx) as (q & _ & nd & _ & _ & _ & Hxnd & Hp).
  { by rewrite Hroot. }
  destruct Hanc as (nd' & Hxnd' & Hp'). congruence.
Qed.

(** The loop of [generateTree] on a tree: the lines of the nodes in
    preorder. *)
Lemma generateTree_lines_preorder (h : heap) (root : addr) (t : shape)
    (options : option GenerateTreeOptions) (lines : LineStringSet) :
  tree h root t →
  LINE_STRINGS (charset_or_default
                  (spread defaultOptions (default no_options options)))
  = Some lines →
  ∃ out,
    generateTree_lines h (Some root) options = Ok out
    ∧ Forall2 (λ x line,
                 getAsciiLine h x
                   (spread defaultOptions (default no_options options))
                 = Ok (Some line))
              (shown (spread defaultOptions (default no_options options)) t) out.
Proof.
  intros Ht Hcs. pose proof (tree_size_le _ _ _ Ht) as Hsize.
  pose proof Ht as (Hm & Hroot & Hnd).
  unfold generateTree_lines, shown.
  set (o := spread defaultOptions (default no_options options)) in *.
  pose proof (generateTree_loop_forest h o (node_count t) [t] [] (length h) []) as Hloop.
  unfold forest_size in Hloop. simpl in Hloop. rewrite !app_nil_r in Hloop.
  rewrite Hroot in Hloop. rewrite Hloop; [|done|by constructor; eauto|done].
  clear Hloop. unfold node_count in *.
  assert (Forall (λ x, ∃ line, getAsciiLine h x o = Ok (Some line))
                 (tail (preorder t))) as Hall.
  { rewrite Forall_forall. intros x Hx.
    destruct t as [a kids]. simpl in Hroot, Hnd, Hx. subst a.
    apply NoDup_cons in Hnd as [Hnotin _].
    assert (x ∈ preorder (Sh root kids)) as Hx' by (simpl; by right).
    destruct (tree_inner_climbs h root _ x Ht Hx') as (p & anc & Hanc & Hlen).
    { intros ->. done. }
    eapply getAsciiLine_inner; eauto. }
  destruct t as [a kids]. simpl in Hroot. subst a.
  cbn [preorder tail for_each] in Hall |- *.
  assert (climbs h root []) as Hclimb_root.
  { destruct (models_root _ _ _ Hm) as (nd & ? & ? & _). exists nd. done. }
  change (emit h o root [])
    with (getAsciiLine h root o
          ≫= λ line, Ok (match line with
                          | Some l => [] ++ [l]
                          | None => []
                          end)).
  pose proof (getAsciiLine_root _ _ _ _ Hcs Hclimb_root) as Hrootline.
  rewrite Hrootline. cbn [mbind outcome_bind].
  destruct (truthy (rootDot o)) eqn:Hdot.
  - destruct (for_each_emit_lines h o _ ([] ++ [node_name h root]) Hall)
      as (new & -> & Hnew).
    cbn [mbind outcome_bind]. rewrite generateTree_loop_nil.
    exists (node_name h root :: new). split; [done|]. by constructor.
  - destruct (for_each_emit_lines h o _ [] Hall) as (new & -> & Hnew).
    cbn [mbind outcome_bind]. rewrite generateTree_loop_nil.
    exists new. done.
Qed.

(** X7: on a tree, with a known character set, the lines that
    [generateTree] joins with newlines are the lines of [getAsciiLine] for
    the nodes in preorder (a node before its children, the children in the
    order of the [children] array), without the root when [rootDot] is off;
    with [rootDot] on the first line is the name of the root. *)
Theorem generateTree_document_order (h : heap) (root : addr) (t : shape)
    (options : GenerateTreeOptions) :
  tree h root t →
  is_Some (LINE_STRINGS (charset_or_default (spread defaultOptions options))) →
  ∃ out,
    generateTree h (Some root) (Some options) = Ok (join [10%N] out)
    ∧ Forall2 (λ x line,
                 getAsciiLine h x (spread defaultOptions options)
                 = Ok (Some line))
              (if truthy (rootDot (spread defaultOptions options))
               then preorder t else tail (preorder t)) out
    ∧ (truthy (rootDot (spread defaultOptions options)) = true →
       head out = Some (node_name h root)).
Proof.
  intros Ht [lines Hcs].
  destruct (generateTree_lines_preorder h root t (Some options) lines Ht Hcs)
    as (out & Hout & Hall).
  exists out. split; [|split].
  - unfold generateTree. by rewrite Hout.
  - exact Hall.
  - intros Hdot. unfold shown in Hall. simpl in Hall, Hdot. rewrite Hdot in Hall.
    destruct Ht as (Hm & Hroot & _).
    destruct t as [a kids]. simpl in Hroot. subst a. simpl in Hall.
    inversion Hall as [|x line l out' Hline Hrest]; subst.
    assert (climbs h root []) as Hclimb_root.
    { destruct (models_root _ _ _ Hm) as (nd & ? & ? & _). exists nd. done. }
    rewrite (getAsciiLine_root _ _ _ _ Hcs Hclimb_root) in Hline.
    simpl in Hline. rewrite Hdot in Hline. by injection Hline as <-.
Qed.

Lemma generateTree_document_order_witness :
  ∃ out,
    generateTree scenario_heap (Some 0)
      (Some (mkOptions (Some (js "ascii")) None None (Some false)))
    = Ok (join [10%N] out)
    ∧ Forall2 (λ x line,
                 getAsciiLine scenario_heap x
                   (spread defaultOptions
                      (mkOptions (Some (js "ascii")) None None (Some false)))
                 = Ok (Some line))
              [1; 2; 3; 4] out.
Proof.
  destruct (generateTree_document_order scenario_heap 0 scenario_shape
              (mkOptions (Some (js "ascii")) None None (Some false))
              scenario_tree)
    as (out & Hout & Hall & _).
  - by eexists.
  - exists out. split; [exact Hout|exact Hall].
Defined.

Lemma climbs_ends_at_root (h : heap) (root : addr) (t : shape) :
  tree h root t →
  ∀ anc x, x ∈ preorder t → climbs h x anc →
           last (x :: anc) = Some root ∧ Forall (λ a, a ∈ preorder t) anc.
Proof.
  intros (Hm & Hroot & _).
  destruct (models_root _ _ _ Hm) as (rnd & Hrnd & Hrp & _). rewrite Hroot in Hrnd.
  induction anc as [|p anc IH]; intros x Hx Hclimb.
  - destruct Hclimb as (nd & Hnd & Hp). split; [|constructor].
    destruct (decide (x = root)) as [->|Hne]; [done|].
    destruct (models_parent _ _ _ _ Hm Hx) as (q & _ & nd' & _ & _ & _ & Hnd' & Hq).
    { by rewrite Hroot. }
    congruence.
  - destruct Hclimb as [(nd & Hnd & Hp) Hclimb].
    assert (x ≠ root) as Hne by (intros ->; congruence).
    destruct (models_parent _ _ _ _ Hm Hx) as (q & _ & nd' & Hq & _ & _ & Hnd' & Hq').
    { by rewrite Hroot. }
    assert (q = p) as -> by congruence.
    destruct (IH p Hq Hclimb) as [Hlast Hall].
    split; [|by constructor]. rewrite <- Hlast. done.
Qed.

(** X8: the line of a node of a tree other than the root is a gutter and
    then the name as [getName] renders it.  The gutter has one guide for
    each ancestor below the root, the outermost first (blank when that
    ancestor is the last child of its parent, a vertical line otherwise),
    and then the connector of the node (the one for a last child exactly
    when the node is the last child of its parent); it is 4 columns wide
    for each ancestor of the node, and its first 4 columns are dropped
    when [rootDot] is off. *)
Theorem getAsciiLine_gutter (h : heap) (root : addr) (t : shape) (x : addr)
    (options : GenerateTreeOptions) (lines : LineStringSet) :
  tree h root t → x ∈ preorder t → x ≠ root →
  LINE_STRINGS (charset_or_default options) = Some lines →
  ∃ anc nm gutter,
    climbs h x anc ∧ last anc = Some root
    ∧ getName h x options = Ok nm
    ∧ gutter = concat (guides h lines anc)
               ++ (if is_last h x then LAST_CHILD lines else CHILD lines)
    ∧ length gutter = 4 * length anc
    ∧ getAsciiLine h x options
      = Ok (Some (if truthy (rootDot options) then gutter ++ nm
                  else drop 4 gutter ++ nm)).
Proof.
  intros Ht Hx Hne Hcs.
  destruct (tree_inner_climbs h root t x Ht Hx Hne) as (p & anc & Hclimb & Hlen).
  destruct (getAsciiLine_layout h x p anc options lines Hcs Hclimb Hlen)
    as (nm & Hnm & Hline).
  exists (p :: anc), nm. eexists. split; [done|]. split.
  { destruct (climbs_ends_at_root h root t Ht _ x Hx Hclimb) as [Hlast _].
    rewrite <- Hlast. done. }
  split; [done|]. split; [reflexivity|].
  assert (length (concat (guides h lines (p :: anc))
                  ++ (if is_last h x then LAST_CHILD lines else CHILD lines))
          = 4 * length (p :: anc)) as Hgl.
  { rewrite length_app, (guides_length h _ lines (p :: anc) Hcs).
    destruct (LINE_STRINGS_length _ _ Hcs) as (Hc & Hl & _).
    destruct (is_last h x); simpl; lia. }
  split; [exact Hgl|].
  rewrite Hline. destruct (truthy (rootDot options)).
  - by rewrite drop_0, app_assoc.
  - rewrite app_assoc, drop_app_le; [done|]. rewrite Hgl. simpl. lia.
Qed.

Lemma getAsciiLine_gutter_witness :
  ∃ anc nm gutter,
    climbs scenario_heap 3 anc ∧ last anc = Some 0
    ∧ getName scenario_heap 3 defaultOptions = Ok nm
    ∧ gutter = concat (guides scenario_heap
                         (mkLines (js "├── ") (js "└── ") (js "│   ") (js "    "))
                         anc)
               ++ (if is_last scenario_heap 3 then js "└── " else js "├── ")
    ∧ length gutter = 4 * length anc
    ∧ getAsciiLine scenario_heap 3 defaultOptions
      = Ok (Some (if truthy (rootDot defaultOptions) then gutter ++ nm
                  else drop 4 gutter ++ nm)).
Proof.
  apply (getAsciiLine_gutter scenario_heap 0
           scenario_shape 3 defaultOptions).
  - exact scenario_tree.
  - apply list_elem_of_In. simpl. tauto.
  - discriminate.
  - reflexivity.
Defined.

Lemma Forall2_emit_rootDot (h : heap) (o o' : GenerateTreeOptions)
    (lines : LineStringSet) (l : list addr) :
  LINE_STRINGS (charset_or_default o) = Some lines →
  charset_or_default o = charset_or_default o' →
  trailingDirSlash o = trailingDirSlash o' → fullPath o = fullPath o' →
  truthy (rootDot o) = true → truthy (rootDot o') = false →
  Forall (λ x, ∃ p anc, climbs h x (p :: anc) ∧ length (p :: anc) < length h) l →
  ∀ out out',
    Forall2 (λ x line, getAsciiLine h x o = Ok (Some line)) l out →
    Forall2 (λ x line, getAsciiLine h x o' = Ok (Some line)) l out' →
    out' = map (drop 4) out.
Proof.
  intros Hcs Hc Hs Hf Hon Hoff Hall out out' H. revert out'.
  induction H as [|x line l out Hline _ IH]; intros out' H'.
  - by inversion H'.
  - inversion H' as [|? line' ? out'' Hline' Hrest]; subst.
    apply Forall_cons in Hall as [(p & anc & Hclimb & Hlen) Hall].
    destruct (getAsciiLine_layout h x p anc o lines Hcs Hclimb Hlen)
      as (nm & Hnm & E).
    assert (LINE_STRINGS (charset_or_default o') = Some lines) as Hcs'
      by (by rewrite <- Hc).
    destruct (getAsciiLine_layout h x p anc o' lines Hcs' Hclimb Hlen)
      as (nm' & Hnm' & E').
    rewrite (getName_charset h x o o' Hs Hf) in Hnm.
    assert (nm' = nm) as -> by congruence.
    rewrite Hon in E. rewrite Hoff in E'.
    rewrite E in Hline. rewrite E' in Hline'.
    injection Hline as <-. injection Hline' as <-.
    rewrite drop_0. simpl. f_equal. by apply IH.
Qed.

(** X9: with [rootDot] off [generateTree] gives the lines that it gives
    with [rootDot] on, without the first one (the name of the root), each
    without its first 4 columns. *)
Theorem generateTree_rootDot_off (h : heap) (root : addr) (t : shape)
    (options : GenerateTreeOptions) :
  tree h root t →
  is_Some (LINE_STRINGS (charset_or_default (spread defaultOptions options))) →
  ∃ out,
    generateTree_lines h (Some root) (Some (with_rootDot options true)) = Ok out
    ∧ head out = Some (node_name h root)
    ∧ generateTree_lines h (Some root) (Some (with_rootDot options false))
      = Ok (map (drop 4) (tail out)).
Proof.
  intros Ht [lines Hcs].
  destruct (generateTree_lines_preorder h root t
              (Some (with_rootDot options true)) lines Ht Hcs)
    as (out & Hout & Hall).
  destruct (generateTree_lines_preorder h root t
              (Some (with_rootDot options false)) lines Ht Hcs)
    as (out' & Hout' & Hall').
  exists out. split; [done|].
  unfold shown in Hall, Hall'. cbn [default] in Hall, Hall'.
  change (truthy (rootDot (spread defaultOptions (with_rootDot options true))))
    with true in Hall.
  change (truthy (rootDot (spread defaultOptions (with_rootDot options false))))
    with false in Hall'.
  cbv iota in Hall, Hall'.
  pose proof Ht as (Hm & Hroot & Hnd).
  destruct t as [a kids]. simpl in Hroot. subst a.
  cbn [preorder tail] in Hall, Hall'.
  inversion Hall as [|x line l rest Hline Hrest]; subst.
  assert (climbs h root []) as Hclimb_root.
  { destruct (models_root _ _ _ Hm) as (nd & ? & ? & _). exists nd. done. }
  pose proof (getAsciiLine_root h root
                (spread defaultOptions (with_rootDot options true)) lines
                Hcs Hclimb_root) as Hr.
  assert (Ok (Some line) = Ok (Some (node_name h root)) :> outcome (option jsstring))
    as [= ->].
  { etrans; [symmetry; exact Hline|exact Hr]. }
  split; [done|].
  rewrite Hout'. f_equal. cbn [tail].
  assert (Forall (λ x, ∃ p anc, climbs h x (p :: anc)
                                ∧ length (p :: anc) < length h)
                 (concat (map preorder kids))) as Hclimbs.
  { rewrite Forall_forall. intros x Hx.
    apply (tree_inner_climbs h root (Sh root kids) x Ht).
    - simpl. by right.
    - intros ->. simpl in Hnd. apply NoDup_cons in Hnd as [Hnotin _]. done. }
  exact (Forall2_emit_rootDot h
           (spread defaultOptions (with_rootDot options true))
           (spread defaultOptions (with_rootDot options false))
           lines _ Hcs eq_refl eq_refl eq_refl eq_refl eq_refl Hclimbs
           _ _ Hrest Hall').
Qed.

Lemma generateTree_rootDot_off_witness :
  generateTree_lines scenario_heap (Some 0)
    (Some (with_rootDot (mkOptions (Some (js "ascii")) None None None) false))
  = Ok (map (drop 4) [js "`-- app"; js "    |-- src"; js "    |   `-- index.js";
                      js "    `-- package.json"]).
Proof.
  destruct (generateTree_rootDot_off scenario_heap 0
              scenario_shape
              (mkOptions (Some (js "ascii")) None None None))
    as (out & Hout & _ & Hoff).
  - exact scenario_tree.
  - by eexists.
  - rewrite Hoff. f_equal. f_equal.
    assert (Ok out = Ok (js "." :: [js "`-- app"; js "    |-- src";
                             js "    |   `-- index.js";
                             js "    `-- package.json"])
            :> outcome (list jsstring)) as [= ->].
    { rewrite <- Hout. by_eval. }
    reflexivity.
Defined.

(** ** The rendered name *)

Lemma join_snoc (sep : jsstring) (l : list jsstring) (x : jsstring) :
  join sep (l ++ [x])
  = match l with
    | [] => x
    | _ => join sep l ++ sep ++ x
    end.
Proof.
  induction l as [|y l IH]; [done|].
  destruct l as [|z l]; [done|].
  change (join sep ((y :: z :: l) ++ [x]))
    with (y ++ sep ++ join sep ((z :: l) ++ [x])).
  rewrite IH. change (join sep (y :: z :: l)) with (y ++ sep ++ join sep (z :: l)).
  by rewrite <- !app_assoc.
Qed.

(** X10: with [fullPath] on and [trailingDirSlash] off, the name that
    [getName] renders for a node of a tree that is not named [.] is the
    path that [getFullPath] of [tree-formatters.ts] computes for it. *)
Theorem getName_fullPath (h : heap) (root : addr) (t : shape) (x : addr)
    (options : GenerateTreeOptions) :
  tree h root t → x ∈ preorder t → node_name h x ≠ js "." →
  fullPath options = Some true → truthy (trailingDirSlash options) = false →
  ∃ path, getFullPath h x = Ok path ∧ getName h x options = Ok path.
Proof.
  intros Ht Hx Hname Hfull Hslash.
  destruct (tree_climbs h root t x Ht Hx) as (anc & Hclimb & Hlen).
  rewrite (getFullPath_climbs _ _ _ Hclimb Hlen). eexists. split; [reflexivity|].
  destruct (climbs_lookup _ _ _ Hclimb) as (nd & Hnd & Hp).
  assert (is_dot h x = false) as Hdot.
  { unfold is_dot. by apply str_eqb_neq. }
  unfold getName. read_node Hnd. rewrite Hslash, Hfull. cbn [truthy andb].
  unfold path_of.
  change (upto_dot h (x :: anc)) with (if is_dot h x then [] else x :: upto_dot h anc).
  rewrite Hdot. cbn [map rev]. rewrite (node_name_lookup _ _ _ Hnd).
  destruct anc as [|p anc].
  - simpl in Hp. rewrite Hp. simpl. done.
  - simpl in Hp. rewrite Hp. destruct Hclimb as [_ Hclimb].
    rewrite bool_decide_true by eauto.
    rewrite (collect_path_climbs _ _ _ _ _ Hclimb); [|simpl in Hlen; lia].
    cbn [mbind outcome_bind]. rewrite app_nil_r, join_snoc.
    destruct (rev (map (node_name h) (upto_dot h (p :: anc)))) as [|y l].
    + done.
    + cbn [mbind outcome_bind]. rewrite join_nil. cbn [concat].
      by rewrite app_nil_r, <- app_assoc.
Qed.

Lemma getName_fullPath_witness :
  getFullPath scenario_heap 3 = Ok (js "app/src/index.js")
  ∧ getName scenario_heap 3 (mkOptions None None (Some true) None)
    = Ok (js "app/src/index.js").
Proof.
  destruct (getName_fullPath scenario_heap 0
              scenario_shape 3
              (mkOptions None None (Some true) None))
    as (path & Hfull & Hname).
  - exact scenario_tree.
  - apply list_elem_of_In. simpl. tauto.
  - discriminate.
  - reflexivity.
  - reflexivity.
  - assert (Ok path = Ok (js "app/src/index.js") :> outcome jsstring) as [= ->].
    { rewrite <- Hfull. by_eval. }
    split; [by_eval|exact Hname].
Defined.

Lemma skip_ws_app (l m r : jsstring) (c : N) :
  skip_ws l = c :: r → skip_ws (l ++ m) = c :: r ++ m.
Proof.
  induction l as [|d l IH]; [done|]. simpl.
  destruct (is_ws d); [exact IH|]. by intros [= -> ->].
Qed.

Lemma has_trailing_slash_app (pre s : jsstring) :
  has_trailing_slash s = true → has_trailing_slash (pre ++ s) = true.
Proof.
  unfold has_trailing_slash. rewrite rev_app_distr.
  destruct (skip_ws (rev s)) as [|c r] eqn:E; [done|].
  rewrite (skip_ws_app _ (rev pre) _ _ E). done.
Qed.

Lemma has_trailing_slash_slash (s : jsstring) :
  has_trailing_slash (s ++ js "/") = true.
Proof. unfold has_trailing_slash. by rewrite rev_app_distr. Qed.

Lemma node_children_lookup (h : heap) (x : addr) (nd : FileStructure) :
  h !! x = Some nd → node_children h x = children nd.
Proof. intros H. unfold node_children. by rewrite H. Qed.

(** X11: with [trailingDirSlash] on, [getName] renders a node of a tree as
    its name, after the path prefix when there is one (there is none when
    [fullPath] is off), followed by a slash exactly when the node has
    children and its name does not end in a slash already (whitespace
    after that slash apart).  The rendered name of a node with children
    ends in a slash in every case. *)
Theorem getName_trailing_slash (h : heap) (root : addr) (t : shape) (x : addr)
    (options : GenerateTreeOptions) :
  tree h root t → x ∈ preorder t → trailingDirSlash options = Some true →
  ∃ nm pre,
    getName h x options = Ok nm
    ∧ nm = pre ++ node_name h x
           ++ (if (0 <? length (node_children h x))
                  && negb (has_trailing_slash (node_name h x))
               then js "/" else [])
    ∧ (truthy (fullPath options) = false → pre = [])
    ∧ (node_children h x ≠ [] → has_trailing_slash nm = true).
Proof.
  intros Ht Hx Hslash.
  destruct (tree_climbs h root t x Ht Hx) as (anc & Hclimb & Hlen).
  destruct (climbs_lookup _ _ _ Hclimb) as (nd & Hnd & Hp).
  rewrite (node_name_lookup _ _ _ Hnd), (node_children_lookup _ _ _ Hnd).
  set (suffix := if (0 <? length (children nd))
                    && negb (has_trailing_slash (name nd))
                 then js "/" else []).
  assert (children nd ≠ [] → has_trailing_slash (name nd ++ suffix) = true)
    as Hhas.
  { intros Hne. unfold suffix.
    assert ((0 <? length (children nd)) = true) as ->
      by (by destruct (children nd)).
    cbn [andb].
    destruct (has_trailing_slash (name nd)) eqn:E; cbn [negb].
    - by rewrite app_nil_r.
    - apply has_trailing_slash_slash. }
  assert (∃ pre, getName h x options = Ok (pre ++ name nd ++ suffix)
                 ∧ (truthy (fullPath options) = false → pre = []))
    as (pre & Hname & Hpre).
  { unfold getName. read_node Hnd. rewrite Hslash. cbn [truthy andb].
    set (chunks := if (0 <? length (children nd))
                      && negb (has_trailing_slash (name nd))
                   then [name nd] ++ [js "/"] else [name nd]).
    assert (concat chunks = name nd ++ suffix) as Hchunks.
    { unfold chunks, suffix.
      destruct ((0 <? length (children nd)) && negb _); simpl;
        by rewrite ?app_nil_r. }
    destruct (truthy (fullPath options)) eqn:Hfull; cbn [andb].
    - destruct anc as [|p anc].
      + simpl in Hp. rewrite Hp. rewrite bool_decide_false by (by intros [? ?]).
        cbn [mbind outcome_bind]. exists []. by rewrite join_nil, Hchunks.
      + simpl in Hp. rewrite Hp. rewrite bool_decide_true by eauto.
        destruct Hclimb as [_ Hclimb].
        rewrite (collect_path_climbs _ _ _ _ _ Hclimb); [|simpl in Hlen; lia].
        cbn [mbind outcome_bind].
        destruct (rev _ ++ []) as [|y l] eqn:E.
        * cbn [mbind outcome_bind]. exists []. by rewrite join_nil, Hchunks.
        * cbn [mbind outcome_bind].
          exists (join (js "/") (y :: l) ++ js "/").
          rewrite join_nil. cbn [concat]. by rewrite Hchunks.
    - cbn [mbind outcome_bind]. exists []. by rewrite join_nil, Hchunks. }
  exists (pre ++ name nd ++ suffix), pre. split; [done|]. split; [done|].
  split; [done|]. intros Hne. by apply has_trailing_slash_app, Hhas.
Qed.

Lemma getName_trailing_slash_witness :
  ∃ nm pre,
    getName scenario_heap 2 (mkOptions None (Some true) (Some true) None) = Ok nm
    ∧ nm = pre ++ js "src" ++ js "/"
    ∧ (truthy (Some true) = false → pre = [])
    ∧ (node_children scenario_heap 2 ≠ [] → has_trailing_slash nm = true).
Proof.
  apply (getName_trailing_slash scenario_heap 0
           scenario_shape 2
           (mkOptions None (Some true) (Some true) None)).
  - exact scenario_tree.
  - apply list_elem_of_In. simpl. tauto.
  - reflexivity.
Defined.

(** ** The serializers on a tree *)

Lemma for_each_kids {S : Type} (f : addr → S → outcome S) (g : shape → S → S)
    (kids : list shape) :
  (∀ k s, k ∈ kids → f (addr_of k) s = Ok (g k s)) →
  ∀ s, for_each f (map addr_of kids) s = Ok (fold_left (λ s k, g k s) kids s).
Proof.
  induction kids as [|k kids IH]; intros Hf s; [done|].
  cbn [map for_each fold_left]. rewrite Hf by left. cbn [mbind outcome_bind].
  apply IH. intros k' s' Hk'. apply Hf. by right.
Qed.

Lemma fold_left_snoc_map {A B : Type} (f : A → B) (l : list A) :
  ∀ acc, fold_left (λ acc x, acc ++ [f x]) l acc = acc ++ map f l.
Proof.
  induction l as [|x l IH]; intros acc; simpl; [by rewrite app_nil_r|].
  by rewrite IH, <- app_assoc.
Qed.

Lemma fold_left_app_concat {A B : Type} (f : A → list B) (l : list A) :
  ∀ acc, fold_left (λ acc x, acc ++ f x) l acc = acc ++ concat (map f l).
Proof.
  induction l as [|x l IH]; intros acc; simpl; [by rewrite app_nil_r|].
  by rewrite IH, <- app_assoc.
Qed.

Lemma kid_fuel (k : shape) (kids : list shape) (a : addr) (fuel : nat) :
  k ∈ kids → node_count (Sh a kids) ≤ S fuel → node_count k ≤ fuel.
Proof.
  intros Hk Hfuel. unfold node_count in *. simpl in Hfuel.
  pose proof (sublist_length _ _ (preorder_kid_sublist k kids Hk)). lia.
Qed.

Lemma createObjectWithChildren_tree (h : heap) (t : shape) :
  ∀ p fuel,
    models h p t = true → node_count t ≤ fuel →
    createObjectWithChildren fuel h (addr_of t) = Ok (array_value h t).
Proof.
  induction t as [a kids IH] using shape_ind'. intros p fuel Hm Hfuel.
  apply models_unfold in Hm as (nd & Ha & Hp & Hc & Hkids).
  destruct fuel as [|fuel]; [unfold node_count in Hfuel; simpl in Hfuel; lia|].
  cbn [addr_of createObjectWithChildren array_value]. read_node Ha.
  rewrite <- (is_dot_lookup _ _ _ Ha), <- (node_name_lookup _ _ _ Ha), Hc.
  destruct kids as [|k1 kids1]; [done|].
  rewrite length_map. cbn [length Nat.ltb Nat.leb].
  rewrite (for_each_kids _ (λ k acc, acc ++ [array_value h k])).
  - cbn [mbind outcome_bind]. by rewrite fold_left_snoc_map.
  - intros k acc Hk. rewrite Forall_forall in IH, Hkids.
    rewrite (IH k Hk (Some a) fuel (Hkids k Hk) (kid_fuel _ _ _ _ Hk Hfuel)).
    done.
Qed.

Lemma createXmlElement_tree (h : heap) (t : shape) :
  ∀ p fuel indent,
    models h p t = true → node_count t ≤ fuel →
    createXmlElement fuel h (addr_of t) indent = Ok (xml_element h t indent).
Proof.
  induction t as [a kids IH] using shape_ind'. intros p fuel indent Hm Hfuel.
  apply models_unfold in Hm as (nd & Ha & Hp & Hc & Hkids).
  destruct fuel as [|fuel]; [unfold node_count in Hfuel; simpl in Hfuel; lia|].
  cbn [addr_of createXmlElement xml_element]. read_node Ha.
  rewrite <- (is_dot_lookup _ _ _ Ha), <- (node_name_lookup _ _ _ Ha), Hc.
  destruct kids as [|k1 kids1]; [done|].
  cbn [map].
  change (addr_of k1 :: map addr_of kids1) with (map addr_of (k1 :: kids1)).
  rewrite (for_each_kids _ (λ k acc, acc ++ xml_element h k (indent + 2))).
  - cbn [mbind outcome_bind]. rewrite fold_left_app_concat.
    by rewrite <- !app_assoc.
  - intros k acc Hk. rewrite Forall_forall in IH, Hkids.
    rewrite (IH k Hk (Some a) fuel (indent + 2) (Hkids k Hk)
               (kid_fuel _ _ _ _ Hk Hfuel)).
    done.
Qed.

Lemma createMarkdownList_tree (h : heap) (t : shape) :
  ∀ p fuel indent,
    models h p t = true → node_count t ≤ fuel →
    createMarkdownList fuel h (addr_of t) indent = Ok (markdown_list h t indent).
Proof.
  induction t as [a kids IH] using shape_ind'. intros p fuel indent Hm Hfuel.
  apply models_unfold in Hm as (nd & Ha & Hp & Hc & Hkids).
  destruct fuel as [|fuel]; [unfold node_count in Hfuel; simpl in Hfuel; lia|].
  cbn [addr_of createMarkdownList markdown_list]. read_node Ha.
  rewrite <- (is_dot_lookup _ _ _ Ha), <- (node_name_lookup _ _ _ Ha), Hc.
  rewrite Forall_forall in IH, Hkids.
  destruct (is_dot h a).
  - rewrite (for_each_kids _ (λ k acc, acc ++ [markdown_list h k indent])).
    + cbn [mbind outcome_bind]. by rewrite fold_left_snoc_map, join_nil.
    + intros k acc Hk.
      rewrite (IH k Hk (Some a) fuel indent (Hkids k Hk)
                 (kid_fuel _ _ _ _ Hk Hfuel)).
      done.
  - rewrite (for_each_kids _ (λ k acc, acc ++ markdown_list h k (indent + 2))).
    + rewrite fold_left_app_concat, length_map.
      destruct kids; cbn [length Nat.ltb Nat.leb]; by rewrite <- !app_assoc.
    + intros k acc Hk.
      rewrite (IH k Hk (Some a) fuel (indent + 2) (Hkids k Hk)
                 (kid_fuel _ _ _ _ Hk Hfuel)).
      done.
Qed.

Lemma createNestedObject_json (h : heap) (t : shape) :
  ∀ p fuel,
    models h p t = true → node_count t ≤ fuel →
    createNestedObject fuel h (addr_of t) = Ok (nested_json h t).
Proof.
  induction t as [a kids IH] using shape_ind'. intros p fuel Hm Hfuel.
  apply models_unfold in Hm as (nd & Ha & Hp & Hc & Hkids).
  destruct fuel as [|fuel]; [unfold node_count in Hfuel; simpl in Hfuel; lia|].
  cbn [addr_of createNestedObject nested_json]. read_node Ha.
  rewrite <- (node_name_lookup _ _ _ Ha), Hc.
  destruct kids as [|k1 kids1]; [by destruct (includes _ _)|].
  cbn [map].
  change (addr_of k1 :: map addr_of kids1) with (map addr_of (k1 :: kids1)).
  rewrite Forall_forall in IH, Hkids.
  rewrite (for_each_kids _ (λ k obj, set_property obj (node_name h (addr_of k))
                                                  (nested_json h k))).
  - done.
  - intros k obj Hk.
    destruct (models_root _ _ _ (Hkids k Hk)) as (knd & Hknd & _ & _).
    read_node Hknd.
    rewrite (IH k Hk (Some a) fuel (Hkids k Hk) (kid_fuel _ _ _ _ Hk Hfuel)).
    cbn [mbind outcome_bind]. by rewrite (node_name_lookup _ _ _ Hknd).
Qed.

(** ** The escaped names of the XML *)

Lemma escape_xml_char_app (c : N) (by_ s t : jsstring) :
  escape_xml_char c by_ (s ++ t)
  = escape_xml_char c by_ s ++ escape_xml_char c by_ t.
Proof.
  induction s as [|d s IH]; [done|]. simpl. by rewrite IH, <- app_assoc.
Qed.

Lemma escape_xml_char_concat (c : N) (by_ : jsstring) (l : list jsstring) :
  escape_xml_char c by_ (concat l) = concat (map (escape_xml_char c by_) l).
Proof.
  induction l as [|x l IH]; [done|]. simpl.
  by rewrite escape_xml_char_app, IH.
Qed.

Lemma escape_xml_char_single (c : N) (by_ : jsstring) (s : jsstring) :
  escape_xml_char c by_ s = concat (map (λ d, if (d =? c)%N then by_ else [d]) s).
Proof. induction s as [|d s IH]; [done|]. simpl. by rewrite IH. Qed.

Lemma xml_entity_passes (c : N) :
  escape_xml_char 39 (js "&apos;")
    (escape_xml_char 34 (js "&quot;")
       (escape_xml_char 62 (js "&gt;")
          (escape_xml_char 60 (js "&lt;")
             (if (c =? 38)%N then js "&amp;" else [c]))))
  = xml_entity c.
Proof.
  unfold xml_entity.
  destruct (c =? 38)%N eqn:E38; [by_eval|].
  cbn [escape_xml_char app].
  destruct (c =? 60)%N eqn:E60; [by_eval|]. cbn [escape_xml_char app].
  destruct (c =? 62)%N eqn:E62; [by_eval|]. cbn [escape_xml_char app].
  destruct (c =? 34)%N eqn:E34; [by_eval|]. cbn [escape_xml_char app].
  destruct (c =? 39)%N eqn:E39; [by_eval|]. done.
Qed.

Lemma escape_xml_entities (s : jsstring) :
  escape_xml s = concat (map xml_entity s).
Proof.
  unfold escape_xml. rewrite (escape_xml_char_single 38).
  rewrite !escape_xml_char_concat, !map_map. f_equal.
  apply map_ext. intros c. apply xml_entity_passes.
Qed.

Lemma xml_entity_safe (c : N) :
  Forall (λ d, d ≠ 60 ∧ d ≠ 62 ∧ d ≠ 34 ∧ d ≠ 39)%N (xml_entity c).
Proof.
  unfold xml_entity.
  destruct (c =? 38)%N eqn:E38; [repeat constructor; discriminate|].
  destruct (c =? 60)%N eqn:E60; [repeat constructor; discriminate|].
  destruct (c =? 62)%N eqn:E62; [repeat constructor; discriminate|].
  destruct (c =? 34)%N eqn:E34; [repeat constructor; discriminate|].
  destruct (c =? 39)%N eqn:E39; [repeat constructor; discriminate|].
  apply N.eqb_neq in E60, E62, E34, E39. repeat constructor; done.
Qed.

Lemma xml_entity_head (c : N) :
  ∃ r, xml_entity c = (if (c =? 38)%N || (c =? 60)%N || (c =? 62)%N
                          || (c =? 34)%N || (c =? 39)%N then 38%N else c) :: r.
Proof.
  unfold xml_entity.
  destruct (c =? 38)%N; [by eexists|]. destruct (c =? 60)%N; [by eexists|].
  destruct (c =? 62)%N; [by eexists|]. destruct (c =? 34)%N; [by eexists|].
  destruct (c =? 39)%N; by eexists.
Qed.

Lemma xml_entity_cases (c : N) :
  (c = 38 ∨ c = 60 ∨ c = 62 ∨ c = 34 ∨ c = 39)%N
  ∨ (xml_entity c = [c] ∧ c ≠ 38%N).
Proof.
  unfold xml_entity.
  destruct (c =? 38)%N eqn:E38; [apply N.eqb_eq in E38; tauto|].
  destruct (c =? 60)%N eqn:E60; [apply N.eqb_eq in E60; tauto|].
  destruct (c =? 62)%N eqn:E62; [apply N.eqb_eq in E62; tauto|].
  destruct (c =? 34)%N eqn:E34; [apply N.eqb_eq in E34; tauto|].
  destruct (c =? 39)%N eqn:E39; [apply N.eqb_eq in E39; tauto|].
  right. apply N.eqb_neq in E38. done.
Qed.

Lemma xml_entity_inj (c d : N) (s t : jsstring) :
  xml_entity c ++ s = xml_entity d ++ t → c = d ∧ s = t.
Proof.
  destruct (xml_entity_cases c) as [Hc|[Hc Hc']],
           (xml_entity_cases d) as [Hd|[Hd Hd']].
  - destruct Hc as [->|[->|[->|[->| ->]]]], Hd as [->|[->|[->|[->| ->]]]];
      intros H; vm_compute in H; first [discriminate H|by injection H].
  - rewrite Hd. destruct Hc as [->|[->|[->|[->| ->]]]];
      intros H; vm_compute in H; injection H as H _; congruence.
  - rewrite Hc. destruct Hd as [->|[->|[->|[->| ->]]]];
      intros H; vm_compute in H; injection H as H _; congruence.
  - rewrite Hc, Hd. intros [= -> ->]. done.
Qed.

Lemma escape_xml_inj (s : jsstring) :
  ∀ t, escape_xml s = escape_xml t → s = t.
Proof.
  setoid_rewrite escape_xml_entities.
  induction s as [|c s IH]; intros [|d t] H.
  - done.
  - simpl in H. destruct (xml_entity_head d) as [r Hr]. rewrite Hr in H. done.
  - simpl in H. destruct (xml_entity_head c) as [r Hr]. rewrite Hr in H. done.
  - simpl in H. apply xml_entity_inj in H as [-> H]. f_equal. by apply IH.
Qed.

(** X12: the five chained replacements of [createXmlElement] escape each
    character once: the result is the concatenation of the entities of the
    characters of the name (the ampersands of the entities are not escaped
    again, since [&] is replaced first).  The escaped name holds no [<], no
    [>], no double quote and no apostrophe, and two names with the same
    escaped name are the same name. *)
Theorem escape_xml_once (s : jsstring) :
  escape_xml s = concat (map xml_entity s)
  ∧ Forall (λ d, d ≠ 60 ∧ d ≠ 62 ∧ d ≠ 34 ∧ d ≠ 39)%N (escape_xml s)
  ∧ ∀ t, escape_xml s = escape_xml t → s = t.
Proof.
  split; [apply escape_xml_entities|]. split; [|apply escape_xml_inj].
  rewrite escape_xml_entities. apply Forall_concat, Forall_map.
  apply Forall_forall. intros c _. apply xml_entity_safe.
Qed.

(** ** The Markdown list *)

Lemma lf_count_kids (c : list addr → nat) (f : shape → jsstring)
    (kids : list shape) :
  c [] = 0 → (∀ l1 l2, c (l1 ++ l2) = c l1 + c l2) →
  (∀ k, k ∈ kids → lf_count (f k) = c (preorder k)) →
  lf_count (concat (map f kids)) = c (concat (map preorder kids)).
Proof.
  intros Hnil Happ. induction kids as [|k kids IH]; intros Hf; [done|].
  simpl. rewrite lf_count_app, Happ, Hf by left. f_equal.
  apply IH. intros k' Hk'. apply Hf. by right.
Qed.

Lemma lf_free_spaces (n : nat) : lf_free (spaces n).
Proof. unfold spaces. induction n as [|n IH]; simpl; by constructor. Qed.

Lemma node_name_lf_free (h : heap) (x : addr) :
  names_lf_free h → lf_free (node_name h x).
Proof.
  intros Hnames. unfold node_name. destruct (h !! x) as [nd|] eqn:E.
  - by apply (Hnames x).
  - constructor.
Qed.

Lemma lf_count_markdown (h : heap) (t : shape) :
  names_lf_free h →
  ∀ indent,
    lf_count (markdown_list h t indent) = length (filter (listed h) (preorder t)).
Proof.
  intros Hnames. induction t as [a kids IH] using shape_ind'. intros indent.
  rewrite Forall_forall in IH.
  cbn [markdown_list preorder]. destruct (is_dot h a) eqn:Hdot.
  - rewrite filter_cons_False by (unfold listed; congruence).
    apply (lf_count_kids (λ l, length (filter (listed h) l))); [done| |].
    + intros l1 l2. by rewrite filter_app, length_app.
    + intros k Hk. by apply IH.
  - rewrite filter_cons_True by done.
    rewrite !lf_count_app.
    rewrite (lf_count_free _ (lf_free_spaces indent)).
    rewrite (lf_count_free _ (node_name_lf_free h a Hnames)).
    rewrite (lf_count_kids (λ l, length (filter (listed h) l))
                           (λ k, markdown_list h k (indent + 2))); [| done | |].
    + destruct kids; simpl; lia.
    + intros l1 l2. by rewrite filter_app, length_app.
    + intros k Hk. by apply IH.
Qed.

(** X13: [formatMarkdown] on a tree prints one bullet line for each node
    that is not named [.], a node before its children, with a slash after
    the name of a node with children; the children of a node are indented
    by 2 more than the node, and the children of a node named [.] as that
    node would be.  When no name holds a line feed the list has as many
    lines as the tree has nodes not named [.]. *)
Theorem formatMarkdown_tree (h : heap) (root : addr) (t : shape) :
  tree h root t →
  formatMarkdown h (Some root) = Ok (markdown_list h t 0)
  ∧ (names_lf_free h →
     lf_count (markdown_list h t 0) = length (filter (listed h) (preorder t))).
Proof.
  intros Ht. pose proof (tree_size_le _ _ _ Ht) as Hsize.
  destruct Ht as (Hm & <- & _). split.
  - unfold formatMarkdown. by apply (createMarkdownList_tree h t None).
  - intros Hnames. by apply lf_count_markdown.
Qed.

Lemma formatMarkdown_tree_witness :
  formatMarkdown scenario_heap (Some 0)
  = Ok (js "* app/
  * src/
    * index.js
  * package.json
")
  ∧ lf_count (markdown_list scenario_heap scenario_shape 0) = 4.
Proof.
  destruct (formatMarkdown_tree scenario_heap 0 scenario_shape scenario_tree)
    as [Hmd Hcount].
  split.
  - rewrite Hmd. by_eval.
  - rewrite Hcount.
    + by_eval.
    + intros a nd Ha. apply lf_free_literal.
      destruct a as [|[|[|[|[|a]]]]]; simpl in Ha; try discriminate;
        injection Ha as <-; by_eval.
Defined.

(** ** The XML document *)

Lemma lf_free_concat (l : list jsstring) : Forall lf_free l → lf_free (concat l).
Proof. intros H. by apply Forall_concat. Qed.

Lemma lf_free_escape_xml (s : jsstring) : lf_free s → lf_free (escape_xml s).
Proof.
  intros Hs. rewrite escape_xml_entities. apply lf_free_concat, Forall_map.
  eapply Forall_impl; [exact Hs|]. intros c Hc. unfold xml_entity.
  repeat (match goal with
          | |- context [if ?b then _ else _] =>
            destruct b; [by apply lf_free_literal|]
          end).
  by constructor.
Qed.

Lemma lf_count_xml (h : heap) (t : shape) :
  names_lf_free h →
  ∀ p indent,
    models h p t = true →
    lf_count (xml_element h t indent)
    = length (preorder t) + length (filter (has_children h) (preorder t)).
Proof.
  intros Hnames. induction t as [a kids IH] using shape_ind'. intros p indent Hm.
  apply models_unfold in Hm as (nd & Ha & Hp & Hc & Hkids).
  rewrite Forall_forall in IH, Hkids.
  assert (lf_free (escape_xml (if is_dot h a then js "root" else node_name h a)))
    as Hname.
  { apply lf_free_escape_xml. destruct (is_dot h a).
    - by apply lf_free_literal.
    - by apply node_name_lf_free. }
  cbn [xml_element preorder].
  destruct kids as [|k1 kids1].
  - rewrite filter_cons_False.
    2: { unfold has_children. rewrite (node_children_lookup _ _ _ Ha), Hc. by intros H. }
    rewrite !lf_count_app, (lf_count_free _ (lf_free_spaces indent)),
      (lf_count_free _ Hname). reflexivity.
  - rewrite filter_cons_True.
    2: { unfold has_children. by rewrite (node_children_lookup _ _ _ Ha), Hc. }
    rewrite !lf_count_app, (lf_count_free _ (lf_free_spaces indent)),
      (lf_count_free _ Hname).
    rewrite (lf_count_kids (λ l, length l + length (filter (has_children h) l))
                           (λ k, xml_element h k (indent + 2))); [|done| |].
    + cbn [length]. change (lf_count (js "<directory name=")) with 0.
      change (lf_count [34%N]) with 0. change (lf_count (js ">")) with 0.
      change (lf_count [10%N]) with 1. change (lf_count (js "</directory>")) with 0.
      lia.
    + intros l1 l2. rewrite filter_app, !length_app. lia.
    + intros k Hk. by apply (IH k Hk (Some a)), Hkids.
Qed.

(** X14: [formatXml] on a tree prints the XML declaration and then the
    element of the root: a [file] element on one line for a node without
    children, and for a node with children a [directory] element, the
    elements of its children, indented by 2 more, between its opening and
    its closing line; a node named [.] is given the name [root], and the
    names are escaped.  When no name holds a line feed the element has one
    line for each node and one more for each node with children. *)
Theorem formatXml_tree (h : heap) (root : addr) (t : shape) :
  tree h root t →
  formatXml h (Some root)
  = Ok (js "<?xml version=" ++ [34%N] ++ js "1.0" ++ [34%N] ++ js " encoding="
        ++ [34%N] ++ js "UTF-8" ++ [34%N] ++ js "?>" ++ [10%N]
        ++ xml_element h t 0)
  ∧ (names_lf_free h →
     lf_count (xml_element h t 0)
     = node_count t + length (filter (has_children h) (preorder t))).
Proof.
  intros Ht. pose proof (tree_size_le _ _ _ Ht) as Hsize.
  destruct Ht as (Hm & <- & _). split.
  - unfold formatXml. by rewrite (createXmlElement_tree h t None _ 0 Hm Hsize).
  - intros Hnames. by apply (lf_count_xml h t Hnames None).
Qed.

Lemma formatXml_tree_witness :
  formatXml scenario_heap (Some 0)
  = Ok (js "<?xml version=" ++ [34%N] ++ js "1.0" ++ [34%N]
        ++ js " encoding=" ++ [34%N] ++ js "UTF-8" ++ [34%N] ++ js "?>
<directory name=" ++ [34%N] ++ js "root" ++ [34%N] ++ js ">
  <directory name=" ++ [34%N] ++ js "app" ++ [34%N] ++ js ">
    <directory name=" ++ [34%N] ++ js "src" ++ [34%N] ++ js ">
      <file name=" ++ [34%N] ++ js "index.js" ++ [34%N] ++ js " />
    </directory>
    <file name=" ++ [34%N] ++ js "package.json" ++ [34%N] ++ js " />
  </directory>
</directory>
").
Proof.
  rewrite (proj1 (formatXml_tree scenario_heap 0 scenario_shape scenario_tree)).
  by_eval.
Defined.

(** ** The flat JSON and the dot-path list *)

Lemma str_leb_antisym (s t : jsstring) :
  str_leb s t = true → str_leb t s = true → s = t.
Proof.
  revert t. induction s as [|c s IH]; intros [|d t]; simpl; try done.
  intros H1 H2.
  apply orb_true_iff in H1 as [H1|H1]; apply orb_true_iff in H2 as [H2|H2].
  - apply N.ltb_lt in H1, H2. lia.
  - apply andb_true_iff in H2 as [->%N.eqb_eq _]. apply N.ltb_lt in H1. lia.
  - apply andb_true_iff in H1 as [->%N.eqb_eq _]. apply N.ltb_lt in H2. lia.
  - apply andb_true_iff in H1 as [->%N.eqb_eq H1].
    apply andb_true_iff in H2 as [_ H2]. f_equal. by apply IH.
Qed.

(** The sorted array depends on the elements only, not on their order. *)
Lemma Array_sort_unique (l1 l2 : list jsstring) :
  l1 ≡ₚ l2 → Array_sort l1 = Array_sort l2.
Proof.
  intros Hperm.
  apply (StronglySorted_unique_strong str_le).
  - intros x1 x2 _ _. apply str_leb_antisym.
  - apply Array_sort_sorted.
  - apply Array_sort_sorted.
  - by rewrite !Array_sort_perm.
Qed.

Lemma Forall2_full_path (h : heap) (l : list addr) (ps : list jsstring) :
  Forall2 (λ x p, getFullPath h x = Ok p) l ps → ps = map (full_path h) l.
Proof.
  induction 1 as [|x p l ps Hx _ IH]; [done|].
  simpl. unfold full_path at 1. rewrite Hx. by f_equal.
Qed.

Lemma filter_listed_split (h : heap) (l : list addr) :
  filter (listed h) l
  ≡ₚ filter (listed_file h) l ++ filter (listed_directory h) l.
Proof.
  induction l as [|x l IH]; [done|].
  destruct (is_dot h x) eqn:Hdot.
  - rewrite !filter_cons_False; [done|..];
      unfold listed, listed_file, listed_directory; try intros [? _]; congruence.
  - rewrite (filter_cons_True (listed h)) by done.
    destruct (node_children h x) as [|c cs] eqn:Hkids.
    + rewrite (filter_cons_True (listed_file h)) by done.
      rewrite (filter_cons_False (listed_directory h)).
      2: { intros [_ ?]. done. }
      simpl. by rewrite IH.
    + rewrite (filter_cons_False (listed_file h)).
      2: { intros [_ ?]. congruence. }
      rewrite (filter_cons_True (listed_directory h)).
      2: { split; [done|]. congruence. }
      rewrite IH. apply Permutation_middle.
Qed.

(** X15: [formatFlatJson] on a tree: [files] holds the paths of the nodes
    without children and [directories] the paths of the nodes with
    children, each in preorder, the nodes named [.] left out; every node
    not named [.] is in one of the two, and the sorted list of [formatDot]
    is the sorted list of the two together. *)
Theorem formatFlatJson_partition (h : heap) (root : addr) (t : shape) :
  tree h root t →
  ∃ files directories,
    flatJson_collect h root = Ok (files, directories)
    ∧ formatFlatJson h (Some root)
      = Ok (JSON_stringify (flat_value files directories))
    ∧ Forall2 (λ x p, getFullPath h x = Ok p)
              (filter (listed_file h) (preorder t)) files
    ∧ Forall2 (λ x p, getFullPath h x = Ok p)
              (filter (listed_directory h) (preorder t)) directories
    ∧ length files + length directories = length (filter (listed h) (preorder t))
    ∧ formatDot_paths h (Some root) = Ok (Array_sort (files ++ directories)).
Proof.
  intros Ht.
  destruct (flatJson_collect_tree _ _ _ Ht) as (files & dirs & Hflat & Hf' & Hd').
  destruct (dot_collect_tree _ _ _ Ht) as (paths & Hdot & Hp).
  pose proof (Forall2_full_path _ _ _ Hf') as Hf.
  pose proof (Forall2_full_path _ _ _ Hd') as Hd.
  apply Forall2_full_path in Hp.
  pose proof (filter_listed_split h (preorder t)) as Hsplit.
  exists files, dirs. split; [done|]. split.
  { unfold formatFlatJson. by rewrite Hflat. }
  split; [done|]. split; [done|]. split.
  { rewrite Hf, Hd, !length_map, <- length_app. symmetry.
    by apply Permutation_length. }
  unfold formatDot_paths. rewrite Hdot. cbn [mbind outcome_bind]. f_equal.
  apply Array_sort_unique. rewrite Hp, Hf, Hd, <- map_app.
  by apply Permutation_map.
Qed.

Lemma formatFlatJson_partition_witness :
  ∃ files directories,
    flatJson_collect scenario_heap 0 = Ok (files, directories)
    ∧ files = [js "app/src/index.js"; js "app/package.json"]
    ∧ directories = [js "app"; js "app/src"]
    ∧ formatDot_paths scenario_heap (Some 0)
      = Ok [js "app"; js "app/package.json"; js "app/src"; js "app/src/index.js"].
Proof.
  destruct (formatFlatJson_partition scenario_heap 0 scenario_shape scenario_tree)
    as (files & dirs & Hflat & _ & _ & _ & _ & Hdot).
  exists files, dirs. split; [exact Hflat|].
  assert (Ok (files, dirs)
          = Ok ([js "app/src/index.js"; js "app/package.json"],
                [js "app"; js "app/src"])
          :> outcome (list jsstring * list jsstring)) as [= Ef Ed].
  { rewrite <- Hflat. by_eval. }
  split; [exact Ef|]. split; [exact Ed|].
  rewrite Hdot, Ef, Ed. by_eval.
Defined.

(** ** The array JSON and the YAML *)

(** X16: [formatArrayJson] on a tree prints, for each node, an object with
    its [name] ([root] for a node named [.]) and its [type]: [file] for a
    node without children; [directory], and under [children] the array of
    the objects of its children, in order, for a node with children. *)
Theorem formatArrayJson_tree (h : heap) (root : addr) (t : shape) :
  tree h root t →
  formatArrayJson h (Some root) = Ok (JSON_stringify (array_value h t)).
Proof.
  intros Ht. pose proof (tree_size_le _ _ _ Ht) as Hsize.
  destruct Ht as (Hm & <- & _). unfold formatArrayJson.
  by rewrite (createObjectWithChildren_tree h t None _ Hm Hsize).
Qed.

Lemma formatArrayJson_tree_witness :
  formatArrayJson scenario_heap (Some 0) = Ok (JSON_stringify scenario_array).
Proof.
  rewrite (formatArrayJson_tree scenario_heap 0 scenario_shape scenario_tree).
  by_eval.
Defined.

Lemma nested_json_kind (h : heap) (t : shape) :
  nested_json h t = JNull ∨ ∃ i props, nested_json h t = JObject i props.
Proof.
  destruct t as [a [|k kids]]; cbn [nested_json].
  - destruct (includes _ _); [right|left]; eauto.
  - right. unfold to_object. eauto.
Qed.

Lemma nestedJsonObject_tree (h : heap) (root : addr) (t : shape) :
  tree h root t →
  nestedJsonObject h (Some root)
  = Ok (to_object (set_property empty_object (node_name h root) (nested_json h t))).
Proof.
  intros Ht. pose proof (tree_size_le _ _ _ Ht) as Hsize.
  destruct Ht as (Hm & Hroot & _).
  destruct (models_root _ _ _ Hm) as (nd & Hnd & _ & _). rewrite Hroot in Hnd.
  unfold nestedJsonObject. read_node Hnd. rewrite <- Hroot at 1.
  rewrite (createNestedObject_json h t None _ Hm Hsize).
  cbn [mbind outcome_bind]. by rewrite (node_name_lookup _ _ _ Hnd).
Qed.

(** X17: [formatYaml] on a tree prints the value that [formatNestedJson]
    has under the name of the root, under the key [root] whatever that
    name is: the output starts with [root:].  A root named [__proto__] is
    the exception: the object of [formatNestedJson] has no key then, and
    the YAML is the empty string. *)
Theorem formatYaml_tree (h : heap) (root : addr) (t : shape) :
  tree h root t →
  (node_name h root ≠ js "__proto__" →
   formatNestedJson h (Some root)
   = Ok (JSON_stringify (JObject true [(node_name h root, nested_json h t)]))
   ∧ formatYaml h (Some root)
     = Ok (jsonToYaml (JObject true [(js "root", nested_json h t)]) 0)
   ∧ ∃ rest, formatYaml h (Some root) = Ok (js "root:" ++ rest))
  ∧ (node_name h root = js "__proto__" →
     formatNestedJson h (Some root) = Ok (js "{}")
     ∧ formatYaml h (Some root) = Ok []).
Proof.
  intros Ht. pose proof (nestedJsonObject_tree _ _ _ Ht) as Hobj. split.
  - intros Hname. unfold empty_object in Hobj.
    rewrite set_property_plain in Hobj by done.
    cbn [assign has_property add_property to_object fst snd] in Hobj.
    assert (formatYaml h (Some root)
            = Ok (jsonToYaml (JObject true [(js "root", nested_json h t)]) 0))
      as Hyaml.
    { unfold formatYaml. by rewrite Hobj. }
    split; [|split; [exact Hyaml|]].
    + unfold formatNestedJson. by rewrite Hobj.
    + rewrite Hyaml. cbn [jsonToYaml map concat fst snd].
      destruct (nested_json_kind h t) as [->|(i & props & ->)]; eexists;
        rewrite app_nil_r; reflexivity.
  - intros Hname. rewrite Hname in Hobj.
    assert (nestedJsonObject h (Some root)
            = Ok (JObject (match nested_json h t with
                           | JNull => false
                           | JObject i _ => i
                           | JArray _ => true
                           | JString _ => true
                           end) [])) as Hobj'.
    { rewrite Hobj. reflexivity. }
    split.
    + unfold formatNestedJson. rewrite Hobj'. reflexivity.
    + unfold formatYaml. rewrite Hobj'. reflexivity.
Qed.

Lemma formatYaml_tree_witness :
  formatYaml scenario_heap (Some 0)
  = Ok (js "root:
  app:
    src:
      index.js: null
    package.json: null
").
Proof.
  destruct (formatYaml_tree scenario_heap 0 scenario_shape scenario_tree)
    as [Hplain _].
  destruct Hplain as (_ & Hyaml & _); [discriminate|].
  rewrite Hyaml. by_eval.
Defined.

(** ** [formatTree] on a tree *)

Ltac eval_str_eqb :=
  repeat match goal with
         | |- context [str_eqb (js ?a) (js ?b)] =>
           let v := eval vm_compute in (str_eqb (js a) (js b)) in
           change (str_eqb (js a) (js b)) with v
         end;
  cbv iota.

Lemma generateTree_tree (h : heap) (root : addr) (t : shape)
    (options : option GenerateTreeOptions) :
  tree h root t →
  is_Some (LINE_STRINGS (charset_or_default
                           (spread defaultOptions (default no_options options)))) →
  ∃ s, generateTree h (Some root) options = Ok s.
Proof.
  intros Ht [lines Hcs].
  destruct (generateTree_lines_tree h root t options lines Ht Hcs) as (out & Hout & _).
  unfold generateTree. rewrite Hout. eauto.
Qed.

Lemma formatTree_total (h : heap) (root : addr) (t : shape)
    (format : jsstring) (options : option GenerateTreeOptions) :
  tree h root t →
  format ∈ format_ids
  ∨ is_Some (LINE_STRINGS (charset_or_default
                             (spread defaultOptions (default no_options options)))) →
  ∃ s, formatTree h (Some root) format options = Ok s.
Proof.
  intros Ht Hformat. pose proof (tree_size_le _ _ _ Ht) as Hsize.
  pose proof Ht as (Hm & Hroot & _). subst root.
  assert (∀ c, c = js "ascii" ∨ c = js "utf-8" →
            ∃ s, generateTree h (Some (addr_of t))
                   (Some (with_charset (default no_options options) c)) = Ok s)
    as Hgen.
  { intros c Hc. apply (generateTree_tree h _ t); [done|].
    destruct Hc as [-> | ->]; by eexists. }
  destruct (decide (format ∈ format_ids)) as [Hin|Hnot].
  - unfold format_ids in Hin.
    repeat (apply elem_of_cons in Hin as [->|Hin]); [..|by inversion Hin];
      unfold formatTree; eval_str_eqb.
    + apply Hgen. by left.
    + apply Hgen. by right.
    + unfold formatNestedJson. rewrite (nestedJsonObject_tree _ _ _ Ht). eauto.
    + unfold formatArrayJson.
      rewrite (createObjectWithChildren_tree h t None _ Hm Hsize). eauto.
    + unfold formatFlatJson.
      destruct (flatJson_collect_tree _ _ _ Ht) as (fs & ds & -> & _). eauto.
    + unfold formatYaml. rewrite (nestedJsonObject_tree _ _ _ Ht).
      cbn [mbind outcome_bind]. destruct (to_object _) as [| | |i [|[k v] props]]; eauto.
    + unfold formatXml.
      rewrite (createXmlElement_tree h t None _ 0 Hm Hsize). eauto.
    + unfold formatDot, formatDot_paths.
      destruct (dot_collect_tree _ _ _ Ht) as (paths & -> & _). eauto.
    + unfold formatMarkdown.
      rewrite (createMarkdownList_tree h t None _ 0 Hm Hsize). eauto.
  - destruct Hformat as [?|Hcs]; [done|].
    assert (∀ id, id ∈ format_ids → str_eqb format id = false) as Hne.
    { intros id Hid. apply str_eqb_neq. intros ->. done. }
    unfold formatTree.
    rewrite !Hne; [|unfold format_ids; apply list_elem_of_In; simpl; tauto..].
    by apply (generateTree_tree h _ t).
Qed.

(** X18: on a tree [formatTree] returns a string for each of the nine
    format identifiers, whatever the options are (a character set in them
    is overwritten or not read), and for any other identifier when the
    options carry a known character set or none. *)
Theorem formatTree_never_throws (h : heap) (root : addr) (t : shape)
    (format : jsstring) (options : option GenerateTreeOptions) :
  tree h root t →
  format ∈ format_ids
  ∨ is_Some (LINE_STRINGS (charset_or_default
                             (spread defaultOptions (default no_options options)))) →
  ∃ s, formatTree h (Some root) format options = Ok s.
Proof. apply formatTree_total. Qed.

Lemma formatTree_never_throws_witness :
  ∃ s, formatTree scenario_heap (Some 0) (js "yaml")
         (Some (mkOptions (Some (js "latin-1")) None None None)) = Ok s.
Proof.
  apply (formatTree_never_throws scenario_heap 0
           scenario_shape).
  - exact scenario_tree.
  - left. unfold format_ids. apply list_elem_of_In. simpl. tauto.
Defined.

(** ** The keys of the nested JSON *)

Lemma add_property_plain (props : list (jsstring * json)) (k : jsstring) (v : json) :
  array_index k = None → add_property props k v = props ++ [(k, v)].
Proof.
  intros Hk. induction props as [|[k' v'] props IH]; [done|].
  cbn [add_property app]. rewrite Hk. by rewrite IH.
Qed.

Lemma has_property_snoc (props : list (jsstring * json)) (k k' : jsstring)
    (v : json) :
  has_property (props ++ [(k, v)]) k' = has_property props k' || str_eqb k k'.
Proof.
  induction props as [|[k0 v0] props IH]; simpl; [by rewrite orb_false_r|].
  by rewrite IH, orb_assoc.
Qed.

Lemma fold_assign_ordered (nm : shape → jsstring) (v : shape → json)
    (kids : list shape) :
  ∀ props,
    NoDup (map nm kids) →
    (∀ k, k ∈ kids → array_index (nm k) = None ∧ has_property props (nm k) = false) →
    fold_left (λ props k, assign props (nm k) (v k)) kids props
    = props ++ map (λ k, (nm k, v k)) kids.
Proof.
  induction kids as [|k kids IH]; intros props Hnd Hkids; simpl.
  - by rewrite app_nil_r.
  - apply NoDup_cons in Hnd as [Hk Hnd].
    destruct (Hkids k ltac:(left)) as [Hidx Hhas].
    unfold assign at 2. rewrite Hhas, (add_property_plain _ _ _ Hidx).
    rewrite IH; [by rewrite <- app_assoc|done|].
    intros k' Hk'. destruct (Hkids k' ltac:(by right)) as [Hidx' Hhas'].
    split; [done|]. rewrite has_property_snoc, Hhas'. simpl.
    apply str_eqb_neq. intros E. apply Hk. rewrite E.
    apply list_elem_of_In, in_map, list_elem_of_In, Hk'.
Qed.

Lemma nested_value_ordered (h : heap) (t : shape) :
  ∀ p,
    models h p t = true →
    (∀ x, x ∈ preorder t →
          array_index (node_name h x) = None
          ∧ NoDup (map (node_name h) (node_children h x))) →
    nested_value h t = ordered_value h t.
Proof.
  induction t as [a kids IH] using shape_ind'. intros p Hm Hnames.
  apply models_unfold in Hm as (nd & Ha & Hp & Hc & Hkids).
  rewrite Forall_forall in IH, Hkids.
  cbn [nested_value ordered_value]. destruct kids as [|k1 kids1]; [done|].
  f_equal.
  rewrite (fold_assign_ordered (λ k, node_name h (addr_of k)) (nested_value h)).
  - cbn [app]. apply map_ext_in. intros k Hk%list_elem_of_In. f_equal.
    apply (IH k Hk (Some a) (Hkids k Hk)).
    intros x Hx. apply Hnames. cbn [preorder]. apply elem_of_cons. right.
    apply elem_of_preorder_kids. eauto.
  - destruct (Hnames a ltac:(cbn [preorder]; left)) as [_ Hnd].
    rewrite (node_children_lookup _ _ _ Ha), Hc, map_map in Hnd. exact Hnd.
  - intros k Hk. split; [|done]. apply Hnames. cbn [preorder].
    apply elem_of_cons. right.
    apply elem_of_preorder_kids. exists k. split; [done|].
    apply addr_of_in_preorder.
Qed.

Lemma nestedJsonObject_ordered (h : heap) (root : addr) (t : shape) :
  tree h root t →
  (∀ x, x ∈ preorder t →
        node_name h x ≠ js "__proto__"
        ∧ array_index (node_name h x) = None
        ∧ NoDup (map (node_name h) (node_children h x))) →
  nestedJsonObject h (Some root)
  = Ok (JObject true [(node_name h root, ordered_value h t)]).
Proof.
  intros Ht Hnames. pose proof (tree_size_le _ _ _ Ht) as Hsize.
  pose proof Ht as (Hm & Hroot & _).
  destruct (models_root _ _ _ Hm) as (nd & Hnd & _ & _). rewrite Hroot in Hnd.
  unfold nestedJsonObject. read_node Hnd. rewrite <- Hroot at 1.
  rewrite (createNestedObject_tree h t None _ Hm Hsize).
  2: { intros x Hx. by apply Hnames. }
  cbn [mbind outcome_bind]. unfold empty_object.
  rewrite set_property_plain.
  2: { rewrite <- (node_name_lookup _ _ _ Hnd), <- Hroot.
       apply Hnames, addr_of_in_preorder. }
  rewrite (node_name_lookup _ _ _ Hnd).
  rewrite (nested_value_ordered h t None Hm); [done|].
  intros x Hx. by apply Hnames.
Qed.

(** X19: on a tree in which no name is [__proto__] or an array index (the
    canonical decimal form of an integer below 2^32 - 1) and no two
    children of a node have the same name, the objects of
    [formatNestedJson] and of [formatYaml] list the children of each node
    in document order.  (Names that are array indices come first, in
    ascending order: [formatNestedJson_numeric_names].) *)
Theorem formatNestedJson_document_order (h : heap) (root : addr) (t : shape) :
  tree h root t →
  (∀ x, x ∈ preorder t →
        node_name h x ≠ js "__proto__"
        ∧ array_index (node_name h x) = None
        ∧ NoDup (map (node_name h) (node_children h x))) →
  formatNestedJson h (Some root)
  = Ok (JSON_stringify (JObject true [(node_name h root, ordered_value h t)]))
  ∧ formatYaml h (Some root)
    = Ok (jsonToYaml (JObject true [(js "root", ordered_value h t)]) 0).
Proof.
  intros Ht Hnames. pose proof (nestedJsonObject_ordered h root t Ht Hnames) as E.
  split.
  - unfold formatNestedJson. by rewrite E.
  - unfold formatYaml. by rewrite E.
Qed.

Example formatNestedJson_numeric_names :
  parseInput (js "b
10
9") = Ok ([mkFS (js ".") [1; 2; 3] (-1) None; mkFS (js "b") [] 0 (Some 0);
           mkFS (js "10") [] 0 (Some 0); mkFS (js "9") [] 0 (Some 0)], 0)
  ∧ nestedJsonObject [mkFS (js ".") [1; 2; 3] (-1) None; mkFS (js "b") [] 0 (Some 0);
                      mkFS (js "10") [] 0 (Some 0); mkFS (js "9") [] 0 (Some 0)]
                     (Some 0)
    = Ok (JObject true [(js ".", JObject true [(js "9", JNull); (js "10", JNull);
                                              (js "b", JNull)])]).
Proof. by_eval. Qed.

Lemma formatNestedJson_document_order_witness :
  formatNestedJson scenario_heap (Some 0)
  = Ok (JSON_stringify
          (JObject true
             [(js ".", JObject true
                 [(js "app", JObject true
                     [(js "src", JObject true [(js "index.js", JNull)]);
                      (js "package.json", JNull)])])])).
Proof.
  destruct (formatNestedJson_document_order scenario_heap 0 scenario_shape
              scenario_tree) as [Hjson _].
  - intros x Hx. apply list_elem_of_In in Hx. simpl in Hx.
    destruct Hx as [<-|[<-|[<-|[<-|[<-|[]]]]]];
      (split; [discriminate|]); (split; [by_eval|]);
      apply NoDup_ListNoDup; repeat constructor; simpl; intuition discriminate.
  - rewrite Hjson. by_eval.
Defined.

Lemma ordered_value_kind (h : heap) (t : shape) :
  (ordered_value h t = JNull ∧ node_count t = 1)
  ∨ ∃ props, ordered_value h t = JObject true props.
Proof.
  destruct t as [a [|k kids]]; cbn [ordered_value].
  - destruct (includes _ _); [right|left]; eauto.
  - right. eauto.
Qed.

Lemma jsonToYaml_object (i : bool) (props : list (jsstring * json)) (indent : nat) :
  jsonToYaml (JObject i props) indent
  = concat (map (λ kv,
                   match snd kv with
                   | JNull => spaces indent ++ fst kv ++ js ": null" ++ [10%N]
                   | JString _ => []
                   | _ => spaces indent ++ fst kv ++ js ":" ++ [10%N]
                          ++ jsonToYaml (snd kv) (indent + 2)
                   end) props).
Proof. reflexivity. Qed.

Lemma lf_count_yaml (h : heap) (t : shape) :
  names_lf_free h →
  ∀ indent, lf_count (jsonToYaml (ordered_value h t) indent) = node_count t - 1.
Proof.
  intros Hnames. induction t as [a kids IH] using shape_ind'. intros indent.
  rewrite Forall_forall in IH.
  destruct kids as [|k1 kids1].
  { cbn [ordered_value]. by destruct (includes _ _). }
  cbn [ordered_value]. rewrite jsonToYaml_object, map_map.
  unfold node_count. cbn [preorder length]. rewrite Nat.sub_succ, Nat.sub_0_r.
  apply (lf_count_kids (λ l, length l)); [done|apply length_app|].
  intros k Hk. cbn [fst snd].
  pose proof (node_name_lf_free h (addr_of k) Hnames) as Hname.
  destruct (ordered_value_kind h k) as [[E Hone]|[props E]].
  - rewrite E. rewrite !lf_count_app, (lf_count_free _ (lf_free_spaces indent)),
      (lf_count_free _ Hname). unfold node_count in Hone. rewrite Hone. reflexivity.
  - pose proof (IH k Hk (indent + 2)) as IHk. rewrite E in IHk |- *.
    rewrite !lf_count_app, (lf_count_free _ (lf_free_spaces indent)),
      (lf_count_free _ Hname), IHk.
    unfold node_count. destruct (preorder_head k) as [l ->]. simpl. lia.
Qed.

(** X20: on a tree as in X19 (no name [__proto__] or an array index, no two
    children of a node with the same name) in which no name holds a line
    feed, the YAML of [formatYaml] has one line for each node of the tree:
    the line [root:] (or [root: null]) for the root and, below the line of
    a node, the lines of its children, indented by 2 more. *)
Theorem formatYaml_one_line_per_node (h : heap) (root : addr) (t : shape) :
  tree h root t →
  (∀ x, x ∈ preorder t →
        node_name h x ≠ js "__proto__"
        ∧ array_index (node_name h x) = None
        ∧ NoDup (map (node_name h) (node_children h x))) →
  names_lf_free h →
  ∃ out,
    formatYaml h (Some root) = Ok out
    ∧ out = jsonToYaml (JObject true [(js "root", ordered_value h t)]) 0
    ∧ lf_count out = node_count t.
Proof.
  intros Ht Hnames Hfree.
  pose proof (nestedJsonObject_ordered h root t Ht Hnames) as E.
  eexists. split; [|split; [reflexivity|]].
  - unfold formatYaml. by rewrite E.
  - rewrite jsonToYaml_object. cbn [map concat fst snd]. rewrite app_nil_r.
    assert (lf_count (js "root") = 0) as Hroot by reflexivity.
    destruct (ordered_value_kind h t) as [[Ev Hone]|[props Ev]].
    + rewrite Ev, Hone. reflexivity.
    + pose proof (lf_count_yaml h t Hfree (0 + 2)) as Hcount.
      rewrite Ev in Hcount |- *.
      rewrite !lf_count_app, Hcount. unfold node_count.
      destruct (preorder_head t) as [l ->]. simpl. lia.
Qed.

Lemma formatYaml_one_line_per_node_witness :
  ∃ out, formatYaml scenario_heap (Some 0) = Ok out ∧ lf_count out = 5.
Proof.
  destruct (formatYaml_one_line_per_node scenario_heap 0 scenario_shape
              scenario_tree) as (out & Hout & _ & Hcount).
  - intros x Hx. apply list_elem_of_In in Hx. simpl in Hx.
    destruct Hx as [<-|[<-|[<-|[<-|[<-|[]]]]]];
      (split; [discriminate|]); (split; [by_eval|]);
      apply NoDup_ListNoDup; repeat constructor; simpl; intuition discriminate.
  - intros a nd Ha. apply lf_free_literal.
    destruct a as [|[|[|[|[|a]]]]]; simpl in Ha; try discriminate;
      injection Ha as <-; by_eval.
  - exists out. split; [exact Hout|exact Hcount].
Defined.

Lemma fold_assign_last (h : heap) (kids : list shape) :
  ∀ props k,
    get_property
      (fold_left (λ props kid,
                    assign props (node_name h (addr_of kid)) (nested_value h kid))
                 kids props) k
    = match last_named h k kids with
      | Some kid => Some (nested_value h kid)
      | None => get_property props k
      end.
Proof.
  unfold last_named.
  induction kids as [|kid kids IH]; intros props k; [done|].
  cbn [fold_left]. rewrite IH, get_property_assign.
  destruct (decide (node_name h (addr_of kid) = k)) as [E|E].
  - rewrite filter_cons_True by done.
    rewrite (proj2 (str_eqb_eq _ _) E).
    destruct (filter _ kids) as [|x l] eqn:Ef; [reflexivity|].
    change (last (kid :: x :: l)) with (last (x :: l)).
    by destruct (last (x :: l)) eqn:El; [|apply last_None in El].
  - rewrite filter_cons_False by done.
    by rewrite (proj2 (str_eqb_neq _ _) E).
Qed.

(** X21: children of the same name share one key.  For a node with
    children, in a subtree without a node named [__proto__], the object of
    [createNestedObject] has a key for each name of a child and no other,
    and the value under a name is the value of the last child of that
    name. *)
Theorem createNestedObject_same_name (h : heap) (p : option addr) (a : addr)
    (kids : list shape) (fuel : nat) :
  models h p (Sh a kids) = true → node_count (Sh a kids) ≤ fuel → kids ≠ [] →
  (∀ x, x ∈ preorder (Sh a kids) → node_name h x ≠ js "__proto__") →
  ∃ props,
    createNestedObject fuel h a = Ok (JObject true props)
    ∧ (∀ k, has_property props k = true
            ↔ ∃ kid, kid ∈ kids ∧ node_name h (addr_of kid) = k)
    ∧ ∀ k, get_property props k = nested_value h <$> last_named h k kids.
Proof.
  intros Hm Hfuel Hne Hnames.
  pose proof (createNestedObject_tree h (Sh a kids) p fuel Hm Hfuel Hnames) as E.
  cbn [addr_of nested_value] in E. destruct kids as [|k1 kids1]; [done|].
  eexists. split; [exact E|]. split.
  - intros k. rewrite fold_assign_keys. cbn [has_property]. split; [|by right].
    intros [?|?]; done.
  - intros k. rewrite fold_assign_last. cbn [get_property].
    by destruct (last_named h k (k1 :: kids1)).
Qed.

Lemma createNestedObject_same_name_witness :
  ∃ props,
    createNestedObject 5 [mkFS (js "a") [1; 2; 3] 0 None;
                          mkFS (js "x") [] 2 (Some 0);
                          mkFS (js "y") [] 2 (Some 0);
                          mkFS (js "x") [4] 2 (Some 0);
                          mkFS (js "z") [] 4 (Some 3)] 0
    = Ok (JObject true props)
    ∧ get_property props (js "x") = Some (JObject true [(js "z", JNull)])
    ∧ length props = 2.
Proof.
  destruct (createNestedObject_same_name
              [mkFS (js "a") [1; 2; 3] 0 None; mkFS (js "x") [] 2 (Some 0);
               mkFS (js "y") [] 2 (Some 0); mkFS (js "x") [4] 2 (Some 0);
               mkFS (js "z") [] 4 (Some 3)]
              None 0 [Sh 1 []; Sh 2 []; Sh 3 [Sh 4 []]] 5)
    as (props & Hobj & _ & Hget).
  - by_eval.
  - unfold node_count. simpl. lia.
  - done.
  - intros x Hx. apply list_elem_of_In in Hx. simpl in Hx.
    destruct Hx as [<-|[<-|[<-|[<-|[<-|[]]]]]]; discriminate.
  - exists props. split; [exact Hobj|]. split.
    + rewrite Hget. by_eval.
    + assert (Ok (JObject true props)
              = Ok (JObject true [(js "x", JObject true [(js "z", JNull)]);
                                  (js "y", JNull)]) :> outcome json) as [= ->].
      { rewrite <- Hobj. by_eval. }
      reflexivity.
Defined.

(** ** The page *)





Lemma onlyWhitespace_nonempty (s : jsstring) :
  onlyWhitespace s = false → s ≠ [].
Proof. by intros H ->. Qed.


(** ** Parsing and rendering *)

Lemma getName_plain (h : heap) (x : addr) (nd : FileStructure)
    (options : GenerateTreeOptions) :
  h !! x = Some nd →
  truthy (trailingDirSlash options) = false → truthy (fullPath options) = false →
  getName h x options = Ok (name nd).
Proof.
  intros Hx Hslash Hfull. unfold getName. read_node Hx.
  rewrite Hslash, Hfull. cbn [andb mbind outcome_bind join]. done.
Qed.

(** X23: [generateTree] without options on the tree of [parseInput]: the
    output has the line [.] for the root and then one line for each item,
    in document order; the line of an item is its name behind a gutter
    that is 4 columns wide for each ancestor of the item. *)
Theorem parse_then_render (input : jsstring) (h : heap) (root : addr) :
  parseInput input = Ok (h, root) →
  ∃ structures out,
    splitInput input = Ok structures
    ∧ generateTree h (Some root) None = Ok (join [10%N] out)
    ∧ length out = S (length structures)
    ∧ out !! 0 = Some (js ".")
    ∧ ∀ i s, structures !! i = Some s →
        ∃ anc gutter,
          climbs h (S i) anc ∧ last anc = Some root
          ∧ length gutter = 4 * length anc
          ∧ out !! S i = Some (gutter ++ name s).
Proof.
  intros Hparse.
  destruct (parseInput_inv _ _ _ Hparse)
    as (structures & path & t0 & Hsplit & -> & Hinv).
  destruct (parseInput_tree _ _ _ Hparse) as (t & Ht & Hpre & Hlen).
  destruct Hinv as [Hlen' Hstatic _ _ _ _].
  set (lines := mkLines (js "├── ") (js "└── ") (js "│   ") (js "    ")).
  set (o := spread defaultOptions (default no_options None)).
  assert (LINE_STRINGS (charset_or_default o) = Some lines) as Hcs by reflexivity.
  assert (truthy (rootDot o) = true) as Hdot by reflexivity.
  destruct (generateTree_lines_preorder h 0 t None lines Ht Hcs)
    as (out & Hout & Hall).
  fold o in Hall. unfold shown in Hall. rewrite Hdot, Hpre in Hall.
  exists structures, out. split; [done|]. split.
  { unfold generateTree. by rewrite Hout. }
  split.
  { rewrite <- (Forall2_length _ _ _ Hall), length_seq. done. }
  assert (∀ a, a < length h →
            ∃ line, out !! a = Some line
                    ∧ getAsciiLine h a o = Ok (Some line)) as Hline.
  { intros a Ha.
    destruct (Forall2_lookup_l _ _ _ a a Hall) as (line & ? & ?); [|eauto].
    by apply lookup_seq_lt. }
  split.
  { destruct (Hline 0 ltac:(lia)) as (line & Hl & Hg). rewrite Hl. f_equal.
    destruct (Hstatic 0 root_node eq_refl) as (rnd & Hr & Hn & _).
    pose proof Ht as (Hm & Hroot & _).
    assert (climbs h 0 []) as Hclimb.
    { destruct (models_root _ _ _ Hm) as (nd & Hnd & Hp & _).
      rewrite Hroot in Hnd. exists nd. done. }
    rewrite (getAsciiLine_root h 0 o lines Hcs Hclimb), Hdot in Hg.
    injection Hg as <-. by rewrite (node_name_lookup _ _ _ Hr), Hn. }
  intros i s Hs.
  destruct (Hstatic (S i) s Hs) as (nd & Hnd & Hn & _).
  assert (S i < length h) as Hlt by (by apply lookup_lt_Some in Hnd).
  destruct (Hline (S i) Hlt) as (line & Hl & Hg).
  assert (S i ∈ preorder t) as Hin.
  { rewrite Hpre. apply elem_of_seq. lia. }
  destruct (tree_inner_climbs h 0 t (S i) Ht Hin ltac:(done))
    as (p & anc & Hclimb & Hlen_anc).
  destruct (getAsciiLine_layout h (S i) p anc o lines Hcs Hclimb Hlen_anc)
    as (nm & Hnm & Hline').
  rewrite (getName_plain h (S i) nd o Hnd eq_refl eq_refl) in Hnm.
  injection Hnm as <-.
  rewrite Hline', Hdot, drop_0 in Hg.
  assert (length (concat (guides h lines (p :: anc))
                  ++ (if is_last h (S i) then LAST_CHILD lines else CHILD lines))
          = 4 * length (p :: anc)) as Hgl.
  { rewrite length_app, (guides_length h _ lines (p :: anc) Hcs).
    destruct (is_last h (S i)); simpl; lia. }
  exists (p :: anc),
    (concat (guides h lines (p :: anc))
     ++ (if is_last h (S i) then LAST_CHILD lines else CHILD lines)).
  split; [done|]. split.
  { destruct (climbs_ends_at_root h 0 t Ht _ (S i) Hin Hclimb) as [Hlast _].
    rewrite <- Hlast. done. }
  split; [exact Hgl|].
  rewrite Hl, <- Hn, <- app_assoc. congruence.
Qed.

Lemma parse_then_render_witness :
  ∃ structures out,
    splitInput scenario_input = Ok structures
    ∧ generateTree scenario_heap (Some 0) None = Ok (join [10%N] out)
    ∧ length out = S (length structures).
Proof.
  destruct (parse_then_render scenario_input scenario_heap 0)
    as (structures & out & H1 & H2 & H3 & _).
  - by_eval.
  - exists structures, out. done.
Defined.
